(** * KGC league pairing generators: a shallow embedding

    The repository holds four generations of the pairing script
    ([generate_pairings.py], [generate_pairings_v2.py],
    [generate_pairings_v3.py], [generate_pairings_v4.py]).  Every module
    below embeds the pairing core of one script: Python dictionaries are
    finite maps, Python sets of names are finite sets, data-frame columns and
    lists of player dictionaries are lists of records.

    Numbers: course handicaps are whole strokes ([Z]).  Value scores and
    handicap indices are floats; a finite float is taken as the rational it
    denotes ([Q]).  The first script decides its search by comparing sums
    of value scores, so its additions are the additions of floats
    ([float_add]: the exact sum rounded to the nearest binary64 number).
    For the other three scripts sums, products and quotients are exact, and
    what is stated of them is what does not turn on rounding.  A missing
    number ([nan], what an empty cell of a CSV file is read as) has no
    counterpart in [Q]: the first script drops such rows before the pairing
    core runs (line 62); the later scripts can meet one, and what is stated
    of them does not turn on how such a number compares. *)

From Stdlib Require Import ZArith QArith Qabs Qminmax Lqa Lia.
From stdpp Require Import gmap strings list fin_maps sorting.

Open Scope string_scope.
Open Scope list_scope.

#[local] Set Warnings "-clear-no-such-hyp".

(** ** Shared list machinery *)

(** [itertools.permutations]: tuples in lexicographic order of the positions
    of the input, so the first tuple is the input itself. *)
Fixpoint selections {A} (l : list A) : list (A * list A) :=
  match l with
  | [] => []
  | x :: xs => (x, xs) :: map (λ ys, (ys.1, x :: ys.2)) (selections xs)
  end.

Fixpoint perms_of_length {A} (n : nat) (l : list A) : list (list A) :=
  match n with
  | O => [[]]
  | S n' => selections l ≫= λ s, map (cons s.1) (perms_of_length n' s.2)
  end.

Definition permutations {A} (l : list A) : list (list A) :=
  perms_of_length (length l) l.

(** [list.sort(key=..., reverse=True)] and [sorted(..., reverse=True)]:
    a stable sort by descending key, elements with equal keys keep their
    order.  Insertion from the right realises exactly that order. *)
Section SortDesc.
Context {A : Type} (key : A → Q).

Fixpoint insert_desc (x : A) (l : list A) : list A :=
  match l with
  | [] => [x]
  | y :: l' =>
      if Qlt_le_dec (key x) (key y) then y :: insert_desc x l'
      else x :: y :: l'
  end.

Definition sort_desc (l : list A) : list A := foldr insert_desc [] l.

(** [list.sort(key=...)]: the stable ascending sort. *)
Fixpoint insert_asc (x : A) (l : list A) : list A :=
  match l with
  | [] => [x]
  | y :: l' =>
      if Qlt_le_dec (key y) (key x) then y :: insert_asc x l'
      else x :: y :: l'
  end.

Definition sort_asc (l : list A) : list A := foldr insert_asc [] l.
End SortDesc.

(** The loop shape shared by the permutation search of the first script and
    the either-or choice of the second: a candidate replaces the best so far
    only when it evaluates and scores strictly higher. *)
Definition keep_better {X R} (eval : X → option (R * Q))
    (best : option R * Q) (x : X) : option R * Q :=
  match eval x with
  | Some (r, s) => if Qlt_le_dec best.2 s then (Some r, s) else best
  | None => best
  end.

(** The candidates named by a list of pairs, role by role. *)
Definition pair_names {A} (ps : list (A * A)) : list A :=
  ps ≫= λ p, [p.1; p.2].

(** ** Float addition

    Python adds two floats as IEEE 754 binary64 does: the exact sum is
    rounded to the nearest number [m * 2 ^ e] with [m < 2 ^ 53] and
    [-1074 <= e], ties going to the even [m].  (Sums beyond the largest
    float, which Python turns into [inf], are not in the range of this
    model.) *)

(** The integer nearest to [n / d], for [0 <= n] and [0 < d]. *)
Definition round_half_even (n d : Z) : Z :=
  let m := (n / d)%Z in
  let r := (n mod d)%Z in
  if (2 * r <? d)%Z then m
  else if (d <? 2 * r)%Z then (m + 1)%Z
  else if Z.even m then m else (m + 1)%Z.

(** [n / d] divided by [2 ^ e], as a fraction. *)
Definition scale2 (n d e : Z) : Z * Z :=
  if (0 <=? e)%Z then (n, d * 2 ^ e)%Z else (n * 2 ^ (- e), d)%Z.

(** The float nearest to a rational. *)
Definition binary64 (q : Q) : Q :=
  let n := Z.abs (Qnum q) in
  let d := Z.pos (Qden q) in
  if (n =? 0)%Z then 0%Q
  else
    let k := (Z.log2 n - Z.log2 d)%Z in
    let magnitude := if ((scale2 n d k).1 <? (scale2 n d k).2)%Z then (k - 1)%Z else k in
    let e := Z.max (magnitude - 52) (-1074) in
    let m := round_half_even (scale2 n d e).1 (scale2 n d e).2 in
    let r := Qred (if (0 <=? e)%Z then inject_Z (m * 2 ^ e)
                   else Qmake m (Z.to_pos (2 ^ (- e)))) in
    if (Qnum q <? 0)%Z then Qopp r else r.

Definition float_add (x y : Q) : Q := binary64 (x + y).

(** ** generate_pairings.py *)
Module V1.

(** A row of the analysis data frame, reduced to the two columns the
    pairing core reads. *)
Record PlayerRow := {
  Player_Name : string;
  Combined_Value_Score : Q
}.

Definition REQUIRED_PAIRINGS : list (string * string) :=
  [("Greg Park", "Hugo Lamprecht")].

Definition EITHER_OR_PAIRINGS : list (list string * string) :=
  [(["Ian Scott"; "Grant Syme"], "Matt Maritz")].

Definition EXCLUSIONS : gmap string (list string) :=
  {[ "Jacques vd Berg" := ["Gerdus Theron"; "Frank Coetzee"; "Marcelle Smith"] ]}.

Definition MIN_CH_DIFF : Z := 2.

(** [find_player(df, name)]: the first row carrying the name, or [None]. *)
Definition find_player (df : list PlayerRow) (name : string) : option PlayerRow :=
  head (filter (λ r, Player_Name r = name) df).

(** The loop state of steps 1 and 2. *)
Record Fixed := {
  fixed_pairs : list (string * string * string);
  used_anchors : gset string;
  used_gunners : gset string
}.

(** One entry of [pairing_records]. *)
Record Pairing := {
  Anchor : string;
  Gunner : string;
  CH_Diff : Z;
  Pair_Combined_Score : Q;
  Constraint : string
}.

(** The players an output names. *)
Definition names_of (out : list Pairing) : list string :=
  pair_names ((λ r, (Anchor r, Gunner r)) <$> out).

(** How step 3 obtained its assignment. *)
Inductive Mode := Exact | Fallback.

Section Core.
(** The closure of [generate_pairings] at line 204: the two lookups and the
    two pools (after required players were added to them). *)
Variable ch_lookup : gmap string Z.
Variable score_lookup : gmap string Q.
Variable top_anchors top_gunners : list PlayerRow.

Definition get_ch_diff (anchor_name gunner_name : string) : Z :=
  let anchor_ch := default 0%Z (ch_lookup !! anchor_name) in
  let gunner_ch := default 0%Z (ch_lookup !! gunner_name) in
  Z.abs (gunner_ch - anchor_ch).

Definition is_valid_pairing (anchor_name gunner_name : string) : bool :=
  if bool_decide (gunner_name ∈ default [] (EXCLUSIONS !! anchor_name)) then false
  else if bool_decide (ch_lookup ≠ ∅) then
    if (get_ch_diff anchor_name gunner_name <? MIN_CH_DIFF)%Z then false
    else true
  else true.

(** The spec's "total attribute spread" of an assignment.  The script
    never forms this sum; it is stated here to compare assignments. *)
Definition total_spread (asg : list (string * string)) : Z :=
  foldr (λ ag acc, (get_ch_diff ag.1 ag.2 + acc)%Z) 0%Z asg.

Definition get_combined_score (anchor_name gunner_name : string) : Q :=
  float_add (default 0%Q (score_lookup !! anchor_name))
            (default 0%Q (score_lookup !! gunner_name)).

(** "Find both players in either pool": the pool searched first differs for
    the two roles. *)
Definition find_anchor (name : string) : option PlayerRow :=
  match find_player top_anchors name with
  | Some r => Some r
  | None => find_player top_gunners name
  end.

Definition find_gunner (name : string) : option PlayerRow :=
  match find_player top_gunners name with
  | Some r => Some r
  | None => find_player top_anchors name
  end.

Definition no_fixed : Fixed :=
  {| fixed_pairs := []; used_anchors := ∅; used_gunners := ∅ |}.

Definition fix_pair (st : Fixed) (a g : PlayerRow) (tag : string) : Fixed :=
  {| fixed_pairs := fixed_pairs st ++ [(Player_Name a, Player_Name g, tag)];
     used_anchors := {[Player_Name a]} ∪ used_anchors st;
     used_gunners := {[Player_Name g]} ∪ used_gunners st |}.

(** Step 1, one iteration of the loop over [REQUIRED_PAIRINGS]. *)
Definition required_step (st : Fixed) (rp : string * string) : Fixed :=
  match find_anchor rp.1, find_gunner rp.2 with
  | Some a, Some g => fix_pair st a g "REQUIRED"
  | _, _ => st
  end.

(** Step 2, the inner loop over the anchor options: the first option that
    is present and not yet used as an anchor is taken, then [break]. *)
Fixpoint try_options (st : Fixed) (g : PlayerRow) (anchor_options : list string) : Fixed :=
  match anchor_options with
  | [] => st
  | anchor_name :: rest =>
      match find_anchor anchor_name with
      | Some a =>
          if bool_decide (Player_Name a ∉ used_anchors st)
          then fix_pair st a g "REQUIRED (either/or)"
          else try_options st g rest
      | None => try_options st g rest
      end
  end.

Definition either_or_step (st : Fixed) (eo : list string * string) : Fixed :=
  match find_gunner eo.2 with
  | Some g =>
      if bool_decide (Player_Name g ∉ used_gunners st)
      then try_options st g eo.1
      else st
  | None => st
  end.

Definition apply_constraints (required : list (string * string))
    (either_or : list (list string * string)) : Fixed :=
  foldl either_or_step (foldl required_step no_fixed required) either_or.

(** The names a pair of constraint tables mentions. *)
Definition constraint_names (required : list (string * string))
    (either_or : list (list string * string)) : list string :=
  pair_names required ++ (either_or ≫= λ eo, eo.1 ++ [eo.2]).

(** What steps 1 and 2 maintain while they run over constraints whose
    names are pairwise different: the fixed pairs name players that were
    found, no name twice, every name is recorded as used, and no fixed
    pair carries the tag of step 3. *)
Definition fixed_inv (st : Fixed) (seen : gset string) : Prop :=
  NoDup (pair_names (fixed_pairs st).*1)
  ∧ (∀ n, n ∈ pair_names (fixed_pairs st).*1 →
       n ∈ seen ∧ n ∈ used_anchors st ∪ used_gunners st)
  ∧ Forall (λ fp, is_Some (find_anchor fp.1.1) ∧ is_Some (find_gunner fp.1.2)
                  ∧ fp.2 ≠ "AUTO")
           (fixed_pairs st).

Definition remaining (st : Fixed) (pool : list PlayerRow) : list string :=
  let all_used_players := used_anchors st ∪ used_gunners st in
  filter (λ n, n ∉ all_used_players) (Player_Name <$> pool).

(** The body of the permutation loop: [None] when some pair of the zip is
    rejected, otherwise the accumulated score. *)
Fixpoint score_pairs (total_score : Q) (ps : list (string * string)) : option Q :=
  match ps with
  | [] => Some total_score
  | (anchor, gunner) :: ps' =>
      if is_valid_pairing anchor gunner
      then score_pairs (float_add total_score (get_combined_score anchor gunner)) ps'
      else None
  end.

Definition search_step (remaining_anchors : list string)
    (best : option (list (string * string)) * Q) (perm : list string)
    : option (list (string * string)) * Q :=
  match score_pairs 0 (zip remaining_anchors perm) with
  | Some total_score =>
      if Qlt_le_dec best.2 total_score
      then (Some (zip remaining_anchors perm), total_score)
      else best
  | None => best
  end.

(** Lines 253-269: every permutation of the remaining gunners is visited. *)
Definition permutation_search (remaining_anchors remaining_gunners : list string)
    : option (list (string * string)) * Q :=
  foldl (search_step remaining_anchors) (None, (-1)%Q) (permutations remaining_gunners).

(** Lines 275-282: the greedy fallback. *)
Definition first_free (anchor : string) (temp_used_gunners : gset string)
    (remaining_gunners : list string) : option string :=
  head (filter (λ gunner, (gunner ∉ temp_used_gunners)
                          ∧ (gunner ∉ default [] (EXCLUSIONS !! anchor)))
               remaining_gunners).

Fixpoint greedy_assignment (temp_used_gunners : gset string)
    (remaining_anchors remaining_gunners : list string) : list (string * string) :=
  match remaining_anchors with
  | [] => []
  | anchor :: rest =>
      match first_free anchor temp_used_gunners remaining_gunners with
      | Some gunner =>
          (anchor, gunner)
            :: greedy_assignment ({[gunner]} ∪ temp_used_gunners) rest remaining_gunners
      | None => greedy_assignment temp_used_gunners rest remaining_gunners
      end
  end.

Definition optimize (remaining_anchors remaining_gunners : list string)
    : Mode * list (string * string) :=
  match (permutation_search remaining_anchors remaining_gunners).1 with
  | Some best_assignment => (Exact, best_assignment)
  | None => (Fallback, greedy_assignment ∅ remaining_anchors remaining_gunners)
  end.

(** Lines 284-335.  A row that is looked up and not found would raise at
    the sort; [None] stands for that exception.  Python's [zip] is stdpp's
    [zip]: both stop at the shorter list. *)
Definition fixed_record (fp : string * string * string) : option Pairing :=
  a ← find_anchor fp.1.1;
  g ← find_gunner fp.1.2;
  Some {| Anchor := Player_Name a;
          Gunner := Player_Name g;
          CH_Diff := get_ch_diff fp.1.1 fp.1.2;
          Pair_Combined_Score := float_add (Combined_Value_Score a) (Combined_Value_Score g);
          Constraint := fp.2 |}.

Definition auto_record (p : string * string) : option Pairing :=
  a ← find_player top_anchors p.1;
  g ← find_player top_gunners p.2;
  Some {| Anchor := Player_Name a;
          Gunner := Player_Name g;
          CH_Diff := get_ch_diff p.1 p.2;
          Pair_Combined_Score := float_add (Combined_Value_Score a) (Combined_Value_Score g);
          Constraint := "AUTO" |}.

Definition pairings_with (required : list (string * string))
    (either_or : list (list string * string)) : option (Mode * list Pairing) :=
  let st := apply_constraints required either_or in
  let best := optimize (remaining st top_anchors) (remaining st top_gunners) in
  fixed ← mapM fixed_record (fixed_pairs st);
  auto ← mapM auto_record best.2;
  Some (best.1, sort_desc Pair_Combined_Score (fixed ++ auto)).

Definition generate_pairings : option (Mode * list Pairing) :=
  pairings_with REQUIRED_PAIRINGS EITHER_OR_PAIRINGS.

End Core.

(** *** Worked runs *)

Definition row (name : string) (score : Q) : PlayerRow :=
  {| Player_Name := name; Combined_Value_Score := score |}.

Definition scores_of (pool : list PlayerRow) : gmap string Q :=
  list_to_map ((λ r, (Player_Name r, Combined_Value_Score r)) <$> pool).

(** Two anchors and two gunners whose two assignments are both admissible
    and worth the same. *)
Definition tie_ch : gmap string Z :=
  list_to_map [("A1", 0%Z); ("A2", 10%Z); ("B1", 15%Z); ("B2", 5%Z)].
Definition tie_anchors : list PlayerRow := [row "A1" 9; row "A2" 4].
Definition tie_gunners : list PlayerRow := [row "B1" 8; row "B2" 3].
Definition tie_scores : gmap string Q := scores_of (tie_anchors ++ tie_gunners).

(** The same four players with value scores whose sums round differently:
    the two assignments are worth the same in exact arithmetic, and the
    second one adds up to the greater float. *)
Definition rounding_anchors : list PlayerRow :=
  [row "A1" (binary64 9.4); row "A2" (binary64 9.3)].
Definition rounding_gunners : list PlayerRow :=
  [row "B1" (binary64 9.4); row "B2" (binary64 9.2)].
Definition rounding_scores : gmap string Q :=
  scores_of (rounding_anchors ++ rounding_gunners).

(** A required pair and a leftover pair, each of equal handicaps. *)
Definition level_ch : gmap string Z :=
  list_to_map [("Greg Park", 10%Z); ("Hugo Lamprecht", 10%Z);
               ("Anton", 7%Z); ("Bernard", 7%Z)].
Definition level_anchors : list PlayerRow := [row "Greg Park" 8; row "Anton" 6].
Definition level_gunners : list PlayerRow := [row "Hugo Lamprecht" 7; row "Bernard" 5].
Definition level_scores : gmap string Q := scores_of (level_anchors ++ level_gunners).

(** An excluded pair with the roles the other way round: the player who
    must be kept apart sits in the gunner pool. *)
Definition swapped_anchors : list PlayerRow := [row "Gerdus Theron" 6].
Definition swapped_gunners : list PlayerRow := [row "Jacques vd Berg" 5].
Definition swapped_scores : gmap string Q := scores_of (swapped_anchors ++ swapped_gunners).

(** The excluded player leads the anchor pool and a listed partner leads
    the gunner pool, so the first ordering of the search pairs the two. *)
Definition barred_anchors : list PlayerRow := [row "Jacques vd Berg" 9; row "A2" 4].
Definition barred_gunners : list PlayerRow := [row "Gerdus Theron" 8; row "B2" 3].
Definition barred_scores : gmap string Q := scores_of (barred_anchors ++ barred_gunners).

(** Eight anchors; eight gunners plus two constrained players whose partners
    are not on the roster, so that ten gunners are left for step 3. *)
Definition wide_anchors : list PlayerRow :=
  [row "A1" 9; row "A2" 8; row "A3" 7; row "A4" 6;
   row "A5" 5; row "A6" 4; row "A7" 3; row "A8" 2].
Definition wide_gunners : list PlayerRow :=
  [row "G1" 9; row "G2" 8; row "G3" 7; row "G4" 6;
   row "G5" 5; row "G6" 4; row "G7" 3; row "G8" 2;
   row "Hugo Lamprecht" 1; row "Ian Scott" 1].
Definition wide_scores : gmap string Q := scores_of (wide_anchors ++ wide_gunners).


End V1.

(** The line the second and the third script print when a member of a
    required pairing is not on the roster. *)
Definition missing_warning (missing : string) : string :=
  "  WARNING: Could not find " +:+ missing +:+ " for required pairing".

(** [itertools.combinations(l, 2)]: the pairs of positions [i < j], in
    lexicographic order. *)
Fixpoint combinations2 {A} (l : list A) : list (A * A) :=
  match l with
  | [] => []
  | x :: xs => map (pair x) xs ++ combinations2 xs
  end.

(** A float that may be [float('inf')]. *)
Inductive ext := Finite (q : Q) | Infinity.

Definition ext_lt (x y : ext) : bool :=
  match x, y with
  | Finite a, Finite b => if Qlt_le_dec a b then true else false
  | Finite _, Infinity => true
  | Infinity, _ => false
  end.

(** ** generate_pairings_v2.py *)
Module V2.

Record Matchplay := {
  wins : Z;
  losses : Z;
  draws : Z;
  matches : Z;
  win_pct : Q
}.

(** The player dictionary of [get_player_data], reduced to the keys the
    pairing core reads. *)
Record Player := {
  name : string;
  combined_score : option Q;
  matchplay : option Matchplay;
  hi : Q;
  commitment : string
}.

Definition calculate_pairing_score (player1 player2 : Player) : Q :=
  let score := 0%Q in
  let cvs1 := default 0%Q (combined_score player1) in
  let cvs2 := default 0%Q (combined_score player2) in
  let score := (score + (cvs1 + cvs2) * 0.6)%Q in
  let win_pct1 := from_option win_pct 40%Q (matchplay player1) in
  let win_pct2 := from_option win_pct 40%Q (matchplay player2) in
  let matches1 := from_option matches 0%Z (matchplay player1) in
  let matches2 := from_option matches 0%Z (matchplay player2) in
  let experience_bonus := Qmin (inject_Z (matches1 + matches2) / 100) 1 in
  let score := (score + ((win_pct1 + win_pct2) / 100) * 3 * 0.3)%Q in
  let score := (score + experience_bonus * 0.5)%Q in
  let spread := Qabs (hi player1 - hi player2) in
  if Qle_bool 5 spread && Qle_bool spread 15 then (score + 1.0)%Q
  else if Qle_bool 3 spread && Qle_bool spread 20 then (score + 0.5)%Q
  else score.

Definition required_pairings : list (string * string) :=
  [("Greg Park", "Hugo Lamprecht")].

Definition matt_options : list (string * string) :=
  [("Matt Maritz", "Grant Syme"); ("Matt Maritz", "Ian Scott")].






(** A candidate pair with its pairing score, as in [all_possible_pairs]. *)
Definition Scored : Type := Player * Player * Q.

(** The accumulators of the constraint steps, and the WARNING lines printed
    so far. *)
Record Chosen := {
  best_pairings : list (Player * Player * Q);
  used_players : gset string;
  warnings : list string
}.

(** One row of the CSV output; the rounded score columns are left out. *)
Record Row := {
  Pair : nat;
  Status : string;
  Anchor : string;
  Gunner : string
}.

(** The players the CSV rows name. *)
Definition row_names (rs : list Row) : list string :=
  pair_names ((λ r, (Anchor r, Gunner r)) <$> rs).

Definition free_of (used : gset string) (t : Scored) : Prop :=
  (name t.1.1 ∉ used) ∧ (name t.1.2 ∉ used).

Global Instance free_of_dec used t : Decision (free_of used t).
Proof. unfold free_of. apply _. Defined.

(** The players a list of scored pairs names. *)
Definition names_of (l : list Scored) : list string :=
  pair_names ((λ t, (name t.1.1, name t.1.2)) <$> l).

(** A selection out of [available]: nobody is named twice, and every name
    is recorded in [used]. *)
Definition selection_of (available selected : list Scored) (used : gset string) : Prop :=
  NoDup (names_of selected)
  ∧ (∀ n, n ∈ names_of selected → n ∈ used)
  ∧ (∀ t, t ∈ selected → t ∈ available).

(** *** The balance heuristic, lines 348-435 *)

(** [greedy_balanced]: the [while] loop.  Every turn that does not leave the
    loop removes the picked pair from [remaining], so a fuel of one turn per
    candidate pair is never used up; [None] stands for running out of it or
    for an index error. *)
Fixpoint greedy_balanced_loop (fuel : nat) (pairs_needed : Z)
    (selected : list Scored) (used : gset string) (remaining : list Scored)
    : option (list Scored) :=
  if bool_decide (Z.of_nat (length selected) < pairs_needed)%Z then
    match remaining with
    | [] => Some selected
    | _ :: _ =>
        match fuel with
        | O => None
        | S fuel' =>
            let valid := filter (free_of used) remaining in
            match valid with
            | [] => Some selected
            | _ :: _ =>
                let idx :=
                  if (length selected mod 2 =? 0)%nat
                  then (length valid / 4) `min` (length valid - 1)
                  else (length valid / 2)%nat in
                match valid !! idx with
                | Some (p1, p2, score) =>
                    let used' := {[name p2]} ∪ ({[name p1]} ∪ used) in
                    greedy_balanced_loop fuel' pairs_needed
                      (selected ++ [(p1, p2, score)]) used'
                      (filter (free_of used') remaining)
                | None => None
                end
            end
        end
    end
  else Some selected.

Definition greedy_balanced (pairs_needed : Z) (available_pairs_list : list Scored)
    : option (list Scored) :=
  greedy_balanced_loop (length available_pairs_list) pairs_needed [] ∅
    available_pairs_list.

(** [pure_greedy]: the [for] loop with its [break]. *)
Fixpoint pure_greedy_loop (pairs_needed : Z) (selected : list Scored)
    (used : gset string) (available : list Scored) : list Scored :=
  match available with
  | [] => selected
  | (p1, p2, score) :: rest =>
      if decide (free_of used (p1, p2, score)) then
        let selected' := selected ++ [(p1, p2, score)] in
        if bool_decide (pairs_needed <= Z.of_nat (length selected'))%Z
        then selected'
        else pure_greedy_loop pairs_needed selected'
               ({[name p2]} ∪ ({[name p1]} ∪ used)) rest
      else pure_greedy_loop pairs_needed selected used rest
  end.

Definition pure_greedy (pairs_needed : Z) (available_pairs_list : list Scored)
    : list Scored :=
  pure_greedy_loop pairs_needed [] ∅ available_pairs_list.

(** Python's [sum] and [min] over a list of floats. *)
Definition sum_scores (scores : list Q) : Q := foldl Qplus 0%Q scores.

Definition min_scores (scores : list Q) : option Q :=
  match scores with
  | [] => None
  | s :: rest => Some (foldl Qmin s rest)
  end.

(** [evaluate(sol)] returns [(variance, min_score)]; [None] is the
    [ZeroDivisionError] of an empty solution that is not too short. *)
Definition evaluate (pairs_needed : Z) (sol : list Scored) : option (ext * Q) :=
  if bool_decide (Z.of_nat (length sol) < pairs_needed)%Z
  then Some (Infinity, (-1)%Q)
  else
    let scores := sol.*2 in
    let len := inject_Z (Z.of_nat (length scores)) in
    min_score ← min_scores scores;
    let avg := (sum_scores scores / len)%Q in
    let variance := (sum_scores ((λ s, (s - avg) ^ 2)%Q <$> scores) / len)%Q in
    Some (Finite variance, min_score).


(** Lines 423-435: which of the two solutions is returned. *)
Definition prefer (pairs_needed : Z) (solution greedy_solution : list Scored)
    : option (list Scored) :=
  bal ← evaluate pairs_needed solution;
  greedy ← evaluate pairs_needed greedy_solution;
  let '(bal_var, bal_min) := bal in
  let '(greedy_var, greedy_min) := greedy in
  Some (if Qlt_le_dec (greedy_min + 0.5) bal_min then solution
        else if Qlt_le_dec (bal_min + 0.5) greedy_min then greedy_solution
        else if ext_lt bal_var greedy_var then solution
        else greedy_solution).

Definition find_balanced_pairings (pairs_needed : Z) (available_pairs : list Scored)
    : option (list Scored) :=
  solution ← greedy_balanced pairs_needed available_pairs;
  let greedy_solution := pure_greedy pairs_needed available_pairs in
  prefer pairs_needed solution greedy_solution.

Section Core.
Variable top_players : list Player.

Definition find_player (name' : string) : option Player :=
  head (filter (λ p, name p = name') top_players).

Definition nothing_chosen : Chosen :=
  {| best_pairings := []; used_players := ∅; warnings := [] |}.

(** Lines 292-303, one iteration. *)
Definition required_step (st : Chosen) (rp : string * string) : Chosen :=
  let '(name1, name2) := rp in
  match find_player name1, find_player name2 with
  | Some p1, Some p2 =>
      {| best_pairings := best_pairings st ++ [(p1, p2, calculate_pairing_score p1 p2)];
         used_players := {[name2]} ∪ ({[name1]} ∪ used_players st);
         warnings := warnings st |}
  | p1, _ =>
      let missing := match p1 with Some _ => name2 | None => name1 end in
      {| best_pairings := best_pairings st;
         used_players := used_players st;
         warnings := warnings st
           ++ [missing_warning missing] |}
  end.

(** What the loop owes a required pairing: the pair with its score when
    both players are on the roster, the printed warning about the first
    missing one otherwise. *)
Definition honoured (rp : string * string) (pairs : list (Player * Player * Q))
    (warned : list string) : Prop :=
  match find_player rp.1, find_player rp.2 with
  | Some p1, Some p2 => (p1, p2, calculate_pairing_score p1 p2) ∈ pairs
  | Some _, None => missing_warning rp.2 ∈ warned
  | None, _ => missing_warning rp.1 ∈ warned
  end.

(** Lines 307-316, one iteration: the option is kept when both players are
    present and unused and its score is strictly above the best so far. *)
Definition matt_step (used : gset string)
    (best : option (Player * Player * string * string) * Q) (opt : string * string)
    : option (Player * Player * string * string) * Q :=
  let '(name1, name2) := opt in
  match find_player name1, find_player name2 with
  | Some p1, Some p2 =>
      if bool_decide (name1 ∉ used) && bool_decide (name2 ∉ used) then
        let score := calculate_pairing_score p1 p2 in
        if Qlt_le_dec best.2 score then (Some (p1, p2, name1, name2), score)
        else best
      else best
  | _, _ => best
  end.

(** Lines 307-325. *)
Definition matt_constraint (options : list (string * string)) (st : Chosen) : Chosen :=
  match foldl (matt_step (used_players st)) (None, (-1)%Q) options with
  | (Some (p1, p2, name1, name2), best_matt_score) =>
      {| best_pairings := best_pairings st ++ [(p1, p2, best_matt_score)];
         used_players := {[name2]} ∪ ({[name1]} ∪ used_players st);
         warnings := warnings st |}
  | (None, _) =>
      {| best_pairings := best_pairings st;
         used_players := used_players st;
         warnings := warnings st
           ++ ["  WARNING: Could not satisfy Matt Maritz constraint"] |}
  end.

(** What one either-or option is worth: [None] unless both players are on
    the roster and unused. *)
Definition matt_eval (used : gset string) (opt : string * string)
    : option (Player * Player * string * string * Q) :=
  match find_player opt.1, find_player opt.2 with
  | Some p1, Some p2 =>
      if bool_decide (opt.1 ∉ used) && bool_decide (opt.2 ∉ used)
      then Some (p1, p2, opt.1, opt.2, calculate_pairing_score p1 p2)
      else None
  | _, _ => None
  end.

(** Nobody is named twice by the pairs chosen so far, and every name in
    them is in [used_players]. *)
Definition chosen_inv (st : Chosen) : Prop :=
  NoDup (names_of (best_pairings st))
  ∧ (∀ n, n ∈ names_of (best_pairings st) → n ∈ used_players st)
  ∧ (∀ t, t ∈ best_pairings st → t.1.1 ∈ top_players ∧ t.1.2 ∈ top_players).

Definition apply_constraints : Chosen :=
  matt_constraint matt_options (foldl required_step nothing_chosen required_pairings).

(** Lines 332-344. *)
Definition all_possible_pairs (st : Chosen) : list Scored :=
  let available_players := filter (λ p, name p ∉ used_players st) top_players in
  sort_desc snd
    ((λ pq, (pq.1, pq.2, calculate_pairing_score pq.1 pq.2))
       <$> combinations2 available_players).

(** Lines 453-492: anchor is the player of lower (or equal) handicap index;
    the first eight pairs play. *)
Definition make_row (i : nat) (pr : Player * Player * Q) : Row :=
  let '(p1, p2, _) := pr in
  let '(anchor, gunner) := if Qle_bool (hi p1) (hi p2) then (p1, p2) else (p2, p1) in
  {| Pair := i;
     Status := if (i <=? 8)%nat then "PLAY" else "RESERVE";
     Anchor := name anchor;
     Gunner := name gunner |}.

Record Output := {
  pairings : list (Player * Player * Q);
  rows : list Row;
  printed_warnings : list string
}.

(** Lines 252-525.  [None] stands for a run that ends in an exception:
    on an empty roster line 253 indexes the empty list of handicaps
    ([IndexError]); when no pair was made, the summary of line 522 divides
    by the number of rows ([ZeroDivisionError]; the CSV file, without rows,
    is written by then).  Whenever there is a row, the first row is a PLAY
    row, so the division of line 523 is defined. *)
Definition generate_pairings : option Output :=
  match top_players with
  | [] => None
  | _ :: _ =>
      let st := apply_constraints in
      let remaining_pairs := (12 - Z.of_nat (length (best_pairings st)))%Z in
      balanced_pairs ← find_balanced_pairings remaining_pairs (all_possible_pairs st);
      let best := sort_desc snd (best_pairings st ++ balanced_pairs) in
      match best with
      | [] => None
      | _ :: _ =>
          Some {| pairings := best;
                  rows := imap (λ i pr, make_row (S i) pr) best;
                  printed_warnings := warnings st |}
      end
  end.

End Core.

(** *** Worked runs *)

(** A player without match-play history. *)
Definition unrated (name' : string) (cvs handicap : Q) : Player :=
  {| name := name'; combined_score := Some cvs; matchplay := None;
     hi := handicap; commitment := "Full" |}.




(** A roster of eight committed players, in descending order of value
    score, that holds every player a constraint names. *)
Definition small_roster : list Player :=
  [unrated "Ian Scott" 9 3; unrated "Greg Park" 8 5;
   unrated "Hugo Lamprecht" 7 18; unrated "Matt Maritz" 6 20;
   unrated "Grant Syme" 5 9; unrated "Xander" 4 12;
   unrated "Yusuf" 3 14; unrated "Zane" 2.5 1].

End V2.

(** The allocation that closes the third and the fourth script, word for
    word the same in both: pairs whose two players may play at home, best
    first; the four best of them lead, the away-only pairs follow, the other
    home-eligible pairs come last.  Position [i] (from 1) is HOME up to 4. *)
Definition home_first {A} (can_play_home : A → bool) (pair_cvs : A → Q)
    (pairings : list A) : list A :=
  let home_eligible := sort_desc pair_cvs (filter (λ p, can_play_home p = true) pairings) in
  let away_only_pairs := sort_desc pair_cvs (filter (λ p, can_play_home p ≠ true) pairings) in
  take 4 home_eligible ++ away_only_pairs ++ drop 4 home_eligible.

Definition location (i : nat) : string :=
  if (i <=? 4)%nat then "HOME" else "AWAY".

(** The selection that opens the third and the fourth script, again the
    same lines in both: every committed player who is not on the bench is
    taken, then the month-to-month players and after them the TBC players
    fill the selection up to sixteen, each tier in the order of
    [all_players]. *)
Definition fill_selection {A} (selected pool : list A) : list A :=
  let remaining_needed := (16 - Z.of_nat (length selected))%Z in
  if (0 <? remaining_needed)%Z
  then selected ++ take (Z.to_nat remaining_needed) pool
  else selected.

Definition select_sixteen {A} (name commitment : A → string) (bench : list string)
    (all_players : list A) : list A :=
  let tier c := filter (λ p, commitment p = c ∧ name p ∉ bench) all_players in
  let committed := tier "Full" in
  let monthly := tier "Month-2-month" in
  let tbc := tier "TBC" in
  fill_selection (fill_selection committed monthly) tbc.

(** ** generate_pairings_v3.py *)
Module V3.

(** The player dictionary of [get_player_data], reduced to the keys the
    pairing core reads.  [cvs] is [None] where Python has [None] (the player
    has no row in the analysis). *)
Record Player := {
  name : string;
  cvs : option Q;
  hi : Q;
  commitment : string;
  can_play_home : bool
}.

Definition REQUIRED_PAIRINGS : list (string * string) :=
  [("Greg Park", "Hugo Lamprecht");
   ("Jacques vd Berg", "Brandon Bester");
   ("Ian Scott", "Matt Maritz")].

(** The dictionary built by [make_pairing]. *)
Record Pairing := {
  anchor : Player;
  gunner : Player;
  pair_cvs : Q;
  hi_spread : Q;
  committed_count : nat;
  pair_can_play_home : bool;
  constraint : string
}.

Definition cvs_or_0 (p : Player) : Q := default 0%Q (cvs p).

Definition make_pairing (anchor gunner : Player) (constraint_type : string) : Pairing :=
  {| anchor := anchor;
     gunner := gunner;
     pair_cvs := (cvs_or_0 anchor + cvs_or_0 gunner)%Q;
     hi_spread := Qabs (hi anchor - hi gunner);
     committed_count :=
       length (filter (λ p, commitment p = "Full") [anchor; gunner]);
     pair_can_play_home := can_play_home anchor && can_play_home gunner;
     constraint := constraint_type |}.

Definition find_player (name' : string) (player_list : list Player) : option Player :=
  head (filter (λ p, name p = name') player_list).

(** Accumulators of the required-pairings loop, with the WARNING lines
    printed so far. *)
Record Paired := {
  pairings : list Pairing;
  used_players : gset string;
  warnings : list string
}.

Definition nothing_paired : Paired :=
  {| pairings := []; used_players := ∅; warnings := [] |}.

(** One CSV row, reduced to position, location and names. *)
Record Row := {
  Pair : nat;
  Location : string;
  Anchor : string;
  Gunner : string
}.

Definition make_row (i : nat) (pair : Pairing) : Row :=
  {| Pair := i;
     Location := location i;
     Anchor := name (anchor pair);
     Gunner := name (gunner pair) |}.

Record Output := {
  final_pairings : list Pairing;
  rows : list Row;
  printed_warnings : list string
}.

Section Core.
(** [selected], as it stands at line 187 before it is sorted in place. *)
Variable selected : list Player.

Definition sorted_selected : list Player := sort_asc hi selected.

(** Lines 258-275, one iteration: the lower handicap index is the anchor. *)
Definition required_step (st : Paired) (rp : string * string) : Paired :=
  let '(name1, name2) := rp in
  match find_player name1 sorted_selected, find_player name2 sorted_selected with
  | Some p1, Some p2 =>
      let '(anchor, gunner) :=
        if Qlt_le_dec (hi p1) (hi p2) then (p1, p2) else (p2, p1) in
      {| pairings := pairings st ++ [make_pairing anchor gunner "REQUIRED"];
         used_players := {[name gunner]} ∪ ({[name anchor]} ∪ used_players st);
         warnings := warnings st |}
  | p1, _ =>
      let missing := match p1 with Some _ => name2 | None => name1 end in
      {| pairings := pairings st;
         used_players := used_players st;
         warnings := warnings st
           ++ [missing_warning missing] |}
  end.

(** What the loop owes a required pairing: the pair itself, tagged
    REQUIRED with the lower handicap index as anchor, when both players are
    selected, and the printed warning about the first missing one
    otherwise. *)
Definition honoured (rp : string * string) (pairs : list Pairing)
    (warned : list string) : Prop :=
  match find_player rp.1 sorted_selected, find_player rp.2 sorted_selected with
  | Some p1, Some p2 =>
      ∃ p, p ∈ pairs ∧ constraint p = "REQUIRED"
           ∧ ((anchor p = p1 ∧ gunner p = p2 ∧ (hi p1 < hi p2)%Q)
              ∨ (anchor p = p2 ∧ gunner p = p1 ∧ (hi p2 <= hi p1)%Q))
  | Some _, None => missing_warning rp.2 ∈ warned
  | None, _ => missing_warning rp.1 ∈ warned
  end.

Definition apply_required : Paired :=
  foldl required_step nothing_paired REQUIRED_PAIRINGS.

(** Lines 277-298: the players left over are split at the middle of their
    handicap order, both halves are ranked by value, and rank meets rank
    until eight pairs exist. *)
Definition auto_pairings (st : Paired) : list Pairing :=
  let remaining :=
    sort_asc hi (filter (λ p, name p ∉ used_players st) sorted_selected) in
  let mid := (length remaining / 2)%nat in
  let anchors := sort_desc cvs_or_0 (take mid remaining) in
  let gunners := sort_desc cvs_or_0 (drop mid remaining) in
  let remaining_pairs := Z.to_nat (8 - Z.of_nat (length (pairings st))) in
  (λ ag, make_pairing ag.1 ag.2 "AUTO")
    <$> zip (take remaining_pairs anchors) (take remaining_pairs gunners).

(** The run from line 187 on.  The median of line 189 indexes the sorted
    list, so an empty selection raises ([None]); the first split and its
    balancing loops of lines 191-222 only feed the printed tables and are
    left out. *)
Definition generate_pairings : option Output :=
  match sorted_selected with
  | [] => None
  | _ :: _ =>
      let st := apply_required in
      let final := home_first pair_can_play_home pair_cvs
                     (pairings st ++ auto_pairings st) in
      Some {| final_pairings := final;
              rows := imap (λ i pair, make_row (S i) pair) final;
              printed_warnings := warnings st |}
  end.

End Core.

(** *** Worked runs *)

Definition player (name' : string) (value handicap : Q) (home : bool) : Player :=
  {| name := name'; cvs := Some value; hi := handicap;
     commitment := "Full"; can_play_home := home |}.

(** Sixteen committed players; five of the high handicappers have too few
    home rounds, so only three pairs are home-eligible. *)
Definition few_home_pairs : list Player :=
  [player "A1" 16 1 true; player "A2" 15 2 true; player "A3" 14 3 true;
   player "A4" 13 4 true; player "A5" 12 5 true; player "A6" 11 6 true;
   player "A7" 10 7 true; player "A8" 9 8 true;
   player "G1" 8 9 true; player "G2" 7 10 true; player "G3" 6 11 true;
   player "G4" 5 12 false; player "G5" 4 13 false; player "G6" 3 14 false;
   player "G7" 2 15 false; player "G8" 1 16 false].

(** A roster with Greg Park and without Hugo Lamprecht. *)
Definition without_hugo : list Player :=
  [player "Greg Park" 9 4 true; player "Jacques vd Berg" 8 6 true;
   player "Brandon Bester" 7 14 true; player "Ian Scott" 6 3 true;
   player "Matt Maritz" 5 19 true; player "Dawid" 4 11 true].

(** *** The roster, lines 141-185 *)

Definition BENCH_PLAYERS : list string := ["Werner van Loggerenburg"].

(** [all_players] is the list of line 146: the players of the commitment
    map whose value score is not [None]. *)
Definition select_players (all_players : list Player) : list Player :=
  let all_players := sort_desc cvs_or_0 all_players in
  select_sixteen name commitment BENCH_PLAYERS all_players.

(** The players a list of pairings names. *)
Definition names_of (l : list Pairing) : list string :=
  pair_names ((λ p, (name (anchor p), name (gunner p))) <$> l).

(** A pairing as the script builds them out of [selected]. *)
Definition well_formed (selected : list Player) (p : Pairing) : Prop :=
  anchor p ∈ selected ∧ gunner p ∈ selected
  ∧ (hi (anchor p) <= hi (gunner p))%Q
  ∧ p = make_pairing (anchor p) (gunner p) (constraint p)
  ∧ (constraint p = "REQUIRED" ∨ constraint p = "AUTO").

(** What the required-pairings loop keeps: nobody is named twice, and
    whoever is named is recorded as used. *)
Definition paired_inv (selected : list Player) (st : Paired) : Prop :=
  NoDup (names_of (pairings st))
  ∧ (∀ x, x ∈ names_of (pairings st) → x ∈ used_players st)
  ∧ Forall (well_formed selected) (pairings st).

(** A players list: fifteen committed players, two month-to-month
    players, a TBC player and the benched one. *)
Definition listed (name' : string) (value handicap : Q) (commitment' : string)
    : Player :=
  {| name := name'; cvs := Some value; hi := handicap;
     commitment := commitment'; can_play_home := true |}.

Definition crowded_list : list Player :=
  take 15 few_home_pairs
  ++ [listed "M1" 3.5 20 "Month-2-month"; listed "M2" 7.5 21 "Month-2-month";
      listed "T1" 6.5 22 "TBC"; listed "Werner van Loggerenburg" 20 12 "Full"].

End V3.

(** ** generate_pairings_v4.py *)
Module V4.

Record Player := {
  name : string;
  cvs : option Q;
  hi : Q;
  commitment : string;
  can_play_home : bool;
  is_wildcard : bool
}.

Record Pairing := {
  anchor : Player;
  gunner : Player;
  pair_cvs : Q;
  hi_spread : Q;
  committed_count : nat;
  pair_can_play_home : bool;
  pairing_type : string
}.

Definition cvs_or_0 (p : Player) : Q := default 0%Q (cvs p).

Definition make_pairing (anchor partner : Player) (pairing_type : string) : Pairing :=
  {| anchor := anchor;
     gunner := partner;
     pair_cvs := (cvs_or_0 anchor + cvs_or_0 partner)%Q;
     hi_spread := Qabs (hi anchor - hi partner);
     committed_count :=
       length (filter (λ p, commitment p = "Full") [anchor; partner]);
     pair_can_play_home := can_play_home anchor && can_play_home partner;
     pairing_type := pairing_type |}.

Record Paired := {
  pairings : list Pairing;
  used_players : gset string
}.

(** The first player of a list who is not used yet. *)
Definition first_unused (used : gset string) (candidates : list Player) : option Player :=
  head (filter (λ p, name p ∉ used) candidates).

(** Lines 278-298 and 301-321, one iteration: the preferred kind of partner
    first, then anybody of high handicap. *)
Definition pair_anchor (preferred all_high_hi : list Player) (tag : string)
    (st : Paired) (anchor : Player) : Paired :=
  let best_partner :=
    match first_unused (used_players st) preferred with
    | Some p => Some p
    | None => first_unused (used_players st) all_high_hi
    end in
  match best_partner with
  | Some partner =>
      {| pairings := pairings st ++ [make_pairing anchor partner tag];
         used_players := {[name partner]} ∪ ({[name anchor]} ∪ used_players st) |}
  | None => st
  end.

Record Row := {
  Pair : nat;
  Location : string;
  Anchor : string;
  Partner : string
}.

Definition make_row (i : nat) (pair : Pairing) : Row :=
  {| Pair := i;
     Location := location i;
     Anchor := name (anchor pair);
     Partner := name (gunner pair) |}.

(** The run from line 191 on. *)
Definition generate_pairings (selected : list Player) : list Pairing * list Row :=
  let selected := sort_asc hi selected in
  let mid := (length selected / 2)%nat in
  let anchors := sort_desc cvs_or_0 (take mid selected) in
  let high_hi_players := drop mid selected in
  let top_anchors := take 4 anchors in
  let mid_anchors := drop 4 anchors in
  let gunners := sort_desc cvs_or_0 (filter (λ p, is_wildcard p ≠ true) high_hi_players) in
  let wildcards := sort_desc cvs_or_0 (filter (λ p, is_wildcard p = true) high_hi_players) in
  let all_high_hi := sort_desc cvs_or_0 (gunners ++ wildcards) in
  let st := foldl (pair_anchor wildcards all_high_hi "TOP+WILDCARD")
              {| pairings := []; used_players := ∅ |} top_anchors in
  let st := foldl (pair_anchor gunners all_high_hi "MID+GUNNER") st mid_anchors in
  let final := home_first pair_can_play_home pair_cvs (pairings st) in
  (final, imap (λ i pair, make_row (S i) pair) final).

(** *** Worked runs *)

Definition player (name' : string) (value handicap : Q) (home wildcard : bool) : Player :=
  {| name := name'; cvs := Some value; hi := handicap; commitment := "Full";
     can_play_home := home; is_wildcard := wildcard |}.

(** Sixteen committed players, three home-eligible pairs. *)
Definition few_home_pairs : list Player :=
  [player "A1" 16 1 true false; player "A2" 15 2 true false;
   player "A3" 14 3 true false; player "A4" 13 4 true false;
   player "A5" 12 5 true false; player "A6" 11 6 true false;
   player "A7" 10 7 true false; player "A8" 9 8 true false;
   player "W1" 8 9 true true; player "W2" 7 10 true true;
   player "W3" 6 11 true true; player "W4" 5 12 false true;
   player "G5" 4 13 false false; player "G6" 3 14 false false;
   player "G7" 2 15 false false; player "G8" 1 16 false false].

(** Sixteen committed players with two wildcards only, so that the third
    and the fourth of the best anchors find no wildcard left. *)
Definition two_wildcards : list Player :=
  [player "A1" 16 1 true false; player "A2" 15 2 true false;
   player "A3" 14 3 true false; player "A4" 13 4 true false;
   player "A5" 12 5 true false; player "A6" 11 6 true false;
   player "A7" 10 7 true false; player "A8" 9 8 true false;
   player "W1" 8 9 true true; player "W2" 7 10 true true;
   player "G3" 6 11 true false; player "G4" 5 12 false false;
   player "G5" 4 13 false false; player "G6" 3 14 false false;
   player "G7" 2 15 false false; player "G8" 1 16 false false].

(** Eighteen committed players: the selection takes every committed
    player, so it can exceed sixteen. *)
Definition eighteen_committed : list Player :=
  few_home_pairs ++ [player "A9" 8.5 8.5 true false; player "G9" 0.5 17 true false].

(** *** The roster, lines 145-189 *)

Definition BENCH_PLAYERS : list string := ["Werner van Loggerenburg"].

(** [all_players] is the list of line 150: the players of the commitment
    map whose value score is not [None]. *)
Definition select_players (all_players : list Player) : list Player :=
  let all_players := sort_desc cvs_or_0 all_players in
  select_sixteen name commitment BENCH_PLAYERS all_players.

(** The players a list of pairings names. *)
Definition names_of (l : list Pairing) : list string :=
  pair_names ((λ p, (name (anchor p), name (gunner p))) <$> l).

(** What the pairs made so far look like, with anchors out of [low] and
    partners out of [high]: whoever is recorded as used is in a pair. *)
Definition matched (low high : list Player) (st : Paired) : Prop :=
  (∀ x, x ∈ used_players st → x ∈ names_of (pairings st))
  ∧ Forall (λ p, anchor p ∈ low ∧ gunner p ∈ high
                 ∧ p = make_pairing (anchor p) (gunner p) (pairing_type p))
           (pairings st).

(** A players list: fifteen committed players, two month-to-month
    players, a TBC player and the benched one. *)
Definition listed (name' : string) (value handicap : Q) (commitment' : string)
    : Player :=
  {| name := name'; cvs := Some value; hi := handicap;
     commitment := commitment'; can_play_home := true; is_wildcard := false |}.

Definition crowded_list : list Player :=
  take 15 few_home_pairs
  ++ [listed "M1" 3.5 20 "Month-2-month"; listed "M2" 7.5 21 "Month-2-month";
      listed "T1" 6.5 22 "TBC"; listed "Werner van Loggerenburg" 20 12 "Full"].

End V4.

(** * Properties *)

(** ** Permutations and sorting *)
Section ListFacts.
Context {A : Type}.
Implicit Types (l k : list A) (x : A).

Lemma selections_perm l x k : (x, k) ∈ selections l → l ≡ₚ x :: k.
Proof.
  revert x k. induction l as [|y l IH]; intros x k; simpl.
  - by intros ?%elem_of_nil.
  - intros [Heq|Hin]%elem_of_cons.
    + by injection Heq as -> ->.
    + apply list_elem_of_fmap in Hin as ([z r] & Heq & Hin). simpl in Heq.
      injection Heq as -> ->. rewrite (IH _ _ Hin). apply Permutation_swap.
Qed.

Lemma selections_length l : length (selections l) = length l.
Proof. induction l; simpl; [done|]. by rewrite length_map, IHl. Qed.

Lemma perms_of_length_perm n l k :
  length l = n → k ∈ perms_of_length n l → k ≡ₚ l.
Proof.
  revert l k. induction n as [|n IH]; intros l k Hlen; simpl.
  - intros ->%list_elem_of_singleton. by destruct l.
  - intros ([x r] & Hk & Hsel)%list_elem_of_bind. simpl in Hk.
    apply list_elem_of_fmap in Hk as (k' & -> & Hk').
    pose proof (selections_perm _ _ _ Hsel) as Hperm.
    rewrite Hperm. constructor. apply IH; [|done].
    apply Permutation_length in Hperm. simpl in Hperm. lia.
Qed.

Lemma permutations_perm l k : k ∈ permutations l → k ≡ₚ l.
Proof. by apply perms_of_length_perm. Qed.

Lemma permutations_head l : head (permutations l) = Some l.
Proof.
  unfold permutations. induction l as [|x l IH]; [done|].
  cbn [length perms_of_length selections]. rewrite bind_cons.
  cbn [fst snd]. destruct (perms_of_length (length l) l) as [|p ps]; [done|].
  simpl in *. congruence.
Qed.

Lemma length_bind_const {B} (f : B → list (list A)) (c : nat) (bs : list B) :
  Forall (λ b, length (f b) = c) bs → length (bs ≫= f) = length bs * c.
Proof.
  induction 1 as [|b bs Hb _ IH]; [done|].
  rewrite bind_cons, length_app, Hb, IH. simpl. lia.
Qed.

Lemma perms_of_length_count n l :
  length l = n → length (perms_of_length n l) = fact n.
Proof.
  revert l. induction n as [|n IH]; intros l Hlen; [done|].
  cbn [perms_of_length fact].
  rewrite (length_bind_const _ (fact n)), selections_length, Hlen; [done|].
  apply Forall_forall. intros [x r] Hin. rewrite length_map. apply IH.
  apply selections_perm, Permutation_length in Hin. simpl in *. lia.
Qed.

(** [permutations] yields [n!] tuples for [n] elements. *)
Lemma permutations_count l : length (permutations l) = fact (length l).
Proof. by apply perms_of_length_count. Qed.

Lemma zip_fst_sublist {B} l (k : list B) : (zip l k).*1 `sublist_of` l.
Proof.
  revert k. induction l as [|x l IH]; intros [|y k]; simpl;
    try apply sublist_nil_l. by apply sublist_skip.
Qed.

Lemma zip_snd_sublist {B} (l : list B) k : (zip l k).*2 `sublist_of` k.
Proof.
  revert k. induction l as [|x l IH]; intros [|y k]; simpl;
    try apply sublist_nil_l. by apply sublist_skip.
Qed.

Lemma pair_names_app (ps qs : list (A * A)) :
  pair_names (ps ++ qs) = pair_names ps ++ pair_names qs.
Proof. apply bind_app. Qed.

Lemma elem_of_pair_names (ps : list (A * A)) x :
  x ∈ pair_names ps ↔ x ∈ ps.*1 ∨ x ∈ ps.*2.
Proof.
  unfold pair_names. rewrite list_elem_of_bind, !list_elem_of_fmap. split.
  - intros ([a b] & Hx & Hin). simpl in Hx.
    apply elem_of_cons in Hx as [->|Hx]; [left; by exists (a, b)|].
    apply list_elem_of_singleton in Hx as ->. right. by exists (a, b).
  - intros [([a b] & -> & Hin)|([a b] & -> & Hin)]; exists (a, b);
      (split; [simpl; set_solver|done]).
Qed.

Lemma pair_names_NoDup (ps : list (A * A)) :
  NoDup ps.*1 → NoDup ps.*2 → (∀ x, x ∈ ps.*1 → x ∉ ps.*2) →
  NoDup (pair_names ps).
Proof.
  induction ps as [|[a b] ps IH]; [constructor|].
  rewrite !fmap_cons. simpl. intros [Ha Hl]%NoDup_cons [Hb Hr]%NoDup_cons Hdis.
  assert (Hab : a ≠ b) by (intros ->; apply (Hdis b); set_solver).
  assert (a ∉ pair_names ps).
  { rewrite elem_of_pair_names. intros [?|?]; [done|].
    apply (Hdis a); set_solver. }
  assert (b ∉ pair_names ps).
  { rewrite elem_of_pair_names. intros [?|?]; [|done].
    apply (Hdis b); set_solver. }
  apply NoDup_cons. split; [set_solver|].
  apply NoDup_cons. split; [done|].
  apply IH; [done..|]. intros x Hx. specialize (Hdis x). set_solver.
Qed.

Lemma mapM_total {B} (f : A → option B) (P : A → B → Prop) l :
  Forall (λ x, ∃ y, f x = Some y ∧ P x y) l →
  ∃ bs, mapM f l = Some bs ∧ Forall2 P l bs.
Proof.
  induction 1 as [|x l (y & Hy & HP) _ (bs & Hbs & Hall)]; [by exists []|].
  exists (y :: bs). split; [|by constructor].
  apply mapM_Some. constructor; [done|]. by apply mapM_Some.
Qed.

(** What a run of [keep_better] over a list leaves behind: either nothing
    beat the initial score, or the first candidate of maximal score was
    kept. *)
Lemma keep_better_fold {R} (eval : A → option (R * Q)) xs b0 t0 b t :
  foldl (keep_better eval) (b0, t0) xs = (b, t) →
  (b = b0 ∧ t = t0
   ∧ ∀ x r s, x ∈ xs → eval x = Some (r, s) → (s <= t0)%Q)
  ∨ (∃ i x r, xs !! i = Some x
      ∧ eval x = Some (r, t)
      ∧ b = Some r
      ∧ (t0 < t)%Q
      ∧ (∀ y r' s, y ∈ xs → eval y = Some (r', s) → (s <= t)%Q)
      ∧ (∀ j y r' s, (j < i)%nat → xs !! j = Some y →
           eval y = Some (r', s) → (s < t)%Q)).
Proof.
  revert b t. induction xs as [|x xs IH] using rev_ind; intros b t.
  { simpl. intros [= <- <-]. left. split_and!; [done..|].
    by intros ??? ?%elem_of_nil. }
  rewrite foldl_snoc.
  destruct (foldl (keep_better eval) (b0, t0) xs) as [b1 t1].
  specialize (IH _ _ eq_refl). unfold keep_better. simpl.
  assert (Hsnoc : ∀ (P : A → Prop),
    (∀ y, y ∈ xs → P y) → P x → ∀ y, y ∈ xs ++ [x] → P y).
  { intros P HP Hp y [?| ->%list_elem_of_singleton]%elem_of_app; auto. }
  destruct (eval x) as [[r s]|] eqn:Hs;
    [destruct (Qlt_le_dec t1 s) as [Hlt1|Hge1]|]; simpl; intros [= <- <-].
  - (* the candidate beats the best so far *)
    right. exists (length xs), x, r. rewrite lookup_snoc_Some.
    assert (Hprev : ∀ y r' s', y ∈ xs → eval y = Some (r', s') → (s' <= t1)%Q).
    { destruct IH as [(-> & -> & Hle)|(i & y & r' & _ & _ & _ & Hlt & Hmax & _)];
        eauto. }
    assert (t0 <= t1)%Q.
    { destruct IH as [(-> & -> & Hle)|(i & y & r' & _ & _ & _ & Hlt & _ & _)]; lra. }
    split_and!; [by right|done|done|lra| |].
    + intros y r' s' Hin. revert r' s'. pattern y. revert y Hin. apply Hsnoc.
      * intros y Hin r' s' Hs'. specialize (Hprev _ _ _ Hin Hs'). lra.
      * intros r' s' Hs'. rewrite Hs in Hs'. injection Hs' as <- <-. lra.
    + intros j y r' s' Hj [[_ Hjy]|[-> _]]%lookup_snoc_Some Hs'; [|lia].
      apply list_elem_of_lookup_2 in Hjy. specialize (Hprev _ _ _ Hjy Hs'). lra.
  - (* the candidate evaluates but does not beat the best so far *)
    destruct IH as [(-> & -> & Hle)|(i & y & r' & Hi & Hy & Hb & Hlt & Hmax & Hfirst)].
    + left. split_and!; [done..|].
      intros y r' s' Hin. revert r' s'. pattern y. revert y Hin.
      apply Hsnoc; [eauto|].
      intros r' s' Hs'. rewrite Hs in Hs'. by injection Hs' as <- <-.
    + right. exists i, y, r'. rewrite lookup_snoc_Some.
      split_and!; [left; split; [by eapply lookup_lt_Some|done]|done..| |].
      * intros z r'' s' Hin. revert r'' s'. pattern z. revert z Hin.
        apply Hsnoc; [eauto|].
        intros r'' s' Hs'. rewrite Hs in Hs'. by injection Hs' as <- <-.
      * intros j z r'' s' Hj [[_ Hjz]|[-> _]]%lookup_snoc_Some Hs'; [eauto|].
        apply lookup_lt_Some in Hi. lia.
  - (* the candidate does not evaluate *)
    destruct IH as [(-> & -> & Hle)|(i & y & r' & Hi & Hy & Hb & Hlt & Hmax & Hfirst)].
    + left. split_and!; [done..|].
      intros y r' s' Hin. revert r' s'. pattern y. revert y Hin.
      apply Hsnoc; [eauto|]. congruence.
    + right. exists i, y, r'. rewrite lookup_snoc_Some.
      split_and!; [left; split; [by eapply lookup_lt_Some|done]|done..| |].
      * intros z r'' s' Hin. revert r'' s'. pattern z. revert z Hin.
        apply Hsnoc; [eauto|]. congruence.
      * intros j z r'' s' Hj [[_ Hjz]|[-> _]]%lookup_snoc_Some Hs'; [eauto|].
        apply lookup_lt_Some in Hi. lia.
Qed.

Lemma foldl_ext_step {B} (f g : B → A → B) (b : B) l :
  (∀ b x, f b x = g b x) → foldl f b l = foldl g b l.
Proof.
  intros Hfg. revert b. induction l as [|x l IH]; intros b; simpl; [done|].
  by rewrite Hfg, IH.
Qed.

Context (key : A → Q).

Lemma insert_desc_perm x l : insert_desc key x l ≡ₚ x :: l.
Proof.
  induction l as [|y l IH]; simpl; [done|].
  destruct (Qlt_le_dec _ _); [|done].
  rewrite IH. apply Permutation_swap.
Qed.

Lemma sort_desc_perm l : sort_desc key l ≡ₚ l.
Proof.
  induction l as [|x l IH]; simpl; [done|].
  by rewrite insert_desc_perm, IH.
Qed.
Lemma insert_asc_perm x l : insert_asc key x l ≡ₚ x :: l.
Proof.
  induction l as [|y l IH]; simpl; [done|].
  destruct (Qlt_le_dec _ _); [|done].
  rewrite IH. apply Permutation_swap.
Qed.

Lemma sort_asc_perm l : sort_asc key l ≡ₚ l.
Proof.
  induction l as [|x l IH]; simpl; [done|].
  by rewrite insert_asc_perm, IH.
Qed.

(** The allocation keeps every pair, once. *)
Lemma home_first_perm (can_play_home : A → bool) l :
  home_first can_play_home key l ≡ₚ l.
Proof.
  unfold home_first.
  rewrite (Permutation_app_comm (sort_desc key (filter (λ p, can_play_home p ≠ true) l))).
  rewrite (assoc (++)), take_drop, !sort_desc_perm.
  apply filter_app_complement.
Qed.

(** With four or more home-eligible pairs, the four leading positions hold
    home-eligible pairs only. *)
Lemma home_first_leading_eligible (can_play_home : A → bool) l i p :
  (4 ≤ length (filter (λ p, can_play_home p = true) l))%nat →
  (i < 4)%nat → home_first can_play_home key l !! i = Some p →
  can_play_home p = true.
Proof.
  intros Hlen Hi Hp. unfold home_first in Hp.
  assert (Hsorted : length (sort_desc key (filter (λ p, can_play_home p = true) l))
                    = length (filter (λ p, can_play_home p = true) l))
    by apply Permutation_length, sort_desc_perm.
  rewrite lookup_app_l in Hp by (rewrite length_take; lia).
  rewrite lookup_take_lt in Hp by done.
  apply list_elem_of_lookup_2 in Hp. rewrite sort_desc_perm in Hp.
  by apply list_elem_of_filter in Hp as [? _].
Qed.

(** With fewer, the first away-only pair, if there is one, stands within
    the four leading positions. *)
Lemma home_first_leading_ineligible (can_play_home : A → bool) l :
  let home := filter (λ p, can_play_home p = true) l in
  let away := filter (λ p, can_play_home p ≠ true) l in
  (length home < 4)%nat → away ≠ [] →
  ∃ p, home_first can_play_home key l !! length home = Some p
       ∧ can_play_home p = false.
Proof.
  intros home away Hlen Haway. unfold home_first. fold home away.
  assert (Hsorted : length (sort_desc key home) = length home)
    by apply Permutation_length, sort_desc_perm.
  rewrite take_ge by lia. rewrite lookup_app_r by lia.
  rewrite Hsorted, Nat.sub_diag.
  destruct (sort_desc key away) as [|p rest] eqn:Hsort.
  { apply (f_equal length) in Hsort.
    rewrite (Permutation_length (sort_desc_perm away)) in Hsort.
    by destruct away. }
  exists p. split; [done|].
  assert (Hp : p ∈ away) by (rewrite <-(sort_desc_perm away), Hsort; set_solver).
  apply list_elem_of_filter in Hp as [Hp _]. by destruct (can_play_home p).
Qed.

End ListFacts.

(** ** generate_pairings.py *)
Module V1_facts.
Import V1.

Lemma find_player_Some df name r :
  find_player df name = Some r → Player_Name r = name ∧ r ∈ df.
Proof.
  unfold find_player. intros Hhd.
  apply head_Some_elem_of, list_elem_of_filter in Hhd. tauto.
Qed.

Lemma find_player_is_Some df name :
  name ∈ Player_Name <$> df → is_Some (find_player df name).
Proof.
  intros (r & -> & Hin)%list_elem_of_fmap. unfold find_player.
  destruct (filter _ df) as [|r' rs] eqn:Hf; [|by eexists].
  by apply (filter_nil_not_elem_of _ _ r) in Hf.
Qed.

Section Facts.
Variable ch_lookup : gmap string Z.
Variable score_lookup : gmap string Q.
Variable top_anchors top_gunners : list PlayerRow.

Abbreviation is_valid_pairing := (is_valid_pairing ch_lookup).
Abbreviation get_ch_diff := (get_ch_diff ch_lookup).
Abbreviation score_pairs := (score_pairs ch_lookup score_lookup).
Abbreviation search_step := (search_step ch_lookup score_lookup).
Abbreviation permutation_search := (permutation_search ch_lookup score_lookup).
Abbreviation optimize := (optimize ch_lookup score_lookup).

(** *** The permutation search *)

Lemma score_pairs_valid t ps s :
  score_pairs t ps = Some s →
  Forall (λ p, is_valid_pairing p.1 p.2 = true) ps.
Proof.
  revert t. induction ps as [|[a g] ps IH]; intros t; simpl; [by constructor|].
  destruct (is_valid_pairing a g) eqn:Hv; [|done].
  intros Hs. constructor; [done|]. by eapply IH.
Qed.

Lemma search_step_keep_better ras best perm :
  search_step ras best perm
  = keep_better (λ perm, (λ s, (zip ras perm, s)) <$> score_pairs 0 (zip ras perm))
                best perm.
Proof.
  unfold V1.search_step, keep_better.
  by destruct (score_pairs 0 (zip ras perm)).
Qed.

(** What a run of the loop over a list of tuples leaves in
    [(best_assignment, best_total_score)]. *)
Lemma search_fold ras ps b0 t0 b t :
  foldl (search_step ras) (b0, t0) ps = (b, t) →
  (b = b0 ∧ t = t0
   ∧ ∀ p s, p ∈ ps → score_pairs 0 (zip ras p) = Some s → (s <= t0)%Q)
  ∨ (∃ i p, ps !! i = Some p
      ∧ score_pairs 0 (zip ras p) = Some t
      ∧ b = Some (zip ras p)
      ∧ (t0 < t)%Q
      ∧ (∀ q s, q ∈ ps → score_pairs 0 (zip ras q) = Some s → (s <= t)%Q)
      ∧ (∀ j q s, (j < i)%nat → ps !! j = Some q →
           score_pairs 0 (zip ras q) = Some s → (s < t)%Q)).
Proof.
  rewrite (foldl_ext_step _ _ _ _ (search_step_keep_better ras)).
  intros [(-> & -> & Hle)|(i & p & r & Hi & Hp & -> & Hlt & Hmax & Hfirst)]
    %keep_better_fold.
  - left. split_and!; [done..|]. intros p s Hin Hs.
    apply (Hle p (zip ras p) s Hin). by rewrite Hs.
  - right. exists i, p.
    destruct (score_pairs 0 (zip ras p)) as [s|] eqn:Hs; [|done].
    injection Hp as <- <-. split_and!; [done..| |].
    + intros q s' Hin Hs'. apply (Hmax q (zip ras q) s' Hin). by rewrite Hs'.
    + intros j q s' Hj Hjq Hs'. apply (Hfirst j q (zip ras q) s' Hj Hjq).
      by rewrite Hs'.
Qed.

Lemma permutation_search_spec ras rgs b t :
  permutation_search ras rgs = (b, t) →
  (b = None ∧ t = (-1)%Q
   ∧ ∀ p s, p ∈ permutations rgs →
       score_pairs 0 (zip ras p) = Some s → (s <= -1)%Q)
  ∨ (∃ i p, permutations rgs !! i = Some p
      ∧ score_pairs 0 (zip ras p) = Some t
      ∧ b = Some (zip ras p)
      ∧ (-1 < t)%Q
      ∧ (∀ q s, q ∈ permutations rgs →
           score_pairs 0 (zip ras q) = Some s → (s <= t)%Q)
      ∧ (∀ j q s, (j < i)%nat → permutations rgs !! j = Some q →
           score_pairs 0 (zip ras q) = Some s → (s < t)%Q)).
Proof. apply search_fold. Qed.

Lemma permutation_search_Some ras rgs asg :
  (permutation_search ras rgs).1 = Some asg →
  ∃ p, p ≡ₚ rgs ∧ asg = zip ras p
       ∧ Forall (λ ag, is_valid_pairing ag.1 ag.2 = true) asg.
Proof.
  destruct (permutation_search ras rgs) as [b t] eqn:Hsearch. simpl. intros ->.
  apply permutation_search_spec in Hsearch
    as [(? & _)|(i & p & Hi & Hs & [= ->] & _)]; [done|].
  exists p. split_and!; [|done|by eapply score_pairs_valid].
  by eapply permutations_perm, list_elem_of_lookup_2.
Qed.

(** The fallback is entered exactly when no tuple is both free of rejected
    pairs and worth more than the initial [-1]. *)
Lemma optimize_fallback_iff ras rgs :
  (optimize ras rgs).1 = Fallback ↔
  ∀ p s, p ∈ permutations rgs →
    score_pairs 0 (zip ras p) = Some s → (s <= -1)%Q.
Proof.
  unfold optimize. destruct (permutation_search ras rgs) as [b t] eqn:Hsearch.
  apply permutation_search_spec in Hsearch
    as [(-> & _ & Hle)|(i & p & Hi & Hs & -> & Hlt & _)]; simpl.
  - done.
  - split; [done|]. intros Hle. apply list_elem_of_lookup_2 in Hi.
    specialize (Hle _ _ Hi Hs). lra.
Qed.

(** *** The greedy fallback *)

Lemma first_free_Some anchor used rgs gunner :
  first_free anchor used rgs = Some gunner →
  gunner ∈ rgs ∧ (gunner ∉ used)
  ∧ (gunner ∉ default [] (EXCLUSIONS !! anchor)).
Proof.
  unfold first_free. intros Hhd.
  apply head_Some_elem_of, list_elem_of_filter in Hhd. tauto.
Qed.

Lemma greedy_assignment_spec used ras rgs :
  let asg := greedy_assignment used ras rgs in
  asg.*1 `sublist_of` ras ∧ NoDup asg.*2
  ∧ ∀ a g, (a, g) ∈ asg →
      g ∈ rgs ∧ (g ∉ used) ∧ (g ∉ default [] (EXCLUSIONS !! a)).
Proof.
  revert used. induction ras as [|a ras IH]; intros used; simpl.
  { split_and!; [done|constructor|]. by intros ?? ?%elem_of_nil. }
  destruct (first_free a used rgs) as [g|] eqn:Hfree.
  - apply first_free_Some in Hfree as (Hin & Hused & Hexcl).
    destruct (IH ({[g]} ∪ used)) as (Hsub & Hnd & Hall). simpl.
    split_and!; [by apply sublist_skip| |].
    + apply NoDup_cons. split; [|done].
      intros ([a' g'] & -> & Hin')%list_elem_of_fmap.
      apply Hall in Hin'. set_solver.
    + intros a' g' [[= -> ->]|Hin']%elem_of_cons; [done|].
      apply Hall in Hin'. set_solver.
  - destruct (IH used) as (Hsub & Hnd & Hall).
    split_and!; [by apply sublist_cons|done..].
Qed.

(** *** Steps 1 and 2 *)

Abbreviation find_anchor := (find_anchor top_anchors top_gunners).
Abbreviation find_gunner := (find_gunner top_anchors top_gunners).
Abbreviation fixed_inv := (fixed_inv top_anchors top_gunners).
Abbreviation required_step := (required_step top_anchors top_gunners).
Abbreviation either_or_step := (either_or_step top_anchors top_gunners).
Abbreviation try_options := (try_options top_anchors top_gunners).
Abbreviation apply_constraints := (apply_constraints top_anchors top_gunners).

Lemma find_anchor_Some name r : find_anchor name = Some r → Player_Name r = name.
Proof.
  unfold V1.find_anchor. destruct (find_player top_anchors name) eqn:Hf.
  - intros [= <-]. by apply find_player_Some in Hf as [? _].
  - by intros [? _]%find_player_Some.
Qed.

Lemma find_gunner_Some name r : find_gunner name = Some r → Player_Name r = name.
Proof.
  unfold V1.find_gunner. destruct (find_player top_gunners name) eqn:Hf.
  - intros [= <-]. by apply find_player_Some in Hf as [? _].
  - by intros [? _]%find_player_Some.
Qed.

Lemma fixed_inv_mono st (seen seen' : gset string) :
  seen ⊆ seen' → fixed_inv st seen → fixed_inv st seen'.
Proof.
  intros Hsub (Hnd & Hin & Hfound). split_and!; [done| |done].
  intros n Hn. destruct (Hin n Hn). set_solver.
Qed.

Lemma fix_pair_inv st (seen : gset string) n1 n2 a g tag :
  fixed_inv st seen →
  find_anchor n1 = Some a → find_gunner n2 = Some g →
  n1 ∉ seen → n2 ∉ seen → n1 ≠ n2 → tag ≠ "AUTO" →
  fixed_inv (fix_pair st a g tag) ({[n1; n2]} ∪ seen).
Proof.
  intros (Hnd & Hin & Hfound) Ha Hg Hn1 Hn2 Hne Htag.
  pose proof (find_anchor_Some _ _ Ha) as Hna.
  pose proof (find_gunner_Some _ _ Hg) as Hng.
  unfold V1.fixed_inv, fix_pair. simpl.
  rewrite fmap_app, pair_names_app, Hna, Hng. simpl.
  split_and!.
  - apply NoDup_app. split_and!; [done| |].
    + intros n Hn. destruct (Hin n Hn). set_solver.
    + apply NoDup_cons. split; [set_solver|]. apply NoDup_singleton.
  - intros n [Hn|Hn]%elem_of_app.
    + destruct (Hin n Hn). set_solver.
    + set_solver.
  - apply Forall_app. split; [done|]. apply Forall_singleton. simpl.
    by rewrite Ha, Hg.
Qed.

Lemma required_fold_inv required st (seen : gset string) :
  fixed_inv st seen →
  NoDup (pair_names required) →
  (∀ n, n ∈ pair_names required → n ∉ seen) →
  fixed_inv (foldl required_step st required)
            (list_to_set (pair_names required) ∪ seen).
Proof.
  revert st seen. induction required as [|[n1 n2] required IH];
    intros st seen Hinv Hnd Hfresh; simpl.
  { eapply fixed_inv_mono; [|done]. set_solver. }
  simpl in Hnd. apply NoDup_cons in Hnd as [Hn1 [Hn2 Hnd]%NoDup_cons].
  assert (Hstep : fixed_inv (required_step st (n1, n2)) ({[n1; n2]} ∪ seen)).
  { unfold V1.required_step. simpl.
    destruct (find_anchor n1) as [a|] eqn:Ha;
      [destruct (find_gunner n2) as [g|] eqn:Hg|].
    - apply fix_pair_inv; [done..| | | |done]; [set_solver..].
    - eapply fixed_inv_mono; [|done]. set_solver.
    - eapply fixed_inv_mono; [|done]. set_solver. }
  eapply fixed_inv_mono; [|apply (IH _ _ Hstep Hnd)].
  - set_solver.
  - intros n Hn. specialize (Hfresh n). set_solver.
Qed.

Lemma try_options_inv options st (seen : gset string) n2 g :
  fixed_inv st seen → find_gunner n2 = Some g →
  n2 ∉ seen → n2 ∉ options → (∀ n, n ∈ options → n ∉ seen) →
  fixed_inv (try_options st g options)
            (list_to_set (options ++ [n2]) ∪ seen).
Proof.
  intros Hinv Hg Hn2. induction options as [|n1 options IH];
    intros Hnotin Hfresh; simpl.
  { eapply fixed_inv_mono; [|done]. set_solver. }
  assert (Hrest : fixed_inv (try_options st g options)
                    (list_to_set ((n1 :: options) ++ [n2]) ∪ seen)).
  { eapply fixed_inv_mono; [|apply IH]; set_solver. }
  destruct (find_anchor n1) as [a|] eqn:Ha; [|done].
  case_bool_decide; [|done].
  eapply fixed_inv_mono; [|apply (fix_pair_inv st seen n1 n2); try done].
  all: set_solver.
Qed.

Lemma either_or_fold_inv either_or st (seen : gset string) :
  fixed_inv st seen →
  NoDup (either_or ≫= λ eo, eo.1 ++ [eo.2]) →
  (∀ n, n ∈ (either_or ≫= λ eo, eo.1 ++ [eo.2]) → n ∉ seen) →
  fixed_inv (foldl either_or_step st either_or)
            (list_to_set (either_or ≫= λ eo, eo.1 ++ [eo.2]) ∪ seen).
Proof.
  revert st seen. induction either_or as [|[options n2] either_or IH];
    intros st seen Hinv Hnd Hfresh; cbn [foldl].
  { eapply fixed_inv_mono; [|done]. set_solver. }
  rewrite bind_cons in Hnd, Hfresh. cbn [fst snd] in Hnd, Hfresh.
  apply NoDup_app in Hnd as (Hnd1 & Hdis & Hnd).
  apply NoDup_app in Hnd1 as (_ & Hdis1 & _).
  assert (Hstep : fixed_inv (either_or_step st (options, n2))
                    (list_to_set (options ++ [n2]) ∪ seen)).
  { unfold V1.either_or_step. simpl.
    destruct (find_gunner n2) as [g|] eqn:Hg;
      [case_bool_decide|]; try (eapply fixed_inv_mono; [|done]; set_solver).
    apply try_options_inv; [done..| | |].
    - apply Hfresh. set_solver.
    - intros Hin. apply (Hdis1 _ Hin). set_solver.
    - intros n Hn. apply Hfresh. set_solver. }
  eapply fixed_inv_mono; [|apply (IH _ _ Hstep Hnd)].
  - rewrite bind_cons. cbn [fst snd]. set_solver.
  - intros n Hn. specialize (Hfresh n). specialize (Hdis n). set_solver.
Qed.

Lemma apply_constraints_inv required either_or :
  NoDup (constraint_names required either_or) →
  fixed_inv (apply_constraints required either_or)
            (list_to_set (constraint_names required either_or)).
Proof.
  unfold constraint_names. intros (Hreq & Hdis & Heo)%NoDup_app.
  unfold V1.apply_constraints.
  assert (H0 : fixed_inv no_fixed ∅).
  { split_and!; [constructor| |constructor]. by intros ? ?%elem_of_nil. }
  pose proof (required_fold_inv required _ _ H0 Hreq) as H1.
  pose proof (either_or_fold_inv either_or _ _ (H1 ltac:(set_solver)) Heo) as H2.
  eapply fixed_inv_mono; [|apply H2].
  - rewrite list_to_set_app_L. set_solver.
  - intros n Hn. specialize (Hdis n). set_solver.
Qed.

(** *** Step 3 and the output *)

Lemma elem_of_remaining st pool n :
  n ∈ remaining st pool ↔
  n ∈ Player_Name <$> pool ∧ n ∉ used_anchors st ∪ used_gunners st.
Proof. unfold remaining. rewrite list_elem_of_filter. tauto. Qed.

Lemma remaining_NoDup st :
  NoDup (Player_Name <$> top_anchors ++ top_gunners) →
  NoDup (remaining st top_anchors ++ remaining st top_gunners).
Proof.
  intros Hnd. unfold remaining. rewrite <-filter_app, <-fmap_app.
  by apply NoDup_filter.
Qed.

Lemma optimize_spec ras rgs :
  let asg := (optimize ras rgs).2 in
  asg.*1 `sublist_of` ras
  ∧ (∀ g, g ∈ asg.*2 → g ∈ rgs)
  ∧ (NoDup rgs → NoDup asg.*2).
Proof.
  unfold V1.optimize.
  destruct (permutation_search ras rgs).1 as [asg|] eqn:Hsearch; simpl.
  - apply permutation_search_Some in Hsearch as (p & Hp & -> & _).
    split_and!.
    + apply zip_fst_sublist.
    + intros g Hg. rewrite <-Hp. eapply elem_of_sublist; [done|].
      apply zip_snd_sublist.
    + intros Hnd. eapply sublist_NoDup; [|apply zip_snd_sublist].
      by rewrite Hp.
  - destruct (greedy_assignment_spec ∅ ras rgs) as (Hsub & Hnd & Hall).
    split_and!; [done| |by intros].
    intros g ([a g'] & -> & Hin)%list_elem_of_fmap.
    by destruct (Hall _ _ Hin).
Qed.

Abbreviation pairings_with := (pairings_with ch_lookup score_lookup top_anchors top_gunners).
Abbreviation generate_pairings :=
  (generate_pairings ch_lookup score_lookup top_anchors top_gunners).

(** The record lookups of lines 288-303 never miss, so the run always
    delivers its pairings: the fixed pairs, then the assignment of step 3,
    sorted by pair score. *)
Lemma pairings_with_total required either_or :
  NoDup (constraint_names required either_or) →
  let st := apply_constraints required either_or in
  let best := optimize (remaining st top_anchors) (remaining st top_gunners) in
  ∃ fixed auto,
    pairings_with required either_or
      = Some (best.1, sort_desc Pair_Combined_Score (fixed ++ auto))
    ∧ Forall2 (λ fp r, Anchor r = fp.1.1 ∧ Gunner r = fp.1.2
                       ∧ CH_Diff r = get_ch_diff fp.1.1 fp.1.2
                       ∧ Constraint r = fp.2 ∧ fp.2 ≠ "AUTO")
              (fixed_pairs st) fixed
    ∧ Forall2 (λ ag r, Anchor r = ag.1 ∧ Gunner r = ag.2
                       ∧ CH_Diff r = get_ch_diff ag.1 ag.2
                       ∧ Constraint r = "AUTO")
              best.2 auto.
Proof.
  intros Hnd st best.
  destruct (apply_constraints_inv _ _ Hnd) as (_ & _ & Hfound).
  fold st in Hfound.
  destruct (mapM_total (fixed_record ch_lookup top_anchors top_gunners)
    (λ fp r, Anchor r = fp.1.1 ∧ Gunner r = fp.1.2
             ∧ CH_Diff r = get_ch_diff fp.1.1 fp.1.2
             ∧ Constraint r = fp.2 ∧ fp.2 ≠ "AUTO") (fixed_pairs st))
    as (fixed & Hfixed & Hfixed2).
  { eapply Forall_impl; [exact Hfound|].
    intros [[n1 n2] tag] ([a Ha] & [g Hg] & Htag). simpl in *.
    unfold fixed_record. simpl. rewrite Ha, Hg. simpl.
    eexists. split; [done|]. simpl.
    by rewrite (find_anchor_Some _ _ Ha), (find_gunner_Some _ _ Hg). }
  destruct (mapM_total (auto_record ch_lookup top_anchors top_gunners)
    (λ ag r, Anchor r = ag.1 ∧ Gunner r = ag.2
             ∧ CH_Diff r = get_ch_diff ag.1 ag.2
             ∧ Constraint r = "AUTO") best.2)
    as (auto & Hauto & Hauto2).
  { destruct (optimize_spec (remaining st top_anchors) (remaining st top_gunners))
      as (Hsub & Hin & _). fold best in Hsub, Hin.
    apply Forall_forall. intros [a g] Hag. simpl.
    assert (Ha : a ∈ Player_Name <$> top_anchors).
    { eapply elem_of_remaining, elem_of_sublist; [|exact Hsub].
      apply list_elem_of_fmap. by exists (a, g). }
    assert (Hg : g ∈ Player_Name <$> top_gunners).
    { eapply elem_of_remaining, Hin. apply list_elem_of_fmap. by exists (a, g). }
    apply find_player_is_Some in Ha as [ra Hra], Hg as [rg Hrg].
    unfold auto_record. simpl. rewrite Hra, Hrg. simpl.
    eexists. split; [done|]. simpl.
    apply find_player_Some in Hra as [-> _], Hrg as [-> _]. done. }
  exists fixed, auto. split; [|done].
  unfold V1.pairings_with. fold st. fold best. by rewrite Hfixed, Hauto.
Qed.

Lemma names_of_perm out out' : out ≡ₚ out' → names_of out ≡ₚ names_of out'.
Proof. unfold names_of, pair_names. by intros ->. Qed.

Lemma names_of_app out out' : names_of (out ++ out') = names_of out ++ names_of out'.
Proof. unfold names_of. by rewrite fmap_app, pair_names_app. Qed.

Lemma names_of_fixed (fps : list (string * string * string)) fixed :
  Forall2 (λ fp r, Anchor r = fp.1.1 ∧ Gunner r = fp.1.2
                   ∧ CH_Diff r = get_ch_diff fp.1.1 fp.1.2
                   ∧ Constraint r = fp.2 ∧ fp.2 ≠ "AUTO") fps fixed →
  names_of fixed = pair_names fps.*1.
Proof.
  unfold names_of. induction 1 as [|[[? ?] ?] r ?? (Ha & Hg & _) _ IH]; [done|].
  rewrite !fmap_cons. unfold pair_names in *. rewrite !bind_cons, IH.
  simpl in *. by rewrite Ha, Hg.
Qed.

Lemma names_of_auto (asg : list (string * string)) auto :
  Forall2 (λ ag r, Anchor r = ag.1 ∧ Gunner r = ag.2
                   ∧ CH_Diff r = get_ch_diff ag.1 ag.2
                   ∧ Constraint r = "AUTO") asg auto →
  names_of auto = pair_names asg.
Proof.
  unfold names_of. induction 1 as [|[? ?] r ?? (Ha & Hg & _) _ IH]; [done|].
  rewrite !fmap_cons. unfold pair_names in *. rewrite !bind_cons, IH.
  simpl in *. by rewrite Ha, Hg.
Qed.

(** No player is named twice by the output, whatever the pools, as long as
    the pools name nobody twice and no name occurs twice in the constraint
    tables. *)
Lemma pairings_with_unique required either_or :
  NoDup (constraint_names required either_or) →
  NoDup (Player_Name <$> top_anchors ++ top_gunners) →
  ∃ mode out, pairings_with required either_or = Some (mode, out)
              ∧ NoDup (names_of out).
Proof.
  intros Hcn Hpool.
  destruct (pairings_with_total _ _ Hcn) as (fixed & auto & Hrun & Hfixed & Hauto).
  eexists _, _. split; [exact Hrun|].
  set (st := apply_constraints required either_or) in *.
  set (ras := remaining st top_anchors) in *.
  set (rgs := remaining st top_gunners) in *.
  rewrite (names_of_perm _ _ (sort_desc_perm _ _)), names_of_app.
  rewrite (names_of_fixed _ _ Hfixed), (names_of_auto _ _ Hauto).
  destruct (apply_constraints_inv _ _ Hcn) as (Hndf & Hused & _). fold st in Hndf, Hused.
  destruct (optimize_spec ras rgs) as (Hsub & Hin & Hndg).
  pose proof (remaining_NoDup st Hpool) as Hrem. fold ras rgs in Hrem.
  apply NoDup_app in Hrem as (Hnda & Hdis & Hndr).
  apply NoDup_app. split_and!; [done| |].
  - intros n Hn [Ha|Hg]%elem_of_pair_names.
    + eapply elem_of_sublist in Ha; [|exact Hsub].
      apply elem_of_remaining in Ha as [_ Ha]. by destruct (Hused n Hn).
    + apply Hin, elem_of_remaining in Hg as [_ Hg]. by destruct (Hused n Hn).
  - apply pair_names_NoDup;
      [exact (sublist_NoDup _ _ Hnda Hsub)|by apply Hndg|].
    intros n Ha Hg. apply (Hdis n); [|by apply Hin].
    exact (elem_of_sublist _ _ _ Ha Hsub).
Qed.

Lemma constraint_names_NoDup :
  NoDup (constraint_names REQUIRED_PAIRINGS EITHER_OR_PAIRINGS).
Proof. by apply (bool_decide_unpack _); vm_compute. Qed.

(** Where an output record comes from. *)
Lemma generate_pairings_elem mode out r :
  generate_pairings = Some (mode, out) → r ∈ out →
  let st := apply_constraints REQUIRED_PAIRINGS EITHER_OR_PAIRINGS in
  let best := optimize (remaining st top_anchors) (remaining st top_gunners) in
  mode = best.1
  ∧ ((∃ fp, fp ∈ fixed_pairs st ∧ Anchor r = fp.1.1 ∧ Gunner r = fp.1.2
            ∧ Constraint r = fp.2 ∧ Constraint r ≠ "AUTO")
     ∨ (∃ ag, ag ∈ best.2 ∧ Anchor r = ag.1 ∧ Gunner r = ag.2
              ∧ CH_Diff r = get_ch_diff ag.1 ag.2 ∧ Constraint r = "AUTO")).
Proof.
  intros Hrun Hr st best.
  destruct (pairings_with_total _ _ constraint_names_NoDup)
    as (fixed & auto & Hrun' & Hfixed & Hauto).
  fold st best in Hrun', Hfixed, Hauto.
  unfold V1.generate_pairings in Hrun. rewrite Hrun' in Hrun.
  injection Hrun as <- <-. split; [done|].
  rewrite sort_desc_perm in Hr.
  apply elem_of_app in Hr as [Hr|Hr]; apply list_elem_of_lookup in Hr as [i Hi].
  - left. destruct (Forall2_lookup_r _ _ _ _ _ Hfixed Hi)
      as (fp & Hfp & Ha & Hg & _ & Hc & Htag).
    exists fp. split_and!; [by eapply list_elem_of_lookup_2|done..|congruence].
  - right. destruct (Forall2_lookup_r _ _ _ _ _ Hauto Hi)
      as (ag & Hag & Ha & Hg & Hd & Hc).
    exists ag. split_and!; [by eapply list_elem_of_lookup_2|done..].
Qed.

(** Both lookups treat the absent player as handicap 0. *)
Lemma get_ch_diff_unknown a g :
  ch_lookup !! a = None → ch_lookup !! g = None → get_ch_diff a g = 0%Z.
Proof. unfold V1.get_ch_diff. by intros -> ->. Qed.

Lemma is_valid_pairing_true a g :
  is_valid_pairing a g = true →
  (g ∉ default [] (EXCLUSIONS !! a))
  ∧ (ch_lookup ≠ ∅ → (MIN_CH_DIFF <= get_ch_diff a g)%Z).
Proof.
  unfold V1.is_valid_pairing. case_bool_decide; [done|].
  case_bool_decide as Hch.
  - destruct (Z.ltb_spec (get_ch_diff a g) MIN_CH_DIFF); [done|]. by intros _.
  - intros _. split; [done|]. intros Hne. by destruct Hch.
Qed.

(** A pair of the permutation search is never an excluded gunner under
    the anchor that excludes them, and is far enough apart in handicap
    when handicaps were loaded. *)
Lemma exact_pairs_valid ras rgs asg a g :
  optimize ras rgs = (Exact, asg) → (a, g) ∈ asg →
  (g ∉ default [] (EXCLUSIONS !! a))
  ∧ (ch_lookup ≠ ∅ → (MIN_CH_DIFF <= get_ch_diff a g)%Z).
Proof.
  unfold V1.optimize.
  destruct (permutation_search ras rgs).1 as [asg'|] eqn:Hsearch; [|done].
  intros [= <-] Hin.
  apply permutation_search_Some in Hsearch as (p & _ & _ & Hvalid).
  rewrite Forall_forall in Hvalid.
  by apply (is_valid_pairing_true a g (Hvalid _ Hin)).
Qed.

(** The first tuple enumerated is the list of remaining gunners in pool
    order; when it is admissible with a total above [-1], step 3 stays in
    exact mode, however long the list is. *)
Lemma optimize_exact_when_first_admissible ras rgs s :
  score_pairs 0 (zip ras rgs) = Some s → (-1 < s)%Q →
  (optimize ras rgs).1 = Exact.
Proof.
  intros Hs Hlt. destruct (optimize ras rgs).1 eqn:Hmode; [done|].
  rewrite optimize_fallback_iff in Hmode.
  assert (Hin : rgs ∈ permutations rgs)
    by apply head_Some_elem_of, permutations_head.
  specialize (Hmode _ _ Hin Hs). lra.
Qed.

Lemma generate_pairings_exact_when_first_admissible s :
  let st := apply_constraints REQUIRED_PAIRINGS EITHER_OR_PAIRINGS in
  score_pairs 0 (zip (remaining st top_anchors) (remaining st top_gunners)) = Some s →
  (-1 < s)%Q →
  ∃ out, generate_pairings = Some (Exact, out).
Proof.
  intros st Hs Hlt.
  destruct (pairings_with_total _ _ constraint_names_NoDup)
    as (fixed & auto & Hrun & _).
  fold st in Hrun. unfold V1.generate_pairings. rewrite Hrun.
  rewrite (optimize_exact_when_first_admissible _ _ _ Hs Hlt). by eexists.
Qed.


End Facts.

(** C10: with handicaps loaded, two players who are both absent from the
    handicap lookup get difference 0, the pair is rejected, the permutation
    search never returns it, and no AUTO record of an exact run names two
    such players. *)
Theorem C10_unknown_handicaps_never_paired
    (ch_lookup : gmap string Z) (score_lookup : gmap string Q)
    (top_anchors top_gunners : list PlayerRow) (a g : string) :
  ch_lookup ≠ ∅ → ch_lookup !! a = None → ch_lookup !! g = None →
  get_ch_diff ch_lookup a g = 0%Z
  ∧ is_valid_pairing ch_lookup a g = false
  ∧ (∀ ras rgs asg,
       (permutation_search ch_lookup score_lookup ras rgs).1 = Some asg →
       (a, g) ∉ asg)
  ∧ (∀ out r,
       generate_pairings ch_lookup score_lookup top_anchors top_gunners
         = Some (Exact, out) →
       r ∈ out → Constraint r = "AUTO" →
       ¬ (Anchor r = a ∧ Gunner r = g)).
Proof.
  intros Hch Ha Hg.
  assert (Hdiff : get_ch_diff ch_lookup a g = 0%Z) by by apply get_ch_diff_unknown.
  assert (Hrej : is_valid_pairing ch_lookup a g = false).
  { destruct (is_valid_pairing ch_lookup a g) eqn:Hv; [|done].
    apply is_valid_pairing_true in Hv as [_ Hv]. specialize (Hv Hch).
    rewrite Hdiff in Hv. by compute in Hv. }
  assert (Hsearch : ∀ ras rgs asg,
    (permutation_search ch_lookup score_lookup ras rgs).1 = Some asg → (a, g) ∉ asg).
  { intros ras rgs asg (p & _ & _ & Hvalid)%permutation_search_Some Hin.
    rewrite Forall_forall in Hvalid. specialize (Hvalid _ Hin). simpl in Hvalid.
    congruence. }
  split_and!; [done..|].
  intros out r Hrun Hr Hauto [Hra Hrg].
  destruct (generate_pairings_elem _ _ _ _ _ _ _ Hrun Hr)
    as (Hmode & [(fp & _ & _ & _ & _ & Hne)|(ag & Hag & Han & Hgn & _)]); [done|].
  unfold optimize in Hmode, Hag.
  destruct (permutation_search _ _ _ _).1 as [asg|] eqn:Hs; [|done].
  apply (Hsearch _ _ _ Hs). destruct ag as [a' g']. simpl in *. congruence.
Qed.

Lemma C10_witness :
  get_ch_diff tie_ch "Carl" "Dirk" = 0%Z
  ∧ is_valid_pairing tie_ch "Carl" "Dirk" = false
  ∧ (∀ ras rgs asg,
       (permutation_search tie_ch tie_scores ras rgs).1 = Some asg →
       ("Carl", "Dirk") ∉ asg)
  ∧ (∀ out r,
       generate_pairings tie_ch tie_scores tie_anchors tie_gunners
         = Some (Exact, out) →
       r ∈ out → Constraint r = "AUTO" →
       ¬ (Anchor r = "Carl" ∧ Gunner r = "Dirk")).
Proof.
  apply (C10_unknown_handicaps_never_paired tie_ch tie_scores
           tie_anchors tie_gunners "Carl" "Dirk").
  - by apply (bool_decide_unpack _); vm_compute.
  - reflexivity.
  - reflexivity.
Defined.

(** X1: whatever the mode of step 3, an AUTO record never puts a gunner
    under the anchor whose exclusion list names that gunner. *)
Lemma auto_respects_anchor_keyed_exclusions
    (ch_lookup : gmap string Z) (score_lookup : gmap string Q)
    (top_anchors top_gunners : list PlayerRow) mode out r :
  generate_pairings ch_lookup score_lookup top_anchors top_gunners = Some (mode, out) →
  r ∈ out → Constraint r = "AUTO" →
  Gunner r ∉ default [] (EXCLUSIONS !! Anchor r).
Proof.
  intros Hrun Hr Hauto.
  destruct (generate_pairings_elem _ _ _ _ _ _ _ Hrun Hr)
    as (Hmode & [(fp & _ & _ & _ & _ & Hne)|([a g] & Hag & -> & -> & _)]); [done|].
  simpl in *. unfold optimize in Hag.
  destruct (permutation_search _ _ _ _).1 as [asg|] eqn:Hs; simpl in Hag.
  - apply permutation_search_Some in Hs as (p & _ & _ & Hvalid).
    rewrite Forall_forall in Hvalid.
    by apply (is_valid_pairing_true _ a g (Hvalid _ Hag)).
  - by apply (greedy_assignment_spec ∅ _ _) in Hag as (_ & _ & ?).
Qed.

(** C4: the exclusion table is consulted under the anchor's name only.  With
    the excluded player in the gunner pool and a listed partner in the anchor
    pool, the run pairs the two. *)
Theorem C4_exclusion_missed_when_roles_swap :
  generate_pairings ∅ swapped_scores swapped_anchors swapped_gunners
    = Some (Exact, [ {| Anchor := "Gerdus Theron"; Gunner := "Jacques vd Berg";
                        CH_Diff := 0; Pair_Combined_Score := 6 + 5;
                        Constraint := "AUTO" |} ])
  ∧ "Gerdus Theron" ∈ default [] (EXCLUSIONS !! "Jacques vd Berg")
  ∧ is_valid_pairing ∅ "Gerdus Theron" "Jacques vd Berg" = true
  ∧ is_valid_pairing ∅ "Jacques vd Berg" "Gerdus Theron" = false.
Proof.
  split_and!; [by vm_compute| |by vm_compute..].
  apply (bool_decide_unpack _). by vm_compute.
Qed.

(** C5, as stated, fails: with handicaps loaded and the threshold at 2, this
    run returns a required pair and a fallback pair of handicap difference
    0. *)
Lemma C5_counterexample :
  level_ch ≠ ∅ ∧ (0 < MIN_CH_DIFF)%Z
  ∧ generate_pairings level_ch level_scores level_anchors level_gunners
    = Some (Fallback,
            [ {| Anchor := "Greg Park"; Gunner := "Hugo Lamprecht";
                 CH_Diff := 0; Pair_Combined_Score := 8 + 7;
                 Constraint := "REQUIRED" |};
              {| Anchor := "Anton"; Gunner := "Bernard";
                 CH_Diff := 0; Pair_Combined_Score := 6 + 5;
                 Constraint := "AUTO" |} ])
  ∧ ¬ (∀ mode out r,
         generate_pairings level_ch level_scores level_anchors level_gunners
           = Some (mode, out) →
         r ∈ out → (MIN_CH_DIFF <= CH_Diff r)%Z).
Proof.
  assert (Hrun : generate_pairings level_ch level_scores level_anchors level_gunners
    = Some (Fallback,
            [ {| Anchor := "Greg Park"; Gunner := "Hugo Lamprecht";
                 CH_Diff := 0; Pair_Combined_Score := 8 + 7;
                 Constraint := "REQUIRED" |};
              {| Anchor := "Anton"; Gunner := "Bernard";
                 CH_Diff := 0; Pair_Combined_Score := 6 + 5;
                 Constraint := "AUTO" |} ])) by by vm_compute.
  split_and!; [|done|done|].
  - by apply (bool_decide_unpack _); vm_compute.
  - intros Hall. specialize (Hall _ _ _ Hrun (list_elem_of_here _ _)).
    by compute in Hall.
Qed.

(** C5, amended: when handicaps were loaded, every pair taken from the
    permutation search differs by at least [MIN_CH_DIFF] strokes. *)
Theorem C5_exact_pairs_keep_min_spread
    (ch_lookup : gmap string Z) (score_lookup : gmap string Q)
    (top_anchors top_gunners : list PlayerRow) out r :
  ch_lookup ≠ ∅ →
  generate_pairings ch_lookup score_lookup top_anchors top_gunners = Some (Exact, out) →
  r ∈ out → Constraint r = "AUTO" →
  (MIN_CH_DIFF <= CH_Diff r)%Z
  ∧ CH_Diff r = get_ch_diff ch_lookup (Anchor r) (Gunner r).
Proof.
  intros Hch Hrun Hr Hauto.
  destruct (generate_pairings_elem _ _ _ _ _ _ _ Hrun Hr)
    as (Hmode & [(fp & _ & _ & _ & _ & Hne)|([a g] & Hag & -> & -> & -> & _)]);
    [done|]. simpl. split; [|done].
  destruct (optimize _ _ _ _) as [mode asg] eqn:Hopt. simpl in *. subst mode.
  by destruct (exact_pairs_valid _ _ _ _ _ _ _ Hopt Hag) as [_ Hdiff]; apply Hdiff.
Qed.

Lemma C5_exact_pairs_keep_min_spread_witness :
  let r := {| Anchor := "A2"; Gunner := "B2"; CH_Diff := 5;
              Pair_Combined_Score := 4 + 3; Constraint := "AUTO" |} in
  (MIN_CH_DIFF <= CH_Diff r)%Z
  ∧ CH_Diff r = get_ch_diff tie_ch (Anchor r) (Gunner r).
Proof.
  intros r.
  apply (C5_exact_pairs_keep_min_spread tie_ch tie_scores tie_anchors tie_gunners
           [ {| Anchor := "A1"; Gunner := "B1"; CH_Diff := 15;
                Pair_Combined_Score := 9 + 8; Constraint := "AUTO" |}; r ] r).
  - by apply (bool_decide_unpack _); vm_compute.
  - by vm_compute.
  - apply list_elem_of_further, list_elem_of_here.
  - reflexivity.
Defined.

(** C2, as stated, fails: with ten gunners left for step 3 the run stays in
    exact mode, and the loop of lines 257-269 ranges over all [10!] tuples. *)
Lemma C2_counterexample :
  let st := apply_constraints wide_anchors wide_gunners
              REQUIRED_PAIRINGS EITHER_OR_PAIRINGS in
  let remaining_gunners := remaining st wide_gunners in
  length remaining_gunners = 10
  ∧ length (permutations remaining_gunners) = fact 10
  ∧ N.of_nat (fact 10) = 3628800%N
  ∧ ∃ out, generate_pairings ∅ wide_scores wide_anchors wide_gunners
             = Some (Exact, out).
Proof.
  intros st rgs.
  assert (Hrgs : rgs = ["G1"; "G2"; "G3"; "G4"; "G5"; "G6"; "G7"; "G8";
                        "Hugo Lamprecht"; "Ian Scott"]) by by vm_compute.
  assert (Hras : remaining st wide_anchors
                 = ["A1"; "A2"; "A3"; "A4"; "A5"; "A6"; "A7"; "A8"]) by by vm_compute.
  split_and!.
  - rewrite Hrgs. reflexivity.
  - rewrite permutations_count, Hrgs. reflexivity.
  - vm_compute. reflexivity.
  - apply (generate_pairings_exact_when_first_admissible
             ∅ wide_scores wide_anchors wide_gunners (9+9+8+8+7+7+6+6+5+5+4+4+3+3+2+2)%Q).
    + fold st rgs. rewrite Hras, Hrgs. by vm_compute.
    + by vm_compute.
Qed.

(** C2, amended: step 3 has no size guard.  For every input the loop ranges
    over all [k!] orderings of the [k] remaining gunners, and the greedy
    fallback is entered exactly when none of them is free of rejected pairs
    with a total above the initial [-1]. *)
Theorem C2_search_is_unguarded
    (ch_lookup : gmap string Z) (score_lookup : gmap string Q)
    (remaining_anchors remaining_gunners : list string) :
  permutation_search ch_lookup score_lookup remaining_anchors remaining_gunners
    = foldl (search_step ch_lookup score_lookup remaining_anchors) (None, (-1)%Q)
            (permutations remaining_gunners)
  ∧ length (permutations remaining_gunners) = fact (length remaining_gunners)
  ∧ ((optimize ch_lookup score_lookup remaining_anchors remaining_gunners).1 = Fallback
     ↔ ∀ p s, p ∈ permutations remaining_gunners →
         score_pairs ch_lookup score_lookup 0 (zip remaining_anchors p) = Some s →
         (s <= -1)%Q).
Proof.
  split_and!; [done|apply permutations_count|apply optimize_fallback_iff].
Qed.

(** C6, as stated, fails: both assignments of this run are admissible and
    worth 24, the one returned is the first enumerated, and the other one has
    the smaller total handicap spread. *)
Lemma C6_counterexample :
  let chosen := [("A1", "B1"); ("A2", "B2")] in
  let other := [("A1", "B2"); ("A2", "B1")] in
  (permutation_search tie_ch tie_scores ["A1"; "A2"] ["B1"; "B2"]).1 = Some chosen
  ∧ permutations ["B1"; "B2"] = [["B1"; "B2"]; ["B2"; "B1"]]
  ∧ other = zip ["A1"; "A2"] ["B2"; "B1"]
  ∧ score_pairs tie_ch tie_scores 0 chosen = Some 24%Q
  ∧ score_pairs tie_ch tie_scores 0 other = Some 24%Q
  ∧ total_spread tie_ch chosen = 20%Z
  ∧ total_spread tie_ch other = 10%Z.
Proof. by vm_compute. Qed.

(** The totals the search compares are the floats the loop adds up: in
    this run the two assignments are worth the same in exact arithmetic,
    the first one adds up to 37.3 and the second one to
    37.300000000000004, and the second one is returned. *)
Lemma rounding_decides_the_search :
  let first := [("A1", "B1"); ("A2", "B2")] in
  let second := [("A1", "B2"); ("A2", "B1")] in
  permutations ["B1"; "B2"] = [["B1"; "B2"]; ["B2"; "B1"]]
  ∧ score_pairs tie_ch rounding_scores 0 first
    = Some (2624754157826867 # 70368744177664)
  ∧ score_pairs tie_ch rounding_scores 0 second
    = Some (5249508315653735 # 140737488355328)
  ∧ (binary64 9.4 + binary64 9.4 + (binary64 9.3 + binary64 9.2)
     == binary64 9.4 + binary64 9.2 + (binary64 9.3 + binary64 9.4))%Q
  ∧ (permutation_search tie_ch rounding_scores ["A1"; "A2"] ["B1"; "B2"]).1
    = Some second.
Proof. by vm_compute. Qed.

(** C6, amended: the exact search keeps the first ordering, in the order of
    [itertools.permutations], among the admissible orderings of greatest
    total, the total being the float the loop adds up ([score_pairs]); that
    total exceeds [-1].  Every admissible ordering has a total that is not
    greater, every earlier one a total that is smaller. *)
Theorem C6_first_maximal_ordering_wins
    (ch_lookup : gmap string Z) (score_lookup : gmap string Q)
    (remaining_anchors remaining_gunners : list string) best_assignment :
  (permutation_search ch_lookup score_lookup remaining_anchors remaining_gunners).1
    = Some best_assignment →
  ∃ i perm total,
    permutations remaining_gunners !! i = Some perm
    ∧ best_assignment = zip remaining_anchors perm
    ∧ score_pairs ch_lookup score_lookup 0 best_assignment = Some total
    ∧ (-1 < total)%Q
    ∧ (∀ q s, q ∈ permutations remaining_gunners →
         score_pairs ch_lookup score_lookup 0 (zip remaining_anchors q) = Some s →
         (s <= total)%Q)
    ∧ (∀ j q s, (j < i)%nat → permutations remaining_gunners !! j = Some q →
         score_pairs ch_lookup score_lookup 0 (zip remaining_anchors q) = Some s →
         (s < total)%Q).
Proof.
  destruct (permutation_search _ _ _ _) as [b t] eqn:Hsearch. simpl. intros ->.
  apply permutation_search_spec in Hsearch
    as [(? & _)|(i & p & Hi & Hs & [= ->] & Hlt & Hmax & Hfirst)]; [done|].
  by exists i, p, t.
Qed.

Lemma C6_first_maximal_ordering_wins_witness :
  (permutation_search tie_ch rounding_scores ["A1"; "A2"] ["B1"; "B2"]).1
    = Some [("A1", "B2"); ("A2", "B1")]
  ∧ ∃ i perm total,
    permutations ["B1"; "B2"] !! i = Some perm
    ∧ [("A1", "B2"); ("A2", "B1")] = zip ["A1"; "A2"] perm
    ∧ score_pairs tie_ch rounding_scores 0 [("A1", "B2"); ("A2", "B1")] = Some total
    ∧ (-1 < total)%Q
    ∧ (∀ q s, q ∈ permutations ["B1"; "B2"] →
         score_pairs tie_ch rounding_scores 0 (zip ["A1"; "A2"] q) = Some s →
         (s <= total)%Q)
    ∧ (∀ j q s, (j < i)%nat → permutations ["B1"; "B2"] !! j = Some q →
         score_pairs tie_ch rounding_scores 0 (zip ["A1"; "A2"] q) = Some s →
         (s < total)%Q).
Proof.
  split; [vm_compute; reflexivity|].
  apply (C6_first_maximal_ordering_wins tie_ch rounding_scores
           ["A1"; "A2"] ["B1"; "B2"] [("A1", "B2"); ("A2", "B1")]).
  vm_compute. reflexivity.
Defined.

End V1_facts.

(** ** generate_pairings_v2.py *)
Module V2_facts.
Import V2.

Lemma scored_names_app l k : names_of (l ++ k) = names_of l ++ names_of k.
Proof. unfold names_of. by rewrite fmap_app, pair_names_app. Qed.

Lemma scored_names_perm l k : l ≡ₚ k → names_of l ≡ₚ names_of k.
Proof. unfold names_of, pair_names. by intros ->. Qed.

Lemma elem_of_names_of l n :
  n ∈ names_of l ↔ ∃ t, t ∈ l ∧ (n = name t.1.1 ∨ n = name t.1.2).
Proof.
  unfold names_of. rewrite elem_of_pair_names, <-!list_fmap_compose.
  rewrite !list_elem_of_fmap. naive_solver.
Qed.

(** *** The balance heuristic *)

Lemma selection_of_snoc available selected used p1 p2 score :
  selection_of available selected used →
  (p1, p2, score) ∈ available → free_of used (p1, p2, score) →
  name p1 ≠ name p2 →
  selection_of available (selected ++ [(p1, p2, score)])
    ({[name p2]} ∪ ({[name p1]} ∪ used)).
Proof.
  intros (Hnd & Hused & Hsub) Hin [Hf1 Hf2] Hne. simpl in *.
  unfold selection_of. rewrite scored_names_app. split_and!.
  - apply NoDup_app. split_and!; [done| |].
    + intros n Hn. specialize (Hused n Hn). unfold names_of. simpl. set_solver.
    + unfold names_of. simpl. apply NoDup_cons. split; [set_solver|].
      apply NoDup_singleton.
  - intros n [Hn|Hn]%elem_of_app.
    + specialize (Hused n Hn). set_solver.
    + unfold names_of in Hn. simpl in Hn. set_solver.
  - intros t [Ht| ->%list_elem_of_singleton]%elem_of_app; auto.
Qed.

Lemma picked_not_free used p1 p2 score :
  ¬ free_of ({[name p2]} ∪ ({[name p1]} ∪ used)) (p1, p2, score).
Proof. intros [Hf _]. simpl in Hf. set_solver. Qed.

(** The [while] loop of [greedy_balanced] ends within one turn per candidate
    pair, never indexes out of range, and selects pairwise disjoint pairs. *)
Lemma greedy_balanced_loop_spec available fuel pairs_needed selected used remaining :
  (length remaining ≤ fuel)%nat →
  ∃ sol, greedy_balanced_loop fuel pairs_needed selected used remaining = Some sol
    ∧ ((∀ t, t ∈ available → name t.1.1 ≠ name t.1.2) →
       (∀ t, t ∈ remaining → t ∈ available) →
       selection_of available selected used →
       ∃ used', selection_of available sol used').
Proof.
  revert selected used remaining.
  induction fuel as [|fuel IH]; intros selected used remaining Hfuel.
  { destruct remaining; [|simpl in Hfuel; lia]. exists selected. simpl.
    split; [by case_bool_decide|]. eauto. }
  cbn [greedy_balanced_loop]. case_bool_decide; [|by eauto].
  destruct remaining as [|r rest] eqn:Hrem; [by eauto|]. rewrite <-Hrem in *.
  destruct (filter (free_of used) remaining) as [|v valid] eqn:Hvalid; [by eauto|].
  rewrite <-Hvalid.
  set (idx := if (length selected mod 2 =? 0)%nat
              then (length (filter (free_of used) remaining) / 4)
                     `min` (length (filter (free_of used) remaining) - 1)
              else (length (filter (free_of used) remaining) / 2)%nat).
  assert (Hidx : (idx < length (filter (free_of used) remaining))%nat).
  { assert (0 < length (filter (free_of used) remaining))%nat
      by (rewrite Hvalid; simpl; lia).
    unfold idx. destruct (_ =? _)%nat; [lia|].
    apply Nat.div_lt; lia. }
  clearbody idx.
  destruct (filter (free_of used) remaining !! idx) as [[[p1 p2] score]|] eqn:Hpick;
    [|apply lookup_ge_None_1 in Hpick;
      destruct (Nat.lt_irrefl idx (Nat.lt_le_trans _ _ _ Hidx Hpick))].
  pose proof (list_elem_of_lookup_2 _ _ _ Hpick) as Hin.
  apply list_elem_of_filter in Hin as [Hfree Hin].
  set (used' := {[name p2]} ∪ ({[name p1]} ∪ used)).
  destruct (IH (selected ++ [(p1, p2, score)]) used'
              (filter (free_of used') remaining)) as (sol & Hsol & Hgood).
  { pose proof (length_filter_lt (free_of used') remaining _ Hin
                  (picked_not_free used p1 p2 score)) as Hlt.
    apply Nat.lt_succ_r. eapply Nat.lt_le_trans; [exact Hlt|exact Hfuel]. }
  exists sol. split; [done|]. intros Hdist Hsub Hsel. apply Hgood; [done| |].
  - intros t [_ Ht]%list_elem_of_filter. auto.
  - apply selection_of_snoc; [done|by apply Hsub|done|].
    apply (Hdist (p1, p2, score)). by apply Hsub.
Qed.

Lemma greedy_balanced_spec pairs_needed available :
  ∃ sol, greedy_balanced pairs_needed available = Some sol
    ∧ ((∀ t, t ∈ available → name t.1.1 ≠ name t.1.2) →
       ∃ used, selection_of available sol used).
Proof.
  destruct (greedy_balanced_loop_spec available (length available) pairs_needed
              [] ∅ available) as (sol & Hsol & Hgood); [done|].
  exists sol. split; [done|]. intros Hdist. apply Hgood; [done..|].
  split_and!; [constructor|by intros ? ?%elem_of_nil..].
Qed.

Lemma pure_greedy_loop_spec available pairs_needed selected used rest :
  (∀ t, t ∈ available → name t.1.1 ≠ name t.1.2) →
  (∀ t, t ∈ rest → t ∈ available) →
  selection_of available selected used →
  ∃ used', selection_of available (pure_greedy_loop pairs_needed selected used rest) used'.
Proof.
  intros Hdist. revert selected used.
  induction rest as [|[[p1 p2] score] rest IH]; intros selected used Hsub Hsel;
    simpl; [by eauto|].
  assert (Hrest : ∀ t, t ∈ rest → t ∈ available) by (intros; apply Hsub; set_solver).
  assert (Hin : (p1, p2, score) ∈ available) by (apply Hsub; set_solver).
  destruct (decide (free_of used (p1, p2, score))) as [Hfree|]; [|by apply IH].
  assert (selection_of available (selected ++ [(p1, p2, score)])
            ({[name p2]} ∪ ({[name p1]} ∪ used))).
  { apply selection_of_snoc; [done..|]. by apply (Hdist (p1, p2, score)). }
  case_bool_decide; [by eauto|]. by apply IH.
Qed.

Lemma pure_greedy_spec pairs_needed available :
  (∀ t, t ∈ available → name t.1.1 ≠ name t.1.2) →
  ∃ used, selection_of available (pure_greedy pairs_needed available) used.
Proof.
  intros Hdist. apply pure_greedy_loop_spec; [done..|].
  split_and!; [constructor|by intros ? ?%elem_of_nil..].
Qed.

(** *** Scoring a solution *)

Lemma foldl_Qmin_spec acc rest :
  let m := foldl Qmin acc rest in
  (m = acc ∨ m ∈ rest) ∧ (m <= acc)%Q ∧ ∀ s, s ∈ rest → (m <= s)%Q.
Proof.
  revert acc. induction rest as [|x rest IH]; intros acc; simpl.
  { split_and!; [by left|lra|by intros ? ?%elem_of_nil]. }
  destruct (IH (Qmin acc x)) as (Hin & Hle & Hall).
  pose proof (Q.le_min_l acc x). pose proof (Q.le_min_r acc x).
  split_and!.
  - destruct Hin as [->|Hin]; [|right; set_solver].
    unfold Qmin, GenericMinMax.gmin. destruct (acc ?= x)%Q; [by left..|right; set_solver].
  - lra.
  - intros s [->|Hs]%elem_of_cons; [lra|by apply Hall].
Qed.

(** [min_scores] is Python's [min]: an element of the list below all
    others. *)
Lemma min_scores_spec scores m :
  min_scores scores = Some m →
  m ∈ scores ∧ ∀ s, s ∈ scores → (m <= s)%Q.
Proof.
  destruct scores as [|s rest]; [done|]. simpl. intros [= <-].
  destruct (foldl_Qmin_spec s rest) as (Hin & Hle & Hall). split.
  - destruct Hin as [->|Hin]; set_solver.
  - intros x [->|Hx]%elem_of_cons; [done|by apply Hall].
Qed.

Lemma evaluate_short pairs_needed sol :
  (Z.of_nat (length sol) < pairs_needed)%Z →
  evaluate pairs_needed sol = Some (Infinity, (-1)%Q).
Proof. intros Hshort. unfold evaluate. by rewrite bool_decide_eq_true_2. Qed.

Lemma evaluate_complete pairs_needed sol :
  (0 < pairs_needed)%Z → (pairs_needed <= Z.of_nat (length sol))%Z →
  ∃ variance min_score,
    evaluate pairs_needed sol = Some (Finite variance, min_score)
    ∧ min_score ∈ sol.*2 ∧ ∀ s, s ∈ sol.*2 → (min_score <= s)%Q.
Proof.
  intros Hpos Hlen. unfold evaluate. rewrite bool_decide_eq_false_2 by lia.
  destruct (min_scores sol.*2) as [m|] eqn:Hmin.
  - simpl. eexists _, m. split; [done|]. by apply min_scores_spec.
  - destruct sol; [simpl in Hlen; lia|done].
Qed.

Lemma evaluate_total pairs_needed sol :
  (0 < pairs_needed)%Z → is_Some (evaluate pairs_needed sol).
Proof.
  intros Hpos. destruct (decide (Z.of_nat (length sol) < pairs_needed)%Z).
  - rewrite evaluate_short by done. by eexists.
  - destruct (evaluate_complete pairs_needed sol) as (? & ? & -> & _); [lia..|].
    by eexists.
Qed.

(** Lines 428-435, read off the definition: a margin of half a point on the
    minima decides first, the variance decides inside the margin, and the
    greedy solution wins what is left. *)
Lemma prefer_spec pairs_needed solution greedy_solution bal_var bal_min
    greedy_var greedy_min :
  evaluate pairs_needed solution = Some (bal_var, bal_min) →
  evaluate pairs_needed greedy_solution = Some (greedy_var, greedy_min) →
  ∃ chosen, prefer pairs_needed solution greedy_solution = Some chosen
    ∧ ((greedy_min + 0.5 < bal_min)%Q → chosen = solution)
    ∧ ((bal_min + 0.5 < greedy_min)%Q → chosen = greedy_solution)
    ∧ ((bal_min <= greedy_min + 0.5)%Q → (greedy_min <= bal_min + 0.5)%Q →
       chosen = if ext_lt bal_var greedy_var then solution else greedy_solution).
Proof.
  intros Hbal Hgreedy. unfold prefer. rewrite Hbal, Hgreedy. simpl.
  eexists. split; [done|].
  destruct (Qlt_le_dec (greedy_min + 0.5) bal_min);
    [|destruct (Qlt_le_dec (bal_min + 0.5) greedy_min)];
    split_and!; intros; try done; lra.
Qed.

Lemma find_balanced_pairings_spec pairs_needed available_pairs :
  (0 < pairs_needed)%Z →
  ∃ solution chosen,
    greedy_balanced pairs_needed available_pairs = Some solution
    ∧ find_balanced_pairings pairs_needed available_pairs = Some chosen
    ∧ (chosen = solution ∨ chosen = pure_greedy pairs_needed available_pairs).
Proof.
  intros Hpos.
  destruct (greedy_balanced_spec pairs_needed available_pairs) as (solution & Hsol & _).
  destruct (evaluate_total pairs_needed solution Hpos) as [[bv bm] Hbal].
  destruct (evaluate_total pairs_needed (pure_greedy pairs_needed available_pairs) Hpos)
    as [[gv gm] Hgreedy].
  destruct (prefer_spec _ _ _ _ _ _ _ Hbal Hgreedy) as (chosen & Hchosen & _).
  exists solution, chosen. unfold find_balanced_pairings. rewrite Hsol. simpl.
  split_and!; [done..|].
  unfold prefer in Hchosen. rewrite Hbal, Hgreedy in Hchosen. simpl in Hchosen.
  injection Hchosen as <-. repeat destruct (Qlt_le_dec _ _); try tauto.
  destruct (ext_lt bv gv); tauto.
Qed.

(** *** What the balance heuristic leaves over *)

(** A candidate pair shares a player with the pairs of [l]. *)
Abbreviation meets t l :=
  (name (t : Scored).1.1 ∈ names_of l ∨ name (t : Scored).1.2 ∈ names_of l).

Lemma not_free_of used t :
  ¬ free_of used t → name t.1.1 ∈ used ∨ name t.1.2 ∈ used.
Proof.
  unfold free_of. intros Hn.
  destruct (decide (name t.1.1 ∈ used)); [by left|].
  destruct (decide (name t.1.2 ∈ used)); [by right|]. by destruct Hn.
Qed.

Lemma names_of_snoc l p1 p2 score x :
  x ∈ names_of (l ++ [(p1, p2, score)]) ↔
  x ∈ names_of l ∨ x = name p1 ∨ x = name p2.
Proof.
  rewrite scored_names_app, elem_of_app. unfold names_of at 2, pair_names.
  simpl. set_solver.
Qed.

Lemma greedy_balanced_loop_maximal (available : list Scored) fuel pairs_needed
    selected used remaining sol :
  greedy_balanced_loop fuel pairs_needed selected used remaining = Some sol →
  (∀ t, t ∈ available → t ∈ remaining ∨ ¬ free_of used t) →
  (∀ x, x ∈ used → x ∈ names_of selected) →
  (Z.of_nat (length sol) < pairs_needed)%Z →
  ∀ t, t ∈ available → meets t sol.
Proof.
  revert selected used remaining.
  assert (Hexit : ∀ selected used (remaining : list Scored),
            (∀ t, t ∈ available → t ∈ remaining ∨ ¬ free_of used t) →
            (∀ x, x ∈ used → x ∈ names_of selected) →
            filter (free_of used) remaining = [] →
            ∀ t, t ∈ available → meets t selected).
  { intros selected used remaining Hrem Hused Hvalid t Ht.
    assert (¬ free_of used t) as Hnf.
    { destruct (Hrem t Ht) as [Hin|]; [|done].
      intros Hfree. exact (filter_nil_not_elem_of _ _ _ Hvalid Hfree Hin). }
    apply not_free_of in Hnf as [?|?]; [left|right]; by apply Hused. }
  induction fuel as [|fuel IH]; intros selected used remaining.
  { cbn [greedy_balanced_loop]. case_bool_decide.
    - destruct remaining; [|done]. intros [= <-] Hrem Hused _.
      by apply (Hexit selected used []).
    - intros [= <-] _ _ ?. lia. }
  cbn [greedy_balanced_loop]. case_bool_decide as Hlt;
    [|intros [= <-] _ _ ?; lia].
  destruct remaining as [|r rest] eqn:Hremeq.
  { intros [= <-] Hrem Hused _. by apply (Hexit selected used []). }
  rewrite <-Hremeq in *.
  destruct (filter (free_of used) remaining) as [|v valid] eqn:Hvalid.
  { intros [= <-] Hrem Hused _. by apply (Hexit selected used remaining). }
  rewrite <-Hvalid.
  destruct (filter (free_of used) remaining !! _) as [[[p1 p2] score]|] eqn:Hpick;
    [|done].
  intros Hloop Hrem Hused Hshort.
  apply (IH _ _ _ Hloop); [| |done].
  - intros t Ht.
    destruct (decide (free_of ({[name p2]} ∪ ({[name p1]} ∪ used)) t)) as [Hf|Hf];
      [|by right].
    left. apply list_elem_of_filter. split; [done|].
    destruct (Hrem t Ht) as [|Hnf]; [done|].
    destruct Hnf. destruct Hf as [H1 H2]. split; set_solver.
  - intros x Hx. apply names_of_snoc. set_solver.
Qed.

Lemma pure_greedy_loop_maximal pairs_needed selected used rest :
  (∀ x, x ∈ used → x ∈ names_of selected) →
  let sol := pure_greedy_loop pairs_needed selected used rest in
  (Z.of_nat (length sol) < pairs_needed)%Z →
  ∀ t, t ∈ rest ∨ meets t selected → meets t sol.
Proof.
  revert selected used.
  induction rest as [|[[p1 p2] score] rest IH]; intros selected used Hused; simpl.
  { intros _ t [Ht|Ht]; [by apply elem_of_nil in Ht|done]. }
  destruct (decide (free_of used (p1, p2, score))) as [Hfree|Hnf].
  - case_bool_decide as Hfull; [intros; lia|].
    intros Hshort t Ht.
    apply (IH (selected ++ [(p1, p2, score)]) ({[name p2]} ∪ ({[name p1]} ∪ used)));
      [|done|].
    { intros x Hx. apply names_of_snoc. set_solver. }
    destruct Ht as [[->|Ht]%elem_of_cons|[Ht|Ht]].
    + right. left. apply names_of_snoc. auto.
    + by left.
    + right. left. apply names_of_snoc. auto.
    + right. right. apply names_of_snoc. auto.
  - intros Hshort t Ht. apply (IH selected used Hused Hshort).
    destruct Ht as [[->|Ht]%elem_of_cons|Ht]; [|by left|by right].
    right. apply not_free_of in Hnf as [?|?]; [left|right]; by apply Hused.
Qed.

(** When the balance heuristic returns fewer pairs than asked for, every
    candidate pair shares a player with a returned pair. *)
Lemma find_balanced_pairings_maximal pairs_needed available_pairs chosen :
  (0 < pairs_needed)%Z →
  find_balanced_pairings pairs_needed available_pairs = Some chosen →
  (Z.of_nat (length chosen) < pairs_needed)%Z →
  ∀ t, t ∈ available_pairs → meets t chosen.
Proof.
  intros Hpos Hfind Hshort t Ht.
  destruct (find_balanced_pairings_spec pairs_needed available_pairs Hpos)
    as (solution & chosen' & Hsol & Hchosen & Hcase).
  rewrite Hfind in Hchosen. injection Hchosen as <-.
  destruct Hcase as [->| ->].
  - eapply (greedy_balanced_loop_maximal available_pairs); [exact Hsol| | |done..].
    + by left.
    + by intros x ?%elem_of_empty.
  - apply (pure_greedy_loop_maximal pairs_needed [] ∅ available_pairs);
      [by intros x ?%elem_of_empty|done|by left].
Qed.

Lemma combinations2_complete {A} (l : list A) x y :
  x ∈ l → y ∈ l → x ≠ y → (x, y) ∈ combinations2 l ∨ (y, x) ∈ combinations2 l.
Proof.
  induction l as [|z l IH]; intros Hx Hy Hne; [by apply elem_of_nil in Hx|].
  simpl. rewrite !elem_of_app.
  apply elem_of_cons in Hx as [->|Hx]; apply elem_of_cons in Hy as [->|Hy].
  - done.
  - left. left. by apply (list_elem_of_fmap_2 (pair z)).
  - right. left. by apply (list_elem_of_fmap_2 (pair z)).
  - destruct (IH Hx Hy Hne); [left|right]; by right.
Qed.

(** *** The constraint steps and the run *)

Lemma combinations2_spec {A B} (f : A → B) (l : list A) x y :
  (x, y) ∈ combinations2 l → x ∈ l ∧ y ∈ l ∧ (NoDup (f <$> l) → f x ≠ f y).
Proof.
  induction l as [|z l IH]; simpl; [by intros ?%elem_of_nil|].
  intros [Hin|Hin]%elem_of_app.
  - apply list_elem_of_fmap in Hin as (y' & [= -> ->] & Hy).
    split_and!; [set_solver..|].
    intros [Hz _]%NoDup_cons Heq. apply Hz. rewrite Heq.
    by apply list_elem_of_fmap_2.
  - destruct (IH Hin) as (Hx & Hy & Hne). split_and!; [set_solver..|].
    intros [_ Hnd]%NoDup_cons. by apply Hne.
Qed.

Section Facts.
Variable top_players : list Player.

Abbreviation find_player := (find_player top_players).
Abbreviation required_step := (required_step top_players).
Abbreviation matt_step := (matt_step top_players).
Abbreviation matt_constraint := (matt_constraint top_players).
Abbreviation apply_constraints := (apply_constraints top_players).
Abbreviation all_possible_pairs := (all_possible_pairs top_players).
Abbreviation generate_pairings := (generate_pairings top_players).
Abbreviation matt_eval := (matt_eval top_players).
Abbreviation chosen_inv := (chosen_inv top_players).

Lemma find_on_roster_Some name' p :
  find_player name' = Some p → name p = name' ∧ p ∈ top_players.
Proof.
  unfold V2.find_player. intros Hhd.
  apply head_Some_elem_of, list_elem_of_filter in Hhd. tauto.
Qed.

Lemma find_on_roster_None name' p :
  find_player name' = None → p ∈ top_players → name p ≠ name'.
Proof.
  unfold V2.find_player. intros Hhd Hin Hname.
  destruct (filter (λ p, name p = name') top_players) eqn:Hf; [|done].
  exact (filter_nil_not_elem_of _ _ _ Hf Hname Hin).
Qed.

Lemma matt_step_keep_better used best opt :
  matt_step used best opt = keep_better (matt_eval used) best opt.
Proof.
  unfold V2.matt_step, keep_better, V2.matt_eval. destruct opt as [name1 name2]. simpl.
  destruct (find_player name1), (find_player name2); try done.
  by destruct (_ && _).
Qed.

(** What the loop over the options leaves behind. *)
Lemma matt_fold_spec used options b t :
  foldl (matt_step used) (None, (-1)%Q) options = (b, t) →
  (b = None ∧ ∀ opt r s, opt ∈ options → matt_eval used opt = Some (r, s) → (s <= -1)%Q)
  ∨ (∃ i opt p1 p2,
       options !! i = Some opt
       ∧ b = Some (p1, p2, opt.1, opt.2)
       ∧ find_player opt.1 = Some p1 ∧ find_player opt.2 = Some p2
       ∧ (opt.1 ∉ used) ∧ (opt.2 ∉ used)
       ∧ t = calculate_pairing_score p1 p2 ∧ (-1 < t)%Q
       ∧ (∀ opt' r s, opt' ∈ options → matt_eval used opt' = Some (r, s) → (s <= t)%Q)
       ∧ (∀ j opt' r s, (j < i)%nat → options !! j = Some opt' →
            matt_eval used opt' = Some (r, s) → (s < t)%Q)).
Proof.
  rewrite (foldl_ext_step _ _ _ _ (matt_step_keep_better used)).
  intros [(-> & _ & Hle)|(i & opt & r & Hi & Hopt & -> & Hlt & Hmax & Hfirst)]
    %keep_better_fold.
  - left. split; [done|]. eauto.
  - right. unfold V2.matt_eval in Hopt.
    destruct (find_player opt.1) as [p1|] eqn:H1; [|done].
    destruct (find_player opt.2) as [p2|] eqn:H2; [|done].
    destruct (bool_decide (opt.1 ∉ used)) eqn:Hu1; [|done].
    destruct (bool_decide (opt.2 ∉ used)) eqn:Hu2; [|done].
    simpl in Hopt. injection Hopt as <- <-.
    apply bool_decide_eq_true_1 in Hu1, Hu2.
    exists i, opt, p1, p2. split_and!; done.
Qed.

Lemma chosen_inv_snoc st p1 p2 score w :
  chosen_inv st → name p1 ∉ used_players st → name p2 ∉ used_players st →
  name p1 ≠ name p2 → p1 ∈ top_players → p2 ∈ top_players →
  chosen_inv {| best_pairings := best_pairings st ++ [(p1, p2, score)];
                used_players := {[name p2]} ∪ ({[name p1]} ∪ used_players st);
                warnings := w |}.
Proof.
  intros (Hnd & Hused & Hin) Hp1 Hp2 Hne Hin1 Hin2.
  destruct (selection_of_snoc (best_pairings st ++ [(p1, p2, score)])
    (best_pairings st) (used_players st) p1 p2 score) as (Hnd' & Hused' & _);
    [split_and!; [done..|set_solver]|set_solver|done|done|].
  split_and!; [done..|]. simpl.
  intros t [Ht| ->%list_elem_of_singleton]%elem_of_app; auto.
Qed.

Lemma required_step_inv st name1 name2 :
  chosen_inv st → name1 ∉ used_players st → name2 ∉ used_players st →
  name1 ≠ name2 → chosen_inv (required_step st (name1, name2)).
Proof.
  intros Hinv Hn1 Hn2 Hne. unfold V2.required_step.
  destruct (find_player name1) as [p1|] eqn:H1;
    [destruct (find_player name2) as [p2|] eqn:H2|]; [|done..].
  apply find_on_roster_Some in H1 as [<- ?], H2 as [<- ?].
  by apply chosen_inv_snoc.
Qed.

Lemma matt_constraint_inv options st :
  chosen_inv st → (∀ opt, opt ∈ options → opt.1 ≠ opt.2) →
  chosen_inv (matt_constraint options st).
Proof.
  intros Hinv Hne. unfold V2.matt_constraint.
  destruct (foldl _ _ options) as [b t] eqn:Hfold.
  apply matt_fold_spec in Hfold
    as [(-> & _)|(i & opt & p1 & p2 & Hi & -> & H1 & H2 & Hu1 & Hu2 & _)]; [done|].
  apply find_on_roster_Some in H1 as [Hn1 ?], H2 as [Hn2 ?].
  rewrite <-Hn1, <-Hn2 in *. apply chosen_inv_snoc; [done..| |done|done].
  rewrite Hn1, Hn2. by eapply Hne, list_elem_of_lookup_2.
Qed.

Lemma constraints_chosen_inv : chosen_inv apply_constraints.
Proof.
  unfold V2.apply_constraints. apply matt_constraint_inv.
  - unfold required_pairings. cbn [foldl].
    apply required_step_inv; [|set_solver..|done].
    split_and!; [constructor|by intros ? ?%elem_of_nil..].
  - unfold matt_options. intros opt Hopt.
    repeat (apply elem_of_cons in Hopt as [->|Hopt]; [done|]).
    by apply elem_of_nil in Hopt.
Qed.

Lemma apply_constraints_length :
  (length (best_pairings apply_constraints) ≤ 2)%nat.
Proof.
  unfold V2.apply_constraints, required_pairings. cbn [foldl].
  assert (Hreq : (length (best_pairings
            (required_step nothing_chosen ("Greg Park", "Hugo Lamprecht"))) ≤ 1)%nat).
  { unfold V2.required_step. repeat case_match; simpl; lia. }
  revert Hreq. generalize (required_step nothing_chosen ("Greg Park", "Hugo Lamprecht")).
  intros st Hreq. unfold V2.matt_constraint.
  repeat case_match; simpl; rewrite ?length_app; simpl; lia.
Qed.

(** Candidate pairs join two different unused players of the roster and
    carry their pairing score. *)
Lemma all_possible_pairs_spec st t :
  t ∈ all_possible_pairs st →
  t.1.1 ∈ top_players ∧ t.1.2 ∈ top_players
  ∧ (name t.1.1 ∉ used_players st) ∧ (name t.1.2 ∉ used_players st)
  ∧ t.2 = calculate_pairing_score t.1.1 t.1.2
  ∧ (NoDup (name <$> top_players) → name t.1.1 ≠ name t.1.2).
Proof.
  unfold V2.all_possible_pairs. rewrite sort_desc_perm.
  intros ([p1 p2] & -> & Hin)%list_elem_of_fmap. simpl.
  destruct (combinations2_spec name _ _ _ Hin) as (H1 & H2 & Hne).
  apply list_elem_of_filter in H1 as [? ?], H2 as [? ?].
  split_and!; [done..|]. intros Hnd. apply Hne.
  eapply sublist_NoDup; [exact Hnd|]. apply fmap_sublist, sublist_filter.
Qed.

Lemma row_names_imap (g : nat → nat) (l : list (Player * Player * Q)) :
  row_names (imap (λ i pr, make_row (g i) pr) l) ≡ₚ names_of l.
Proof.
  revert g. induction l as [|[[p1 p2] score] l IH]; intros g; [done|].
  specialize (IH (g ∘ S)). unfold row_names, names_of, pair_names in *.
  cbn [imap fmap list_fmap]. rewrite !bind_cons.
  apply Permutation_app; [|exact IH]. simpl.
  destruct (Qle_bool (hi p1) (hi p2)); simpl; [done|apply Permutation_swap].
Qed.

(** The either-or step of the second script: the eligible option of highest
    pairing score, the earlier one on ties, provided the score exceeds [-1];
    otherwise a warning and nothing else. *)
Lemma matt_constraint_spec options st :
  let r := matt_constraint options st in
  (∃ i opt p1 p2 score,
     options !! i = Some opt
     ∧ find_player opt.1 = Some p1 ∧ find_player opt.2 = Some p2
     ∧ (opt.1 ∉ used_players st) ∧ (opt.2 ∉ used_players st)
     ∧ score = calculate_pairing_score p1 p2 ∧ (-1 < score)%Q
     ∧ (∀ opt' r' s, opt' ∈ options →
          matt_eval (used_players st) opt' = Some (r', s) → (s <= score)%Q)
     ∧ (∀ j opt' r' s, (j < i)%nat → options !! j = Some opt' →
          matt_eval (used_players st) opt' = Some (r', s) → (s < score)%Q)
     ∧ best_pairings r = best_pairings st ++ [(p1, p2, score)]
     ∧ used_players r = {[opt.2]} ∪ ({[opt.1]} ∪ used_players st)
     ∧ warnings r = warnings st)
  ∨ ((∀ opt r' s, opt ∈ options →
        matt_eval (used_players st) opt = Some (r', s) → (s <= -1)%Q)
     ∧ best_pairings r = best_pairings st
     ∧ used_players r = used_players st
     ∧ warnings r = warnings st ++ ["  WARNING: Could not satisfy Matt Maritz constraint"]).
Proof.
  unfold V2.matt_constraint.
  destruct (foldl _ _ options) as [b t] eqn:Hfold.
  apply matt_fold_spec in Hfold
    as [(-> & Hle)
       |(i & opt & p1 & p2 & Hi & -> & H1 & H2 & Hu1 & Hu2 & -> & Hlt & Hmax & Hfirst)];
    simpl.
  - right. split_and!; [|done..]. eauto.
  - left. exists i, opt, p1, p2, (calculate_pairing_score p1 p2).
    split_and!; done.
Qed.

Lemma generate_pairings_nonempty :
  top_players ≠ [] →
  generate_pairings
  = (let st := apply_constraints in
     let remaining_pairs := (12 - Z.of_nat (length (best_pairings st)))%Z in
     balanced_pairs ← find_balanced_pairings remaining_pairs (all_possible_pairs st);
     match sort_desc snd (best_pairings st ++ balanced_pairs) with
     | [] => None
     | best =>
         Some {| pairings := best;
                 rows := imap (λ i pr, make_row (S i) pr) best;
                 printed_warnings := warnings st |}
     end).
Proof.
  intros Hne. unfold V2.generate_pairings. destruct top_players; [done|].
  cbv zeta. destruct (find_balanced_pairings _ _); [|done]. simpl.
  by destruct (sort_desc _ _).
Qed.

Lemma generate_pairings_empty : top_players = [] → generate_pairings = None.
Proof. intros Hnil. unfold V2.generate_pairings. by rewrite Hnil. Qed.

(** A run that yields output delivers the constraint pairs, then what the
    balance heuristic returns, all sorted by score. *)
Lemma generate_pairings_spec out :
  let st := apply_constraints in
  let remaining_pairs := (12 - Z.of_nat (length (best_pairings st)))%Z in
  generate_pairings = Some out →
  ∃ solution balanced,
    greedy_balanced remaining_pairs (all_possible_pairs st) = Some solution
    ∧ find_balanced_pairings remaining_pairs (all_possible_pairs st) = Some balanced
    ∧ (balanced = solution
       ∨ balanced = pure_greedy remaining_pairs (all_possible_pairs st))
    ∧ pairings out = sort_desc snd (best_pairings st ++ balanced)
    ∧ rows out = imap (λ i pr, make_row (S i) pr) (pairings out)
    ∧ printed_warnings out = warnings st.
Proof.
  intros st remaining_pairs.
  assert (Hpos : (0 < remaining_pairs)%Z).
  { pose proof apply_constraints_length. unfold remaining_pairs, st. lia. }
  destruct (find_balanced_pairings_spec remaining_pairs (all_possible_pairs st) Hpos)
    as (solution & balanced & Hsol & Hbal & Hor).
  intros Hrun.
  assert (Hne : top_players ≠ []).
  { intros Hnil. by rewrite (generate_pairings_empty Hnil) in Hrun. }
  rewrite (generate_pairings_nonempty Hne) in Hrun. cbv zeta in Hrun.
  fold st remaining_pairs in Hrun. rewrite Hbal in Hrun. simpl in Hrun.
  destruct (sort_desc snd (best_pairings st ++ balanced)) as [|t best] eqn:Hbest; [done|].
  injection Hrun as <-. exists solution, balanced. simpl. by split_and!.
Qed.

(** Whoever the constraint steps mark as used is in a fixed pair. *)
Lemma used_players_are_paired x :
  x ∈ used_players apply_constraints → x ∈ names_of (best_pairings apply_constraints).
Proof.
  unfold V2.apply_constraints.
  set (st := foldl _ _ _).
  assert (Hst : ∀ x, x ∈ used_players st → x ∈ names_of (best_pairings st)).
  { unfold st, required_pairings. simpl. unfold V2.required_step.
    destruct (find_player "Greg Park") as [p1|] eqn:H1;
      [destruct (find_player "Hugo Lamprecht") as [p2|] eqn:H2|]; simpl;
      intros x'; try (by intros ?%elem_of_empty).
    apply find_on_roster_Some in H1 as [H1 _].
    apply find_on_roster_Some in H2 as [H2 _].
    intros Hx'. apply (names_of_snoc [] p1 p2). rewrite H1, H2. set_solver. }
  revert x.
  destruct (matt_constraint_spec matt_options st)
    as [(i & opt & p1 & p2 & score & _ & H1 & H2 & _ & _ & _ & _ & _ & _ & Hbest & Hused & _)
       |(_ & Hbest & Hused & _)]; rewrite Hbest, Hused; [|done].
  apply find_on_roster_Some in H1 as [H1 _].
  apply find_on_roster_Some in H2 as [H2 _].
  intros x Hx. apply names_of_snoc. rewrite H1, H2.
  apply elem_of_union in Hx as [Hx|Hx]; [set_solver|].
  apply elem_of_union in Hx as [Hx|Hx]; [set_solver|]. left. by apply Hst.
Qed.

Lemma filter_all {A} (P : A → Prop) `{∀ x, Decision (P x)} (l : list A) :
  (∀ x, x ∈ l → P x) → filter P l = l.
Proof.
  induction l as [|x l IH]; intros Hall; [done|].
  rewrite filter_cons_True by (apply Hall; by left).
  f_equal. apply IH. intros y Hy. apply Hall. by right.
Qed.

Lemma fewer_than_two {A} (l : list A) :
  (length l < 2)%nat → NoDup l ∧ ∀ x y, x ∈ l → y ∈ l → x = y.
Proof.
  destruct l as [|z [|z' k]]; simpl; [| |lia]; intros _.
  - split; [constructor|]. by intros x y ?%elem_of_nil.
  - split; [apply NoDup_singleton|].
    by intros x y ->%list_elem_of_singleton ->%list_elem_of_singleton.
Qed.

Lemma two_or_more {A} (l : list A) :
  (2 ≤ length l)%nat → ∃ x y k, l = x :: y :: k.
Proof. destruct l as [|x [|y k]]; simpl; [lia..|]. by exists x, y, k. Qed.

(** A roster of two or more players gives at least one pair. *)
Lemma some_pair_is_made balanced :
  let st := apply_constraints in
  let remaining_pairs := (12 - Z.of_nat (length (best_pairings st)))%Z in
  (2 ≤ length top_players)%nat →
  find_balanced_pairings remaining_pairs (all_possible_pairs st) = Some balanced →
  best_pairings st ++ balanced ≠ [].
Proof.
  intros st remaining_pairs Hlen Hbal Hnil.
  apply app_eq_nil in Hnil as [Hcons ->].
  assert (Hfree : filter (λ p, name p ∉ used_players st) top_players = top_players).
  { apply filter_all. intros p _ Hu%used_players_are_paired.
    fold st in Hu. rewrite Hcons in Hu. by apply elem_of_nil in Hu. }
  destruct (two_or_more _ Hlen) as (p & q & roster & Hroster).
  assert ((p, q, calculate_pairing_score p q) ∈ all_possible_pairs st) as Hin.
  { unfold V2.all_possible_pairs. rewrite Hfree, (sort_desc_perm snd), Hroster.
    simpl. by left. }
  assert (Hpos : (0 < remaining_pairs)%Z).
  { unfold remaining_pairs. rewrite Hcons. simpl. lia. }
  destruct (find_balanced_pairings_maximal _ _ _ Hpos Hbal ltac:(simpl; lia) _ Hin)
    as [H|H]; by apply elem_of_nil in H.
Qed.

(** The run yields output exactly on rosters of at least two players. *)
Lemma generate_pairings_returns :
  (2 ≤ length top_players)%nat → ∃ out, generate_pairings = Some out.
Proof.
  intros Hlen.
  pose proof apply_constraints_length as Hbest.
  destruct (find_balanced_pairings_spec
              (12 - Z.of_nat (length (best_pairings apply_constraints)))
              (all_possible_pairs apply_constraints) ltac:(lia))
    as (solution & balanced & _ & Hbal & _).
  pose proof (some_pair_is_made balanced Hlen Hbal) as Hne.
  rewrite generate_pairings_nonempty by (intros Hnil; rewrite Hnil in Hlen; simpl in Hlen; lia).
  cbv zeta. rewrite Hbal. simpl.
  destruct (sort_desc snd (best_pairings apply_constraints ++ balanced))
    as [|t best] eqn:Hsorted; [|by eexists].
  destruct Hne. apply Permutation_nil_r. rewrite <-Hsorted.
  symmetry. apply (sort_desc_perm snd).
Qed.

Lemma balanced_selection balanced :
  let st := apply_constraints in
  let remaining_pairs := (12 - Z.of_nat (length (best_pairings st)))%Z in
  NoDup (name <$> top_players) →
  find_balanced_pairings remaining_pairs (all_possible_pairs st) = Some balanced →
  ∃ used, selection_of (all_possible_pairs st) balanced used.
Proof.
  intros st remaining_pairs Hnd Hbal.
  assert (Hdist : ∀ t, t ∈ all_possible_pairs st → name t.1.1 ≠ name t.1.2).
  { intros t Ht. by apply (all_possible_pairs_spec st t Ht). }
  assert (Hpos : (0 < remaining_pairs)%Z).
  { pose proof apply_constraints_length. unfold remaining_pairs, st. lia. }
  destruct (find_balanced_pairings_spec remaining_pairs (all_possible_pairs st) Hpos)
    as (solution & balanced' & Hsol & Hbal' & Hor).
  rewrite Hbal in Hbal'. injection Hbal' as <-.
  destruct Hor as [->| ->].
  - destruct (greedy_balanced_spec remaining_pairs (all_possible_pairs st))
      as (sol' & Hsol' & Hgood). rewrite Hsol in Hsol'. injection Hsol' as <-.
    by apply Hgood.
  - by apply pure_greedy_spec.
Qed.

(** No player is named twice by the pairs of a run, nor by its rows. *)
Lemma generate_pairings_unique out :
  NoDup (name <$> top_players) →
  generate_pairings = Some out →
  NoDup (names_of (pairings out)) ∧ NoDup (row_names (rows out)).
Proof.
  intros Hnd Hrun.
  destruct (generate_pairings_spec out Hrun)
    as (solution & balanced & _ & Hbal & _ & Hpairs & Hrows & _).
  assert (Hunique : NoDup (names_of (pairings out))).
  { rewrite Hpairs, (scored_names_perm _ _ (sort_desc_perm _ _)), scored_names_app.
    destruct constraints_chosen_inv as (Hbest & Hused & _).
    destruct (balanced_selection balanced Hnd Hbal) as (used & Hsel & _ & Hsub).
    apply NoDup_app. split_and!; [done| |done].
    intros n Hn (t & Ht & Hname)%elem_of_names_of.
    specialize (Hused n Hn).
    destruct (all_possible_pairs_spec _ t (Hsub t Ht)) as (_ & _ & H1 & H2 & _).
    destruct Hname as [->| ->]; done. }
  split; [done|]. by rewrite Hrows, row_names_imap.
Qed.

Lemma honoured_grows rp pairs pairs' warned warned' :
  honoured top_players rp pairs warned →
  (∀ t, t ∈ pairs → t ∈ pairs') → (∀ w, w ∈ warned → w ∈ warned') →
  honoured top_players rp pairs' warned'.
Proof. unfold honoured. repeat case_match; eauto. Qed.

Lemma required_step_honours st rp :
  honoured top_players rp (best_pairings (required_step st rp))
    (warnings (required_step st rp)).
Proof.
  unfold honoured, V2.required_step. destruct rp as [name1 name2]. simpl.
  destruct (find_player name1), (find_player name2); simpl; set_solver.
Qed.

Lemma generate_pairings_some_pair out :
  generate_pairings = Some out → pairings out ≠ [].
Proof.
  intros Hrun.
  assert (Hne : top_players ≠ []).
  { intros Hnil. by rewrite (generate_pairings_empty Hnil) in Hrun. }
  rewrite (generate_pairings_nonempty Hne) in Hrun. cbv zeta in Hrun.
  destruct (find_balanced_pairings _ _) as [balanced|]; [|done]. simpl in Hrun.
  destruct (sort_desc snd _) as [|t best]; [done|]. by injection Hrun as <-.
Qed.

Lemma generate_pairings_on_roster out t :
  NoDup (name <$> top_players) →
  generate_pairings = Some out → t ∈ pairings out →
  t.1.1 ∈ top_players ∧ t.1.2 ∈ top_players.
Proof.
  intros Hnd Hrun.
  destruct (generate_pairings_spec out Hrun)
    as (solution & balanced & _ & Hbal & _ & Hpairs & _).
  rewrite Hpairs, (sort_desc_perm snd). intros [Ht|Ht]%elem_of_app.
  - by apply constraints_chosen_inv.
  - destruct (balanced_selection balanced Hnd Hbal) as (used & _ & _ & Hsub).
    destruct (all_possible_pairs_spec _ t (Hsub t Ht)) as (H1 & H2 & _). done.
Qed.

(** The run ends in an exception exactly on rosters of fewer than two
    players. *)
Lemma generate_pairings_None :
  generate_pairings = None ↔ (length top_players < 2)%nat.
Proof.
  split.
  - intros Hnone. destruct (decide (2 ≤ length top_players)%nat) as [Hlen|]; [|lia].
    destruct (generate_pairings_returns Hlen) as [out Hout]. congruence.
  - intros Hlen. destruct generate_pairings as [out|] eqn:Hrun; [|done].
    exfalso.
    destruct (fewer_than_two _ Hlen) as [Hnd Hsame].
    assert (Hnames : NoDup (name <$> top_players)).
    { apply (fewer_than_two (name <$> top_players)). by rewrite length_fmap. }
    destruct (generate_pairings_unique out Hnames Hrun) as [Hunique _].
    destruct (pairings out) as [|t rest] eqn:Hp;
      [by apply generate_pairings_some_pair in Hrun|].
    destruct (generate_pairings_on_roster out t Hnames Hrun) as [H1 H2];
      [rewrite Hp; by left|].
    pose proof (Hsame _ _ H1 H2) as Heq.
    unfold names_of, pair_names in Hunique. simpl in Hunique.
    apply NoDup_cons in Hunique as [Hfirst _]. apply Hfirst.
    rewrite Heq. by left.
Qed.

(** The required pairing of the second script survives the rest of the
    run. *)
Lemma generate_pairings_honours out rp :
  generate_pairings = Some out → rp ∈ required_pairings →
  honoured top_players rp (pairings out) (printed_warnings out).
Proof.
  intros Hrun Hrp.
  destruct (generate_pairings_spec out Hrun)
    as (solution & balanced & _ & _ & _ & Hpairs & _ & Hwarn).
  unfold required_pairings in Hrp. apply list_elem_of_singleton in Hrp as ->.
  rewrite Hpairs, Hwarn. unfold V2.apply_constraints, required_pairings.
  cbn [foldl].
  set (st := required_step nothing_chosen ("Greg Park", "Hugo Lamprecht")).
  eapply honoured_grows; [apply (required_step_honours nothing_chosen)|..];
    fold st.
  - intros t Ht. rewrite sort_desc_perm. apply elem_of_app. left.
    destruct (matt_constraint_spec matt_options st)
      as [(? & ? & ? & ? & ? & _ & _ & _ & _ & _ & _ & _ & _ & _ & -> & _)
         |(_ & -> & _)]; set_solver.
  - intros w Hw.
    destruct (matt_constraint_spec matt_options st)
      as [(? & ? & ? & ? & ? & _ & _ & _ & _ & _ & _ & _ & _ & _ & _ & _ & ->)
         |(_ & _ & _ & ->)]; set_solver.
Qed.

End Facts.





End V2_facts.

(** ** generate_pairings_v3.py *)
Module V3_facts.
Import V3.

Section Facts.
Variable selected : list Player.

Abbreviation sorted_selected := (sorted_selected selected).
Abbreviation required_step := (required_step selected).
Abbreviation apply_required := (apply_required selected).
Abbreviation auto_pairings := (auto_pairings selected).
Abbreviation generate_pairings := (generate_pairings selected).
Abbreviation honoured := (honoured selected).

Lemma required_step_grows st rp :
  (∀ p, p ∈ pairings st → p ∈ pairings (required_step st rp))
  ∧ (∀ w, w ∈ warnings st → w ∈ warnings (required_step st rp)).
Proof.
  unfold V3.required_step. destruct rp as [name1 name2].
  destruct (find_player name1 sorted_selected) as [p1|],
    (find_player name2 sorted_selected) as [p2|];
    try destruct (Qlt_le_dec _ _); simpl; set_solver.
Qed.

Lemma required_fold_grows required st :
  (∀ p, p ∈ pairings st → p ∈ pairings (foldl required_step st required))
  ∧ (∀ w, w ∈ warnings st → w ∈ warnings (foldl required_step st required)).
Proof.
  revert st. induction required as [|rp required IH]; intros st; simpl; [done|].
  destruct (required_step_grows st rp) as [Hp Hw].
  destruct (IH (required_step st rp)) as [Hp' Hw']. split; eauto.
Qed.

Lemma required_outcome_grows rp pairs pairs' warned warned' :
  honoured rp pairs warned →
  (∀ p, p ∈ pairs → p ∈ pairs') → (∀ w, w ∈ warned → w ∈ warned') →
  honoured rp pairs' warned'.
Proof.
  unfold V3.honoured. repeat case_match; eauto.
  intros (q & Hq & Hrest) Hpairs _. eauto.
Qed.

Lemma required_step_outcome st rp :
  honoured rp (pairings (required_step st rp)) (warnings (required_step st rp)).
Proof.
  unfold V3.honoured, V3.required_step. destruct rp as [name1 name2]. simpl.
  destruct (find_player name1 sorted_selected) as [p1|],
    (find_player name2 sorted_selected) as [p2|];
    simpl; [|set_solver..].
  destruct (Qlt_le_dec (hi p1) (hi p2)); simpl; eexists; split;
    try (apply elem_of_app; right; apply list_elem_of_singleton; reflexivity);
    simpl; split; [done|by left|done|by right].
Qed.

Lemma required_fold_outcome required st rp :
  rp ∈ required →
  honoured rp (pairings (foldl required_step st required))
    (warnings (foldl required_step st required)).
Proof.
  revert st. induction required as [|rp' required IH]; intros st;
    [by intros ?%elem_of_nil|]. simpl.
  intros [->|Hin]%elem_of_cons; [|by apply IH].
  destruct (required_fold_grows required (required_step st rp')).
  eapply required_outcome_grows; [apply required_step_outcome|done..].
Qed.

(** A non-empty selection always yields a result: the required and the
    automatic pairs, reordered by the allocation. *)
Lemma generate_pairings_outcome :
  selected ≠ [] →
  ∃ out, generate_pairings = Some out
    ∧ final_pairings out ≡ₚ pairings apply_required ++ auto_pairings apply_required
    ∧ rows out = imap (λ i pair, make_row (S i) pair) (final_pairings out)
    ∧ printed_warnings out = warnings apply_required.
Proof.
  intros Hne. unfold V3.generate_pairings.
  destruct sorted_selected as [|p ps] eqn:Hsorted.
  { apply (f_equal length) in Hsorted. unfold V3.sorted_selected in Hsorted.
    rewrite (Permutation_length (sort_asc_perm hi selected)) in Hsorted.
    by destruct selected. }
  eexists. split; [done|]. simpl. split_and!; [|done..].
  apply home_first_perm.
Qed.

Lemma required_step_length st rp :
  (length (pairings (required_step st rp)) ≤ S (length (pairings st)))%nat.
Proof.
  unfold V3.required_step. destruct rp as [name1 name2].
  destruct (find_player name1 sorted_selected) as [p1|],
    (find_player name2 sorted_selected) as [p2|];
    try destruct (Qlt_le_dec _ _); simpl; rewrite ?length_app; simpl; lia.
Qed.

(** The third script never returns more than eight pairs, so with four HOME
    positions at most four pairs are AWAY. *)
Lemma at_most_eight_pairs out :
  generate_pairings = Some out →
  (length (rows out) ≤ 8)%nat ∧ length (rows out) = length (final_pairings out).
Proof.
  intros Hrun.
  assert (Hne : selected ≠ []).
  { intros ->. by vm_compute in Hrun. }
  destruct (generate_pairings_outcome Hne) as (out' & Hrun' & Hfinal & Hrows & _).
  rewrite Hrun in Hrun'. injection Hrun' as <-.
  rewrite Hrows, length_imap. split; [|done].
  rewrite (Permutation_length Hfinal), length_app.
  assert (Hreq : (length (pairings apply_required) ≤ 3)%nat).
  { unfold V3.apply_required, REQUIRED_PAIRINGS. cbn [foldl].
    repeat (etrans; [apply required_step_length|]; apply le_n_S). simpl. lia. }
  unfold V3.auto_pairings. rewrite length_fmap, length_zip, !length_take. lia.
Qed.

End Facts.
End V3_facts.

(** ** Claims that span scripts *)



(** C9: on rosters that name nobody twice, no player is named by two pairs
    of the output, whichever step produced them.  The first script's pairing
    core ends on every such roster; the second script yields its output on
    every such roster of at least two players (on a smaller one it ends in
    an exception and yields nothing). *)
Theorem C9_each_player_in_at_most_one_pair
    (ch_lookup : gmap string Z) (score_lookup : gmap string Q)
    (top_anchors top_gunners : list V1.PlayerRow) (top_players : list V2.Player) :
  NoDup (V1.Player_Name <$> top_anchors ++ top_gunners) →
  NoDup (V2.name <$> top_players) →
  (∃ mode out,
     V1.generate_pairings ch_lookup score_lookup top_anchors top_gunners = Some (mode, out)
     ∧ NoDup (V1.names_of out))
  ∧ ((2 ≤ length top_players)%nat →
     ∃ out,
       V2.generate_pairings top_players = Some out
       ∧ NoDup (V2.names_of (V2.pairings out))
       ∧ NoDup (V2.row_names (V2.rows out))).
Proof.
  intros Hpools Hroster. split.
  - apply V1_facts.pairings_with_unique; [apply V1_facts.constraint_names_NoDup|done].
  - intros Hlen.
    destruct (V2_facts.generate_pairings_returns top_players Hlen) as [out Hrun].
    exists out. split; [done|]. by apply (V2_facts.generate_pairings_unique top_players).
Qed.

Lemma C9_each_player_in_at_most_one_pair_witness :
  (∃ mode out,
     V1.generate_pairings V1.level_ch V1.level_scores V1.level_anchors V1.level_gunners
       = Some (mode, out)
     ∧ NoDup (V1.names_of out))
  ∧ (∃ out,
       V2.generate_pairings V2.small_roster = Some out
       ∧ NoDup (V2.names_of (V2.pairings out))
       ∧ NoDup (V2.row_names (V2.rows out))).
Proof.
  destruct (C9_each_player_in_at_most_one_pair V1.level_ch V1.level_scores
              V1.level_anchors V1.level_gunners V2.small_roster) as [Hfirst Hsecond].
  - apply (bool_decide_unpack _). vm_compute. exact I.
  - apply (bool_decide_unpack _). vm_compute. exact I.
  - split; [exact Hfirst|]. apply Hsecond. simpl. lia.
Defined.

(** C1, as stated, fails: Greg Park is selected, Hugo Lamprecht is not, and
    the run does not fail; it prints a warning, pairs Greg Park otherwise
    and returns its rows. *)
Lemma C1_counterexample :
  ∃ out,
    V3.generate_pairings V3.without_hugo = Some out
    ∧ is_Some (V3.find_player "Greg Park" (V3.sorted_selected V3.without_hugo))
    ∧ V3.find_player "Hugo Lamprecht" (V3.sorted_selected V3.without_hugo) = None
    ∧ V3.printed_warnings out = [missing_warning "Hugo Lamprecht"]
    ∧ V3.rows out
      = [ {| V3.Pair := 1; V3.Location := "HOME";
             V3.Anchor := "Jacques vd Berg"; V3.Gunner := "Brandon Bester" |};
          {| V3.Pair := 2; V3.Location := "HOME";
             V3.Anchor := "Greg Park"; V3.Gunner := "Dawid" |};
          {| V3.Pair := 3; V3.Location := "HOME";
             V3.Anchor := "Ian Scott"; V3.Gunner := "Matt Maritz" |} ].
Proof.
  eexists. split; [vm_compute; reflexivity|].
  split; [by eexists|]. split_and!; vm_compute; reflexivity.
Qed.

(** C1, amended: a missing member of a required pairing never ends the
    run.  The second script ends in an exception exactly on rosters of fewer
    than two players, the third exactly on an empty selection, whoever is
    missing; in every other run, for each required pairing, the output holds
    that pair when both players are on the roster (tagged REQUIRED in the
    third script, anchor being the lower handicap index), and otherwise the
    warning naming the first missing player is printed and the run goes
    on. *)
Theorem C1_required_pair_or_warning
    (top_players : list V2.Player) (selected : list V3.Player) :
  (V2.generate_pairings top_players = None ↔ (length top_players < 2)%nat)
  ∧ (V3.generate_pairings selected = None ↔ selected = [])
  ∧ ((2 ≤ length top_players)%nat →
     ∃ out, V2.generate_pairings top_players = Some out
       ∧ ∀ rp, rp ∈ V2.required_pairings →
           V2.honoured top_players rp (V2.pairings out) (V2.printed_warnings out))
  ∧ (selected ≠ [] →
     ∃ out, V3.generate_pairings selected = Some out
       ∧ ∀ rp, rp ∈ V3.REQUIRED_PAIRINGS →
           V3.honoured selected rp (V3.final_pairings out) (V3.printed_warnings out)).
Proof.
  assert (Hthird : selected ≠ [] →
     ∃ out, V3.generate_pairings selected = Some out
       ∧ ∀ rp, rp ∈ V3.REQUIRED_PAIRINGS →
           V3.honoured selected rp (V3.final_pairings out) (V3.printed_warnings out)).
  { intros Hne.
    destruct (V3_facts.generate_pairings_outcome selected Hne)
      as (out & Hrun & Hfinal & _ & Hwarn).
    exists out. split; [done|]. intros rp Hrp.
    eapply V3_facts.required_outcome_grows;
      [apply (V3_facts.required_fold_outcome selected _ V3.nothing_paired rp Hrp)|..].
    + intros p Hp. rewrite Hfinal. set_solver.
    + intros w Hw. by rewrite Hwarn. }
  split_and!.
  - apply V2_facts.generate_pairings_None.
  - split.
    + intros Hnone. destruct selected as [|p l]; [done|].
      destruct Hthird as (out & Hrun & _); [done|]. congruence.
    + by intros ->.
  - intros Hlen.
    destruct (V2_facts.generate_pairings_returns top_players Hlen) as [out Hrun].
    exists out. split; [done|]. intros rp Hrp.
    by apply V2_facts.generate_pairings_honours.
  - exact Hthird.
Qed.

Lemma C1_required_pair_or_warning_witness :
  (∃ out, V2.generate_pairings V2.small_roster = Some out
     ∧ ∀ rp, rp ∈ V2.required_pairings →
         V2.honoured V2.small_roster rp (V2.pairings out) (V2.printed_warnings out))
  ∧ (∃ out, V3.generate_pairings V3.without_hugo = Some out
       ∧ ∀ rp, rp ∈ V3.REQUIRED_PAIRINGS →
           V3.honoured V3.without_hugo rp (V3.final_pairings out)
             (V3.printed_warnings out)).
Proof.
  destruct (C1_required_pair_or_warning V2.small_roster V3.without_hugo)
    as (_ & _ & Hsecond & Hthird).
  split; [apply Hsecond; simpl; lia|apply Hthird; discriminate].
Defined.

(** Position [i] is a HOME position exactly up to four, so never more than
    four pairs are HOME. *)
Lemma location_home i : location i = "HOME" ↔ (i ≤ 4)%nat.
Proof.
  unfold location. destruct (Nat.leb_spec i 4); split; (done || lia).
Qed.

(** The fourth script has no bound of eight pairs: eighteen selected players
    give nine pairs, five of them AWAY. *)
Lemma fourth_script_ninth_pair :
  length (V4.generate_pairings V4.eighteen_committed).2 = 9%nat
  ∧ V4.Location <$> (V4.generate_pairings V4.eighteen_committed).2
    = ["HOME"; "HOME"; "HOME"; "HOME"; "AWAY"; "AWAY"; "AWAY"; "AWAY"; "AWAY"].
Proof. split; vm_compute; reflexivity. Qed.

(** C3: on a selection with only three home-eligible pairs, the third and
    the fourth script both put an away-only pair in position 4, which is a
    HOME position. *)
Theorem C3_away_only_pair_in_home_position :
  (∃ out pair row,
     V3.generate_pairings V3.few_home_pairs = Some out
     ∧ V3.final_pairings out !! 3%nat = Some pair
     ∧ V3.rows out !! 3%nat = Some row
     ∧ V3.Pair row = 4%nat ∧ V3.Location row = "HOME"
     ∧ V3.Anchor row = "A4" ∧ V3.Gunner row = "G4"
     ∧ V3.pair_can_play_home pair = false
     ∧ V3.can_play_home (V3.gunner pair) = false)
  ∧ (∃ pair row,
       (V4.generate_pairings V4.few_home_pairs).1 !! 3%nat = Some pair
       ∧ (V4.generate_pairings V4.few_home_pairs).2 !! 3%nat = Some row
       ∧ V4.Pair row = 4%nat ∧ V4.Location row = "HOME"
       ∧ V4.Anchor row = "A4" ∧ V4.Partner row = "W4"
       ∧ V4.pair_can_play_home pair = false
       ∧ V4.can_play_home (V4.gunner pair) = false).
Proof.
  split.
  - eexists _, _, _. do 8 (split; [vm_compute; reflexivity|]).
    vm_compute. reflexivity.
  - eexists _, _. do 7 (split; [vm_compute; reflexivity|]).
    vm_compute. reflexivity.
Qed.

(** * Further properties *)

(** ** Order of the sorted lists *)
Section SortOrder.
Context {A : Type} (key : A → Q).

Lemma StronglySorted_lookup (R : relation A) l i j a b :
  StronglySorted R l → (i < j)%nat →
  l !! i = Some a → l !! j = Some b → R a b.
Proof.
  intros Hs. revert i j. induction Hs as [|x l Hs IH Hall]; intros i j Hij Ha Hb.
  - by rewrite lookup_nil in Ha.
  - destruct j as [|j]; [lia|]. destruct i as [|i]; simplify_eq/=.
    + rewrite Forall_forall in Hall. apply Hall. by eapply list_elem_of_lookup_2.
    + apply (IH i j); [lia|done..].
Qed.

Lemma insert_desc_sorted x l :
  StronglySorted (λ a b, (key b <= key a)%Q) l →
  StronglySorted (λ a b, (key b <= key a)%Q) (insert_desc key x l).
Proof.
  induction 1 as [|y l Hs IH Hall]; simpl.
  - repeat constructor.
  - destruct (Qlt_le_dec (key x) (key y)) as [Hlt|Hle].
    + constructor; [done|].
      rewrite (insert_desc_perm key x l). constructor; [lra|done].
    + constructor; [by constructor|].
      constructor; [done|].
      eapply Forall_impl; [exact Hall|]. simpl. intros z Hz. lra.
Qed.

Lemma sort_desc_sorted l :
  StronglySorted (λ a b, (key b <= key a)%Q) (sort_desc key l).
Proof.
  induction l as [|x l IH]; simpl; [constructor|].
  by apply insert_desc_sorted.
Qed.

Lemma insert_asc_sorted x l :
  StronglySorted (λ a b, (key a <= key b)%Q) l →
  StronglySorted (λ a b, (key a <= key b)%Q) (insert_asc key x l).
Proof.
  induction 1 as [|y l Hs IH Hall]; simpl.
  - repeat constructor.
  - destruct (Qlt_le_dec (key y) (key x)) as [Hlt|Hle].
    + constructor; [done|].
      rewrite (insert_asc_perm key x l). constructor; [lra|done].
    + constructor; [by constructor|].
      constructor; [done|].
      eapply Forall_impl; [exact Hall|]. simpl. intros z Hz. lra.
Qed.

Lemma sort_asc_sorted l :
  StronglySorted (λ a b, (key a <= key b)%Q) (sort_asc key l).
Proof.
  induction l as [|x l IH]; simpl; [constructor|].
  by apply insert_asc_sorted.
Qed.

End SortOrder.

(** ** More on generate_pairings.py *)
Module V1_more.
Import V1.

Section More.
Variable ch_lookup : gmap string Z.
Variable score_lookup : gmap string Q.

Abbreviation is_valid_pairing := (is_valid_pairing ch_lookup).
Abbreviation get_combined_score := (get_combined_score score_lookup).
Abbreviation score_pairs := (score_pairs ch_lookup score_lookup).
Abbreviation permutation_search := (permutation_search ch_lookup score_lookup).
Abbreviation optimize := (optimize ch_lookup score_lookup).

Lemma zip_take_both {B C} (l : list B) (k : list C) :
  (zip l k).*1 = take (length k) l ∧ (zip l k).*2 = take (length l) k.
Proof.
  revert k. induction l as [|x l IH]; intros [|y k]; simpl; try done.
  destruct (IH k) as [H1 H2]. split; f_equal; [exact H1|exact H2].
Qed.

(** X3: an assignment found by the exact search pairs position by position
    and stops at the shorter list ([zip]): the anchors are the leading
    remaining anchors in pool order, the gunners a reordering of the
    remaining gunners cut to the number of anchors, so there are
    [min] of the two sizes pairs and whoever is beyond that stays
    unpaired. *)
Theorem exact_assignment_shape ras rgs asg :
  optimize ras rgs = (Exact, asg) →
  length asg = (length ras `min` length rgs)%nat
  ∧ asg.*1 = take (length rgs) ras
  ∧ ∃ p, p ≡ₚ rgs ∧ asg.*2 = take (length ras) p.
Proof.
  unfold V1.optimize.
  destruct (permutation_search ras rgs).1 as [best|] eqn:Hps; [|done].
  intros [= <-].
  apply V1_facts.permutation_search_Some in Hps as (p & Hp & -> & _).
  destruct (zip_take_both ras p) as [H1 H2].
  split; [by rewrite length_zip, Hp|].
  split; [by rewrite H1, Hp|]. by exists p.
Qed.

(** The gunner of every fallback pair is the first one free for its
    anchor, the gunners of the pairs made before being taken. *)
Lemma greedy_assignment_first used ras rgs earlier a g later :
  greedy_assignment used ras rgs = earlier ++ (a, g) :: later →
  first_free a (used ∪ list_to_set earlier.*2) rgs = Some g.
Proof.
  revert used earlier. induction ras as [|anchor rest IH]; intros used earlier; simpl.
  { by destruct earlier. }
  destruct (first_free anchor used rgs) as [gunner|] eqn:Hff; [|apply IH].
  destruct earlier as [|e earlier]; cbn [app].
  - intros [= -> -> _]. simpl. by rewrite (right_id_L ∅ (∪)).
  - intros [= <- Hrest]. apply IH in Hrest.
    rewrite fmap_cons, list_to_set_cons. simpl.
    by replace (used ∪ ({[gunner]} ∪ list_to_set earlier.*2))
      with ({[gunner]} ∪ used ∪ list_to_set earlier.*2) by set_solver.
Qed.

(** An anchor the fallback leaves out had no free gunner when its turn
    came: the pairs made by then belong to anchors before it. *)
Lemma greedy_assignment_left_out used ras rgs i a :
  ras !! i = Some a → a ∉ (greedy_assignment used ras rgs).*1 →
  ∃ earlier, earlier `prefix_of` greedy_assignment used ras rgs
    ∧ earlier.*1 `sublist_of` take i ras
    ∧ first_free a (used ∪ list_to_set earlier.*2) rgs = None.
Proof.
  revert used i. induction ras as [|anchor rest IH]; intros used i; [done|]. simpl.
  destruct (first_free anchor used rgs) as [gunner|] eqn:Hff; simpl.
  - intros Hi [Hne Hna]%not_elem_of_cons.
    destruct i as [|i]; simpl in Hi; [by injection Hi as ->|].
    destruct (IH _ _ Hi Hna) as (earlier & Hpre & Hsub & Hnone).
    exists ((anchor, gunner) :: earlier). split_and!.
    + by apply prefix_cons.
    + rewrite fmap_cons. by apply sublist_skip.
    + rewrite fmap_cons, list_to_set_cons. simpl.
      by replace (used ∪ ({[gunner]} ∪ list_to_set earlier.*2))
        with ({[gunner]} ∪ used ∪ list_to_set earlier.*2) by set_solver.
  - intros Hi Hna. destruct i as [|i]; simpl in Hi.
    + injection Hi as ->. exists []. split_and!; [apply prefix_nil|done|].
      simpl. by rewrite (right_id_L ∅ (∪)).
    + destruct (IH _ _ Hi Hna) as (earlier & Hpre & Hsub & Hnone).
      exists earlier. split_and!; [done| |done]. simpl. by apply sublist_cons.
Qed.

(** X4: the greedy fallback keeps the anchors in pool order and uses no
    gunner twice.  Every pair holds the first gunner of the pool, in pool
    order, that is neither taken by a pair made before nor on the anchor's
    exclusion list ([first_free]); an anchor is left out only when, at its
    turn, no such gunner exists: every gunner is then on its exclusion list
    or taken by a pair of an anchor before it. *)
Theorem fallback_assignment_greedy ras rgs asg :
  optimize ras rgs = (Fallback, asg) →
  asg.*1 `sublist_of` ras ∧ NoDup asg.*2
  ∧ (∀ a g, (a, g) ∈ asg →
       g ∈ rgs ∧ (g ∉ default [] (EXCLUSIONS !! a)))
  ∧ (∀ earlier a g later, asg = earlier ++ (a, g) :: later →
       first_free a (list_to_set earlier.*2) rgs = Some g)
  ∧ (∀ i a, ras !! i = Some a → a ∉ asg.*1 →
       ∃ earlier, earlier `prefix_of` asg
         ∧ earlier.*1 `sublist_of` take i ras
         ∧ first_free a (list_to_set earlier.*2) rgs = None
         ∧ ∀ g, g ∈ rgs →
             g ∈ earlier.*2 ∨ g ∈ default [] (EXCLUSIONS !! a)).
Proof.
  unfold V1.optimize.
  destruct (permutation_search ras rgs).1 as [best|] eqn:Hps; [done|].
  intros [= <-].
  destruct (V1_facts.greedy_assignment_spec ∅ ras rgs) as (Hsub & Hnd & Hin).
  split; [done|]. split; [done|]. split_and!.
  - intros a g Hag. destruct (Hin a g Hag) as (? & _ & ?). done.
  - intros earlier a g later Hasg.
    apply greedy_assignment_first in Hasg. by rewrite (left_id_L ∅ (∪)) in Hasg.
  - intros i a Hi Hna.
    destruct (greedy_assignment_left_out ∅ ras rgs i a Hi Hna)
      as (earlier & Hpre & Hearly & Hnone).
    rewrite (left_id_L ∅ (∪)) in Hnone.
    exists earlier. split_and!; [done..|].
    intros g Hg. unfold first_free in Hnone.
    destruct (filter _ rgs) as [|x xs] eqn:Hf; [|done].
    destruct (decide (g ∈ earlier.*2)) as [|Hfree]; [by left|].
    destruct (decide (g ∈ default [] (EXCLUSIONS !! a))) as [|Hne]; [by right|].
    exfalso. refine (filter_nil_not_elem_of _ _ _ Hf (conj _ Hne) Hg).
    by rewrite elem_of_list_to_set.
Qed.

Variable top_anchors top_gunners : list PlayerRow.
Abbreviation generate_pairings :=
  (generate_pairings ch_lookup score_lookup top_anchors top_gunners).

(** X5: the records come out in descending order of pair score. *)
Theorem output_sorted_by_pair_score mode out i j r r' :
  generate_pairings = Some (mode, out) →
  (i < j)%nat → out !! i = Some r → out !! j = Some r' →
  (Pair_Combined_Score r' <= Pair_Combined_Score r)%Q.
Proof.
  unfold V1.generate_pairings, V1.pairings_with. intros Hgen Hij Hi Hj.
  destruct (mapM _ (fixed_pairs _)) as [fixed|]; [|done]. simpl in Hgen.
  destruct (mapM _ _) as [auto|]; [|done]. simpl in Hgen.
  injection Hgen as _ <-.
  exact (StronglySorted_lookup _ _ i j r r'
           (sort_desc_sorted Pair_Combined_Score _) Hij Hi Hj).
Qed.

(** X6: the run always reaches its output: every name of a fixed or an
    assigned pair is found again in the pools.  An AUTO record has its
    anchor from the anchor pool and its gunner from the gunner pool; a
    constraint record may take either player from either pool. *)
Theorem run_completes_with_pool_players :
  ∃ mode out, generate_pairings = Some (mode, out)
    ∧ ∀ r, r ∈ out →
        (Constraint r = "AUTO"
         ∧ Anchor r ∈ Player_Name <$> top_anchors
         ∧ Gunner r ∈ Player_Name <$> top_gunners)
        ∨ (Constraint r ≠ "AUTO"
           ∧ Anchor r ∈ Player_Name <$> top_anchors ++ top_gunners
           ∧ Gunner r ∈ Player_Name <$> top_anchors ++ top_gunners).
Proof.
  destruct (V1_facts.pairings_with_total ch_lookup score_lookup top_anchors top_gunners
              REQUIRED_PAIRINGS EITHER_OR_PAIRINGS V1_facts.constraint_names_NoDup)
    as (fixed & auto & Hgen & _).
  eexists _, _. split; [exact Hgen|].
  intros r Hr.
  destruct (V1_facts.generate_pairings_elem _ _ _ _ _ _ r Hgen Hr) as [_ Hcase].
  pose proof (V1_facts.apply_constraints_inv top_anchors top_gunners
                REQUIRED_PAIRINGS EITHER_OR_PAIRINGS V1_facts.constraint_names_NoDup)
    as (_ & _ & Hfound).
  destruct Hcase as [(fp & Hfp & Ha & Hg & _ & Hne)|(ag & Hag & Ha & Hg & _ & Htag)].
  - right. split; [done|].
    rewrite Forall_forall in Hfound.
    destruct (Hfound fp Hfp) as ([a Hfa] & [g Hfg] & _).
    rewrite Ha, Hg, fmap_app. split.
    + unfold find_anchor in Hfa.
      destruct (find_player top_anchors fp.1.1) eqn:H1.
      * apply V1_facts.find_player_Some in H1 as [<- ?].
        apply elem_of_app; left. by apply list_elem_of_fmap_2.
      * apply V1_facts.find_player_Some in Hfa as [<- ?].
        apply elem_of_app; right. by apply list_elem_of_fmap_2.
    + unfold find_gunner in Hfg.
      destruct (find_player top_gunners fp.1.2) eqn:H1.
      * apply V1_facts.find_player_Some in H1 as [<- ?].
        apply elem_of_app; right. by apply list_elem_of_fmap_2.
      * apply V1_facts.find_player_Some in Hfg as [<- ?].
        apply elem_of_app; left. by apply list_elem_of_fmap_2.
  - left. split; [done|].
    destruct (V1_facts.optimize_spec ch_lookup score_lookup
                (remaining (apply_constraints top_anchors top_gunners
                              REQUIRED_PAIRINGS EITHER_OR_PAIRINGS) top_anchors)
                (remaining (apply_constraints top_anchors top_gunners
                              REQUIRED_PAIRINGS EITHER_OR_PAIRINGS) top_gunners))
      as (Hsub & Hgs & _).
    rewrite Ha, Hg. split.
    + assert (ag.1 ∈ remaining (apply_constraints top_anchors top_gunners
                              REQUIRED_PAIRINGS EITHER_OR_PAIRINGS) top_anchors) as Hin.
      { eapply elem_of_sublist; [|exact Hsub]. by apply list_elem_of_fmap_2. }
      by apply V1_facts.elem_of_remaining in Hin as [? _].
    + assert (ag.2 ∈ remaining (apply_constraints top_anchors top_gunners
                              REQUIRED_PAIRINGS EITHER_OR_PAIRINGS) top_gunners) as Hin.
      { apply Hgs. by apply list_elem_of_fmap_2. }
      by apply V1_facts.elem_of_remaining in Hin as [? _].
Qed.

End More.

Lemma exact_assignment_shape_witness :
  length [("A1", "B1"); ("A2", "B2")] = (length ["A1"; "A2"] `min` length ["B1"; "B2"])%nat
  ∧ [("A1", "B1"); ("A2", "B2")].*1 = take (length ["B1"; "B2"]) ["A1"; "A2"]
  ∧ ∃ p, p ≡ₚ ["B1"; "B2"]
         ∧ [("A1", "B1"); ("A2", "B2")].*2 = take (length ["A1"; "A2"]) p.
Proof.
  apply (exact_assignment_shape tie_ch tie_scores ["A1"; "A2"] ["B1"; "B2"]).
  vm_compute. reflexivity.
Defined.

Lemma fallback_assignment_greedy_witness :
  let ras := ["Anton"; "Greg Park"] in
  let rgs := ["Bernard"] in
  let asg := [("Anton", "Bernard")] in
  optimize level_ch level_scores ras rgs = (Fallback, asg)
  ∧ (asg.*1 `sublist_of` ras ∧ NoDup asg.*2
     ∧ (∀ a g, (a, g) ∈ asg →
          g ∈ rgs ∧ (g ∉ default [] (EXCLUSIONS !! a)))
     ∧ (∀ earlier a g later, asg = earlier ++ (a, g) :: later →
          first_free a (list_to_set earlier.*2) rgs = Some g)
     ∧ (∀ i a, ras !! i = Some a → a ∉ asg.*1 →
          ∃ earlier, earlier `prefix_of` asg
            ∧ earlier.*1 `sublist_of` take i ras
            ∧ first_free a (list_to_set earlier.*2) rgs = None
            ∧ ∀ g, g ∈ rgs →
                g ∈ earlier.*2 ∨ g ∈ default [] (EXCLUSIONS !! a))).
Proof.
  intros ras rgs asg.
  split; [vm_compute; reflexivity|].
  apply (fallback_assignment_greedy level_ch level_scores ras rgs).
  vm_compute. reflexivity.
Defined.

Lemma output_sorted_by_pair_score_witness :
  (4 + 3 <= 9 + 8)%Q.
Proof.
  apply (output_sorted_by_pair_score tie_ch tie_scores tie_anchors tie_gunners Exact
           [ {| Anchor := "A1"; Gunner := "B1"; CH_Diff := 15;
                Pair_Combined_Score := 9 + 8; Constraint := "AUTO" |};
             {| Anchor := "A2"; Gunner := "B2"; CH_Diff := 5;
                Pair_Combined_Score := 4 + 3; Constraint := "AUTO" |} ]
           0%nat 1%nat
           {| Anchor := "A1"; Gunner := "B1"; CH_Diff := 15;
              Pair_Combined_Score := 9 + 8; Constraint := "AUTO" |}
           {| Anchor := "A2"; Gunner := "B2"; CH_Diff := 5;
              Pair_Combined_Score := 4 + 3; Constraint := "AUTO" |}).
  - vm_compute. reflexivity.
  - lia.
  - reflexivity.
  - reflexivity.
Defined.

Lemma auto_respects_anchor_keyed_exclusions_witness :
  let r := {| Anchor := "Jacques vd Berg"; Gunner := "B2"; CH_Diff := 0;
              Pair_Combined_Score := 9 + 3; Constraint := "AUTO" |} in
  let r' := {| Anchor := "A2"; Gunner := "Gerdus Theron"; CH_Diff := 0;
               Pair_Combined_Score := 4 + 8; Constraint := "AUTO" |} in
  (generate_pairings ∅ barred_scores barred_anchors barred_gunners = Some (Exact, [r; r'])
   ∧ EXCLUSIONS !! "Jacques vd Berg"
     = Some ["Gerdus Theron"; "Frank Coetzee"; "Marcelle Smith"])
  ∧ "B2" ∉ default [] (EXCLUSIONS !! "Jacques vd Berg").
Proof.
  intros r r'.
  split; [split; vm_compute; reflexivity|].
  apply (V1_facts.auto_respects_anchor_keyed_exclusions
           ∅ barred_scores barred_anchors barred_gunners Exact [r; r'] r).
  - vm_compute. reflexivity.
  - by left.
  - reflexivity.
Defined.

End V1_more.

(** ** More on generate_pairings_v2.py *)
Module V2_more.
Import V2.

(** X7: the pairing score does not depend on the order of the two
    players. *)
Theorem pairing_score_symmetric (player1 player2 : Player) :
  (calculate_pairing_score player1 player2
   == calculate_pairing_score player2 player1)%Q.
Proof.
  unfold calculate_pairing_score.
  rewrite (Qabs_Qminus (hi player2) (hi player1)).
  rewrite (Z.add_comm (from_option matches 0%Z (matchplay player2))).
  set (spread := Qabs (hi player1 - hi player2)).
  set (bonus := Qmin _ 1).
  destruct (Qle_bool 5 spread && Qle_bool spread 15);
    [|destruct (Qle_bool 3 spread && Qle_bool spread 20)]; cbv zeta; clearbody bonus; field.
Qed.

(** The solution of the [while] loop extends [selected] by pairs out of
    [remaining] and stops at [pairs_needed]. *)
Lemma greedy_balanced_loop_bound fuel pairs_needed selected used remaining sol :
  greedy_balanced_loop fuel pairs_needed selected used remaining = Some sol →
  (Z.of_nat (length sol) <= Z.max pairs_needed (Z.of_nat (length selected)))%Z
  ∧ ∀ t, t ∈ sol → t ∈ selected ∨ t ∈ remaining.
Proof.
  revert selected used remaining.
  induction fuel as [|fuel IH]; intros selected used remaining.
  { cbn [greedy_balanced_loop]. case_bool_decide.
    - destruct remaining; [|done]. intros [= <-]. split; [lia|by left].
    - intros [= <-]. split; [lia|by left]. }
  cbn [greedy_balanced_loop]. case_bool_decide as Hlt;
    [|intros [= <-]; split; [lia|by left]].
  destruct remaining as [|r rest] eqn:Hrem; [intros [= <-]; split; [lia|by left]|].
  rewrite <-Hrem in *.
  destruct (filter (free_of used) remaining) as [|v valid] eqn:Hvalid;
    [intros [= <-]; split; [lia|by left]|].
  rewrite <-Hvalid.
  destruct (filter (free_of used) remaining !! _) as [[[p1 p2] score]|] eqn:Hpick;
    [|done].
  intros [Hlen Hsub]%IH.
  rewrite length_app in Hlen. simpl in Hlen. split; [lia|].
  intros t [Ht|Ht]%Hsub.
  - apply elem_of_app in Ht as [Ht | ->%list_elem_of_singleton]; [by left|].
    right. apply list_elem_of_lookup_2 in Hpick.
    by apply list_elem_of_filter in Hpick as [_ ?].
  - right. by apply list_elem_of_filter in Ht as [_ ?].
Qed.

Lemma pure_greedy_loop_bound pairs_needed selected used available :
  let sol := pure_greedy_loop pairs_needed selected used available in
  (Z.of_nat (length sol)
   <= Z.max pairs_needed (Z.of_nat (S (length selected))))%Z
  ∧ ∀ t, t ∈ sol → t ∈ selected ∨ t ∈ available.
Proof.
  revert selected used.
  induction available as [|[[p1 p2] score] rest IH]; intros selected used; simpl.
  { split; [lia|by left]. }
  destruct (decide (free_of used (p1, p2, score))) as [Hfree|].
  - case_bool_decide as Hfull.
    + rewrite length_app. simpl. split; [lia|].
      intros t [Ht | ->%list_elem_of_singleton]%elem_of_app; [by left|].
      right. by left.
    + rewrite length_app in Hfull. simpl in Hfull.
      destruct (IH (selected ++ [(p1, p2, score)])
                  ({[name p2]} ∪ ({[name p1]} ∪ used))) as [Hlen Hsub].
      rewrite length_app in Hlen. simpl in Hlen. split; [lia|].
      intros t [Ht|Ht]%Hsub.
      * apply elem_of_app in Ht as [Ht | ->%list_elem_of_singleton]; [by left|].
        right. by left.
      * right. by right.
  - destruct (IH selected used) as [Hlen Hsub]. split; [lia|].
    intros t [Ht|Ht]%Hsub; [by left|]. right. by right.
Qed.

Lemma balanced_bound pairs_needed available balanced :
  (0 < pairs_needed)%Z →
  find_balanced_pairings pairs_needed available = Some balanced →
  (Z.of_nat (length balanced) <= pairs_needed)%Z
  ∧ ∀ t, t ∈ balanced → t ∈ available.
Proof.
  intros Hpos Hfind.
  destruct (V2_facts.find_balanced_pairings_spec pairs_needed available Hpos)
    as (solution & chosen & Hsol & Hchosen & Hcase).
  rewrite Hfind in Hchosen. injection Hchosen as <-.
  destruct Hcase as [->| ->].
  - apply greedy_balanced_loop_bound in Hsol as [Hlen Hsub]. simpl in Hlen.
    split; [lia|]. intros t [Ht|Ht]%Hsub; [by apply elem_of_nil in Ht|done].
  - destruct (pure_greedy_loop_bound pairs_needed [] ∅ available) as [Hlen Hsub].
    simpl in Hlen. split; [unfold pure_greedy; lia|].
    intros t [Ht|Ht]%Hsub; [by apply elem_of_nil in Ht|done].
Qed.

Section More.
Variable top_players : list Player.

Abbreviation apply_constraints := (apply_constraints top_players).
Abbreviation all_possible_pairs := (all_possible_pairs top_players).
Abbreviation generate_pairings := (generate_pairings top_players).

Lemma constraint_pairs_scored t :
  t ∈ best_pairings apply_constraints →
  t.1.1 ∈ top_players ∧ t.1.2 ∈ top_players
  ∧ t.2 = calculate_pairing_score t.1.1 t.1.2.
Proof.
  intros Ht.
  destruct (V2_facts.constraints_chosen_inv top_players) as (_ & _ & Hroster).
  destruct (Hroster t Ht) as [H1 H2]. split; [done|]. split; [done|].
  revert Ht. unfold V2.apply_constraints.
  set (st := foldl _ _ _).
  assert (Hst : ∀ t, t ∈ best_pairings st → t.2 = calculate_pairing_score t.1.1 t.1.2).
  { unfold st, required_pairings. simpl. unfold required_step.
    destruct (find_player top_players "Greg Park") as [p1|];
      [destruct (find_player top_players "Hugo Lamprecht") as [p2|]|]; simpl;
      intros t' Ht'; try (by apply elem_of_nil in Ht').
    by apply list_elem_of_singleton in Ht' as ->. }
  destruct (V2_facts.matt_constraint_spec top_players matt_options st)
    as [(i & opt & p1 & p2 & score & _ & _ & _ & _ & _ & Hscore & _ & _ & _ & Hbest & _)
       |(_ & Hbest & _)]; rewrite Hbest.
  - intros [Ht | ->%list_elem_of_singleton]%elem_of_app; [by apply Hst|done].
  - apply Hst.
Qed.

(** The shape of every run that yields output. *)
Lemma run_shape out :
  generate_pairings = Some out →
  ∃ balanced,
    pairings out = sort_desc snd (best_pairings apply_constraints ++ balanced)
    ∧ rows out = imap (λ i pr, make_row (S i) pr) (pairings out)
    ∧ (length (best_pairings apply_constraints ++ balanced) ≤ 12)%nat
    ∧ ∀ t, t ∈ balanced → t ∈ all_possible_pairs apply_constraints.
Proof.
  intros Hgen.
  destruct (V2_facts.generate_pairings_spec top_players out Hgen)
    as (solution & balanced & _ & Hbal & _ & Hpairs & Hrows & _).
  pose proof (V2_facts.apply_constraints_length top_players) as Hlen.
  apply balanced_bound in Hbal as [Hb Hsub]; [|lia].
  exists balanced. split_and!; [done..| |done].
  rewrite length_app. unfold Scored in *. lia.
Qed.

(** X8: the run yields its output exactly on rosters of at least two
    players: on an empty roster it ends in the [IndexError] of line 253, on
    a single player in the [ZeroDivisionError] of line 522.  The output holds
    at least one and never more than twelve pairs; the CSV rows number them
    from 1 in list order, the first eight are marked PLAY and the others
    RESERVE. *)
Theorem at_most_twelve_pairs :
  (generate_pairings = None ↔ (length top_players < 2)%nat)
  ∧ ∀ out, generate_pairings = Some out →
      (1 ≤ length (pairings out) ≤ 12)%nat
      ∧ length (rows out) = length (pairings out)
      ∧ ∀ i r, rows out !! i = Some r →
          Pair r = S i
          ∧ ((i < 8)%nat → Status r = "PLAY")
          ∧ ((8 ≤ i)%nat → Status r = "RESERVE").
Proof.
  split; [apply V2_facts.generate_pairings_None|].
  intros out Hgen.
  destruct (run_shape out Hgen) as (balanced & Hpairs & Hrows & Hlen & _).
  split.
  { split.
    - pose proof (V2_facts.generate_pairings_some_pair top_players out Hgen).
      destruct (pairings out); [done|simpl; lia].
    - rewrite Hpairs, (sort_desc_perm snd). done. }
  split; [by rewrite Hrows, length_imap|].
  intros i r. rewrite Hrows, list_lookup_imap.
  destruct (pairings out !! i) as [[[p1 p2] score]|]; [|done]. simpl.
  intros [= <-]. unfold make_row.
  destruct (Qle_bool (hi p1) (hi p2)); simpl.
  - split; [done|]. split; intros Hi.
    + destruct i as [|i]; [done|].
      by destruct (Nat.leb_spec (S i) 7) as [_|?]; [|lia].
    + destruct i as [|i]; [lia|].
      by destruct (Nat.leb_spec (S i) 7) as [?|_]; [lia|].
  - split; [done|]. split; intros Hi.
    + destruct i as [|i]; [done|].
      by destruct (Nat.leb_spec (S i) 7) as [_|?]; [|lia].
    + destruct i as [|i]; [lia|].
      by destruct (Nat.leb_spec (S i) 7) as [?|_]; [lia|].
Qed.

(** X11: on a roster of at least two players the run yields its output,
    and every pair of the output joins two players of the roster and carries
    the pairing score of exactly these two, whether it was fixed by a
    constraint or picked by the balance heuristic. *)
Theorem every_pair_carries_its_pairing_score :
  (2 ≤ length top_players)%nat →
  ∃ out, generate_pairings = Some out
    ∧ ∀ t, t ∈ pairings out →
        t.1.1 ∈ top_players ∧ t.1.2 ∈ top_players
        ∧ t.2 = calculate_pairing_score t.1.1 t.1.2.
Proof.
  intros Hroster.
  destruct (V2_facts.generate_pairings_returns top_players Hroster) as [out Hgen].
  destruct (run_shape out Hgen) as (balanced & Hpairs & _ & _ & Hsub).
  exists out. split; [done|]. intros t. rewrite Hpairs, (sort_desc_perm snd).
  intros [Ht|Ht]%elem_of_app.
  - by apply constraint_pairs_scored.
  - apply Hsub, V2_facts.all_possible_pairs_spec in Ht. tauto.
Qed.

End More.

Lemma every_pair_carries_its_pairing_score_witness :
  ∃ out, generate_pairings small_roster = Some out
    ∧ ∀ t, t ∈ pairings out →
        t.1.1 ∈ small_roster ∧ t.1.2 ∈ small_roster
        ∧ t.2 = calculate_pairing_score t.1.1 t.1.2.
Proof. apply (every_pair_carries_its_pairing_score small_roster). simpl. lia. Defined.

End V2_more.

(** *** What the balance heuristic leaves over *)
Module V2_max.
Import V2.

(** X12: when the balance heuristic returns fewer pairs than asked for,
    its selection cannot be extended: every candidate pair shares a player
    with a selected pair. *)
Theorem short_selection_is_maximal (pairs_needed : Z) (available_pairs : list Scored)
    (chosen : list Scored) :
  (0 < pairs_needed)%Z →
  find_balanced_pairings pairs_needed available_pairs = Some chosen →
  (Z.of_nat (length chosen) < pairs_needed)%Z →
  ∀ t, t ∈ available_pairs →
    name t.1.1 ∈ names_of chosen ∨ name t.1.2 ∈ names_of chosen.
Proof.
  intros Hpos Hfind Hshort t Ht.
  destruct (V2_facts.find_balanced_pairings_spec pairs_needed available_pairs Hpos)
    as (solution & chosen' & Hsol & Hchosen & Hcase).
  rewrite Hfind in Hchosen. injection Hchosen as <-.
  destruct Hcase as [->| ->].
  - eapply (V2_facts.greedy_balanced_loop_maximal available_pairs);
      [exact Hsol| | |done..].
    + by left.
    + by intros x ?%elem_of_empty.
  - apply (V2_facts.pure_greedy_loop_maximal pairs_needed [] ∅ available_pairs);
      [by intros x ?%elem_of_empty|done|by left].
Qed.

(** X13: [greedy_balanced] always returns: its [while] loop ends, and the
    index it computes is within the list of valid pairs.  The pairs it
    returns are candidates, no more than were asked for, and pairwise
    disjoint when no candidate pairs a name with itself. *)
Theorem greedy_balanced_returns (pairs_needed : Z) (available_pairs : list Scored) :
  ∃ solution, greedy_balanced pairs_needed available_pairs = Some solution
    ∧ (Z.of_nat (length solution) <= Z.max pairs_needed 0)%Z
    ∧ (∀ t, t ∈ solution → t ∈ available_pairs)
    ∧ ((∀ t, t ∈ available_pairs → name t.1.1 ≠ name t.1.2) →
       NoDup (names_of solution)).
Proof.
  destruct (V2_facts.greedy_balanced_spec pairs_needed available_pairs)
    as (solution & Hsol & Hsel).
  exists solution. split; [done|].
  destruct (V2_more.greedy_balanced_loop_bound _ _ _ _ _ _ Hsol) as [Hlen Hsub].
  split; [exact Hlen|]. split.
  - intros t [Ht|Ht]%Hsub; [by apply elem_of_nil in Ht|done].
  - intros Hdist. destruct (Hsel Hdist) as (used & Hnd & _). done.
Qed.

(** X14: the balance heuristic raises exactly when it is asked for no
    pairs: the empty solution is then not too short, and its average divides
    by zero.  Asked for at least one pair it always returns. *)
Theorem balance_heuristic_fails_iff_no_pairs_needed
    (pairs_needed : Z) (available_pairs : list Scored) :
  find_balanced_pairings pairs_needed available_pairs = None
  ↔ (pairs_needed <= 0)%Z.
Proof.
  split.
  - intros Hnone. destruct (decide (0 < pairs_needed)%Z) as [Hpos|]; [|lia].
    destruct (V2_facts.find_balanced_pairings_spec pairs_needed available_pairs Hpos)
      as (? & chosen & _ & Hsome & _). congruence.
  - intros Hle. unfold find_balanced_pairings, greedy_balanced.
    assert (Hloop : ∀ fuel used remaining,
              greedy_balanced_loop fuel pairs_needed [] used remaining = Some []).
    { intros [|fuel] used remaining; cbn [greedy_balanced_loop];
        case_bool_decide as Hlt; try done; simpl in Hlt; lia. }
    assert (Heval : evaluate pairs_needed [] = None).
    { unfold evaluate. rewrite bool_decide_eq_false_2 by (simpl; lia). done. }
    rewrite Hloop. simpl. unfold prefer. by rewrite Heval.
Qed.

Lemma short_selection_is_maximal_witness :
  let a := unrated "Xander" 4 12 in
  let b := unrated "Yusuf" 3 14 in
  name a ∈ names_of [(a, b, 1%Q)] ∨ name b ∈ names_of [(a, b, 1%Q)].
Proof.
  intros a b.
  apply (short_selection_is_maximal 2 [(a, b, 1%Q)] [(a, b, 1%Q)]) with (t := (a, b, 1%Q)).
  - lia.
  - vm_compute. reflexivity.
  - simpl. lia.
  - apply list_elem_of_here.
Defined.

Section Run.
Variable top_players : list Player.

Abbreviation apply_constraints := (apply_constraints top_players).
Abbreviation all_possible_pairs := (all_possible_pairs top_players).
Abbreviation generate_pairings := (generate_pairings top_players).

(** X15: on a roster of at least two players the run yields its output,
    and when that holds fewer than twelve pairs it has paired everybody it
    could: of any two players of the roster with different names, at least
    one is in a pair, so at most one player is left over. *)
Theorem short_output_leaves_at_most_one_player :
  (2 ≤ length top_players)%nat →
  ∃ out, generate_pairings = Some out
    ∧ ((length (pairings out) < 12)%nat →
       ∀ p q, p ∈ top_players → q ∈ top_players → name p ≠ name q →
         name p ∈ names_of (pairings out) ∨ name q ∈ names_of (pairings out)).
Proof.
  intros Hroster.
  destruct (V2_facts.generate_pairings_returns top_players Hroster) as [out Hgen].
  destruct (V2_facts.generate_pairings_spec top_players out Hgen)
    as (solution & balanced & _ & Hbal & _ & Hpairs & _).
  exists out. split; [done|]. intros Hshort p q Hp Hq Hne.
  assert (Hperm : names_of (pairings out)
                  ≡ₚ names_of (best_pairings apply_constraints) ++ names_of balanced).
  { rewrite Hpairs, <-V2_facts.scored_names_app.
    apply V2_facts.scored_names_perm, (sort_desc_perm snd). }
  rewrite Hperm, !elem_of_app.
  destruct (decide (name p ∈ used_players apply_constraints)) as [Hpu|Hpu];
    [left; left; by apply V2_facts.used_players_are_paired|].
  destruct (decide (name q ∈ used_players apply_constraints)) as [Hqu|Hqu];
    [right; left; by apply V2_facts.used_players_are_paired|].
  assert (Hlen : length (pairings out)
                 = (length (best_pairings apply_constraints) + length balanced)%nat).
  { by rewrite Hpairs, (sort_desc_perm snd), length_app. }
  pose proof (V2_facts.apply_constraints_length top_players) as Hbest.
  assert (p ≠ q) as Hpq by congruence.
  assert (∃ t, t ∈ all_possible_pairs apply_constraints
               ∧ ((t.1.1 = p ∧ t.1.2 = q) ∨ (t.1.1 = q ∧ t.1.2 = p)))
    as (t & Ht & Hnames).
  { unfold V2.all_possible_pairs.
    destruct (V2_facts.combinations2_complete
                (filter (λ p, name p ∉ used_players apply_constraints) top_players)
                p q) as [Hin|Hin]; [by apply list_elem_of_filter..|done| |].
    - exists (p, q, calculate_pairing_score p q). split; [|by left].
      rewrite (sort_desc_perm snd).
      by apply (list_elem_of_fmap_2
                  (λ pq, (pq.1, pq.2, calculate_pairing_score pq.1 pq.2)) _ (p, q)).
    - exists (q, p, calculate_pairing_score q p). split; [|by right].
      rewrite (sort_desc_perm snd).
      by apply (list_elem_of_fmap_2
                  (λ pq, (pq.1, pq.2, calculate_pairing_score pq.1 pq.2)) _ (q, p)). }
  assert (0 < 12 - Z.of_nat (length (best_pairings apply_constraints)))%Z
    as Hpos by lia.
  assert (Z.of_nat (length balanced)
          < 12 - Z.of_nat (length (best_pairings apply_constraints)))%Z
    as Hfew by (unfold Scored in *; lia).
  destruct (V2_facts.find_balanced_pairings_maximal _ _ _ Hpos Hbal Hfew t Ht) as [Hm|Hm];
    destruct Hnames as [[H1 H2]|[H1 H2]]; rewrite ?H1, ?H2 in Hm; auto.
Qed.

End Run.

Lemma short_output_leaves_at_most_one_player_witness :
  ∃ out, generate_pairings small_roster = Some out
    ∧ ((length (pairings out) < 12)%nat →
       ∀ p q, p ∈ small_roster → q ∈ small_roster → name p ≠ name q →
         name p ∈ names_of (pairings out) ∨ name q ∈ names_of (pairings out)).
Proof. apply (short_output_leaves_at_most_one_player small_roster). simpl. lia. Defined.

End V2_max.

(** ** The allocation of the third and the fourth script *)
Section Allocation.
Context {A : Type} (can_play_home : A → bool) (pair_cvs : A → Q).

(** X16: the allocation keeps every pair, once.  When at least four pairs
    are home-eligible, the HOME positions hold home-eligible pairs only.
    When fewer are, the home-eligible pairs stand in the leading positions
    and every position after them, HOME or AWAY, holds an away-only pair. *)
Theorem home_positions_hold_eligible_pairs (pairings : list A) :
  let eligible := filter (λ p, can_play_home p = true) pairings in
  let final := home_first can_play_home pair_cvs pairings in
  final ≡ₚ pairings
  ∧ ((4 ≤ length eligible)%nat →
     ∀ i p, final !! i = Some p → location (S i) = "HOME" → can_play_home p = true)
  ∧ ((length eligible < 4)%nat →
     ∀ i p, final !! i = Some p →
       (can_play_home p = true ↔ (i < length eligible)%nat)).
Proof.
  intros eligible final.
  split; [apply home_first_perm|]. split.
  - intros Hlen i p Hp Hloc%location_home.
    apply (home_first_leading_eligible pair_cvs can_play_home pairings i p);
      [done|lia|done].
  - intros Hlen i p Hp. unfold final, home_first in Hp.
    set (home := sort_desc pair_cvs (filter (λ p, can_play_home p = true) pairings))
      in *.
    assert (Hhome : length home = length eligible)
      by apply Permutation_length, sort_desc_perm.
    rewrite take_ge, drop_ge, (right_id_L [] (++)) in Hp by lia.
    apply lookup_app_Some in Hp as [Hp|[Hge Hp]].
    + pose proof (lookup_lt_Some _ _ _ Hp) as Hi.
      apply list_elem_of_lookup_2 in Hp. unfold home in Hp.
      rewrite (sort_desc_perm pair_cvs) in Hp.
      apply list_elem_of_filter in Hp as [Hcan _]. split; [lia|done].
    + apply list_elem_of_lookup_2 in Hp. rewrite (sort_desc_perm pair_cvs) in Hp.
      apply list_elem_of_filter in Hp as [Hcan _]. split; [done|lia].
Qed.

End Allocation.

(** ** More on generate_pairings_v3.py *)
Module V3_more.
Import V3.

Lemma find_selected_Some name' (l : list Player) p :
  find_player name' l = Some p → name p = name' ∧ p ∈ l.
Proof.
  unfold find_player. intros Hhd.
  apply head_Some_elem_of, list_elem_of_filter in Hhd. tauto.
Qed.

Lemma names_of_pairs_app l k : names_of (l ++ k) = names_of l ++ names_of k.
Proof. unfold names_of. by rewrite fmap_app, pair_names_app. Qed.

Lemma names_of_pairs_perm l k : l ≡ₚ k → names_of l ≡ₚ names_of k.
Proof. unfold names_of, pair_names. by intros ->. Qed.

Lemma submseteq_NoDup {A} (l k : list A) : l ⊆+ k → NoDup k → NoDup l.
Proof.
  intros (k' & Hk)%submseteq_Permutation. rewrite Hk.
  by intros (? & _)%NoDup_app.
Qed.

Lemma StronglySorted_take_drop {A} (R : relation A) (l : list A) n x y :
  StronglySorted R l → x ∈ take n l → y ∈ drop n l → R x y.
Proof.
  intros Hs Hx Hy. rewrite <-(take_drop n l) in Hs.
  by eapply StronglySorted_app_1_elem_of.
Qed.

Section More.
Variable selected : list Player.

Abbreviation sorted_selected := (sorted_selected selected).
Abbreviation required_step := (required_step selected).
Abbreviation apply_required := (apply_required selected).
Abbreviation auto_pairings := (auto_pairings selected).
Abbreviation generate_pairings := (generate_pairings selected).

Abbreviation well_formed := (well_formed selected).
Abbreviation paired_inv := (paired_inv selected).

Lemma required_step_paired_inv st (seen : gset string) name1 name2 :
  paired_inv st → used_players st ⊆ seen →
  name1 ∉ seen → name2 ∉ seen → name1 ≠ name2 →
  paired_inv (required_step st (name1, name2))
  ∧ used_players (required_step st (name1, name2)) ⊆ {[name1; name2]} ∪ seen.
Proof.
  intros (Hnd & Hused & Hwf) Hseen H1 H2 Hne. unfold V3.required_step.
  destruct (find_player name1 sorted_selected) as [p1|] eqn:Hf1;
    [destruct (find_player name2 sorted_selected) as [p2|] eqn:Hf2|];
    [|split; [done|set_solver]..].
  apply find_selected_Some in Hf1 as [Hn1 Hp1], Hf2 as [Hn2 Hp2].
  unfold V3.sorted_selected in Hp1, Hp2. rewrite (sort_asc_perm hi) in Hp1, Hp2.
  assert (name1 ∉ names_of (pairings st)) by (intros ?%Hused; set_solver).
  assert (name2 ∉ names_of (pairings st)) by (intros ?%Hused; set_solver).
  destruct (Qlt_le_dec (hi p1) (hi p2)) as [Hlt|Hle];
    unfold V3.paired_inv; cbn [pairings used_players warnings].
  - split; [|set_solver]. split_and!.
    + rewrite names_of_pairs_app. apply NoDup_app. split; [done|].
      unfold names_of, pair_names. simpl. rewrite Hn1, Hn2. split.
      * intros x Hx. set_solver.
      * apply NoDup_cons. split; [set_solver|]. apply NoDup_singleton.
    + intros x. rewrite names_of_pairs_app, elem_of_app.
      unfold names_of at 2, pair_names. simpl. set_solver.
    + apply Forall_app. split; [done|]. apply Forall_singleton.
      unfold V3.well_formed. simpl. split_and!; auto. lra.
  - split; [|set_solver]. split_and!.
    + rewrite names_of_pairs_app. apply NoDup_app. split; [done|].
      unfold names_of, pair_names. simpl. rewrite Hn1, Hn2. split.
      * intros x Hx. set_solver.
      * apply NoDup_cons. split; [set_solver|]. apply NoDup_singleton.
    + intros x. rewrite names_of_pairs_app, elem_of_app.
      unfold names_of at 2, pair_names. simpl. set_solver.
    + apply Forall_app. split; [done|]. apply Forall_singleton.
      unfold V3.well_formed. simpl. split_and!; auto.
Qed.

Lemma required_fold_paired_inv required st (seen : gset string) :
  paired_inv st → used_players st ⊆ seen →
  NoDup (pair_names required) →
  (∀ n, n ∈ pair_names required → n ∉ seen) →
  paired_inv (foldl required_step st required).
Proof.
  revert st seen. induction required as [|[name1 name2] required IH];
    intros st seen Hinv Hseen Hnd Hfresh; [done|].
  simpl. unfold pair_names in Hnd, Hfresh. simpl in Hnd, Hfresh.
  apply NoDup_cons in Hnd as [Hn1 Hnd]. apply NoDup_cons in Hnd as [Hn2 Hnd].
  destruct (required_step_paired_inv st seen name1 name2) as [Hinv' Hseen'];
    [done|done|apply Hfresh; set_solver|apply Hfresh; set_solver|set_solver|].
  apply (IH _ ({[name1; name2]} ∪ seen)); [done..|].
  intros n Hn. specialize (Hfresh n). set_solver.
Qed.

Lemma apply_required_inv : paired_inv apply_required.
Proof.
  apply (required_fold_paired_inv _ _ ∅); [|done| |set_solver].
  - split_and!; [constructor|by intros ? ?%elem_of_nil|constructor].
  - apply (bool_decide_unpack _). vm_compute. exact I.
Qed.

Lemma auto_names (l : list Player) (k : list Player) :
  (λ p, (name (anchor p), name (gunner p)))
    <$> ((λ ag, make_pairing ag.1 ag.2 "AUTO") <$> zip l k)
  = zip (name <$> l) (name <$> k).
Proof.
  revert k. induction l as [|a l IH]; intros [|g k]; simpl; try done.
  f_equal. apply IH.
Qed.

Lemma auto_pairings_elem st p :
  p ∈ auto_pairings st →
  let remaining :=
    sort_asc hi (filter (λ p, name p ∉ used_players st) sorted_selected) in
  ∃ a g, p = make_pairing a g "AUTO"
    ∧ a ∈ take (length remaining / 2) remaining
    ∧ g ∈ drop (length remaining / 2) remaining.
Proof.
  intros Hp remaining. unfold V3.auto_pairings in Hp. fold remaining in Hp.
  apply list_elem_of_fmap in Hp as ([a g] & -> & Hag).
  exists a, g. split; [done|].
  pose proof (elem_of_zip_l _ _ _ _ Hag) as Ha.
  pose proof (elem_of_zip_r _ _ _ _ Hag) as Hg.
  pose proof (elem_of_sublist _ _ _ Ha (sublist_take _ _)) as Ha'.
  pose proof (elem_of_sublist _ _ _ Hg (sublist_take _ _)) as Hg'.
  rewrite (sort_desc_perm cvs_or_0) in Ha', Hg'. done.
Qed.

Lemma remaining_selected st p :
  p ∈ sort_asc hi (filter (λ p, name p ∉ used_players st) sorted_selected) →
  p ∈ selected ∧ name p ∉ used_players st.
Proof.
  rewrite (sort_asc_perm hi). intros [Hu Hp]%list_elem_of_filter.
  unfold V3.sorted_selected in Hp. by rewrite (sort_asc_perm hi) in Hp.
Qed.

Lemma auto_pairings_well_formed st p :
  p ∈ auto_pairings st →
  well_formed p ∧ (name (anchor p) ∉ used_players st)
  ∧ (name (gunner p) ∉ used_players st).
Proof.
  intros (a & g & -> & Ha & Hg)%auto_pairings_elem.
  pose proof (StronglySorted_take_drop _ _ _ a g (sort_asc_sorted hi _) Ha Hg) as Hle.
  pose proof (elem_of_sublist _ _ _ Ha (sublist_take _ _)) as Ha'.
  pose proof (elem_of_sublist _ _ _ Hg (sublist_drop _ _)) as Hg'.
  apply remaining_selected in Ha' as [? ?], Hg' as [? ?].
  unfold V3.well_formed. simpl. split_and!; auto.
Qed.

Lemma auto_pairings_NoDup st :
  NoDup (name <$> selected) → NoDup (names_of (auto_pairings st)).
Proof.
  intros Hnd. unfold names_of, V3.auto_pairings.
  set (remaining := sort_asc hi (filter _ sorted_selected)).
  rewrite auto_names.
  assert (NoDup (name <$> remaining)) as Hrem.
  { unfold remaining. rewrite (sort_asc_perm hi).
    refine (sublist_NoDup _ _ _ (fmap_sublist _ _ _ (sublist_filter _ _))).
    unfold V3.sorted_selected. by rewrite (sort_asc_perm hi). }
  rewrite <-(take_drop (length remaining / 2) remaining), fmap_app in Hrem.
  apply NoDup_app in Hrem as (Hnda & Hdisj & Hndg).
  set (k := Z.to_nat _).
  assert (Hsa : name <$> take k (sort_desc cvs_or_0 (take (length remaining / 2) remaining))
                ⊆+ name <$> take (length remaining / 2) remaining).
  { apply fmap_submseteq. etrans; [apply sublist_submseteq, sublist_take|].
    by rewrite (sort_desc_perm cvs_or_0). }
  assert (Hsg : name <$> take k (sort_desc cvs_or_0 (drop (length remaining / 2) remaining))
                ⊆+ name <$> drop (length remaining / 2) remaining).
  { apply fmap_submseteq. etrans; [apply sublist_submseteq, sublist_take|].
    by rewrite (sort_desc_perm cvs_or_0). }
  apply pair_names_NoDup.
  - refine (sublist_NoDup _ _ _ (zip_fst_sublist _ _)).
    by eapply submseteq_NoDup.
  - refine (sublist_NoDup _ _ _ (zip_snd_sublist _ _)).
    by eapply submseteq_NoDup.
  - intros x Hx Hx'.
    apply (Hdisj x).
    + eapply elem_of_submseteq; [|exact Hsa]. 
      eapply elem_of_sublist; [exact Hx|apply zip_fst_sublist].
    + eapply elem_of_submseteq; [|exact Hsg].
      eapply elem_of_sublist; [exact Hx'|apply zip_snd_sublist].
Qed.

(** Every run on a selection that is not empty. *)
Lemma run_well_formed :
  selected ≠ [] →
  ∃ out, generate_pairings = Some out
    ∧ (∀ p, p ∈ final_pairings out → well_formed p)
    ∧ (NoDup (name <$> selected) → NoDup (names_of (final_pairings out))).
Proof.
  intros Hne.
  destruct (V3_facts.generate_pairings_outcome selected Hne)
    as (out & Hgen & Hperm & _).
  exists out. split; [done|].
  destruct apply_required_inv as (Hreq & Hused & Hwf). split.
  - intros p. rewrite Hperm. intros [Hp|Hp]%elem_of_app.
    + rewrite Forall_forall in Hwf. by apply Hwf.
    + by apply auto_pairings_well_formed in Hp as [? _].
  - intros Hnd.
    rewrite (names_of_pairs_perm _ _ Hperm), names_of_pairs_app.
    apply NoDup_app. split; [done|]. split; [|by apply auto_pairings_NoDup].
    intros x Hx%Hused Hauto.
    unfold names_of in Hauto. apply elem_of_pair_names in Hauto.
    rewrite <-!list_fmap_compose in Hauto.
    destruct Hauto as [(p & -> & Hp)%list_elem_of_fmap|(p & -> & Hp)%list_elem_of_fmap];
      apply auto_pairings_well_formed in Hp as (_ & ? & ?); done.
Qed.

(** X17: with pairwise different names in the selection, no player is in
    two pairs of the third script's output. *)
Theorem third_script_each_player_once :
  NoDup (name <$> selected) → selected ≠ [] →
  ∃ out, generate_pairings = Some out
    ∧ NoDup (names_of (final_pairings out)).
Proof.
  intros Hnd Hne.
  destruct (run_well_formed Hne) as (out & Hgen & _ & Hunique).
  exists out. auto.
Qed.

(** X18: every pair of the third script joins two selected players, the
    one of lower (or equal) handicap index as anchor, is tagged REQUIRED or
    AUTO, and carries the sum of the two value scores and the conjunction of
    the two home flags. *)
Theorem third_script_pairs_well_formed :
  selected ≠ [] →
  ∃ out, generate_pairings = Some out
    ∧ ∀ p, p ∈ final_pairings out →
        anchor p ∈ selected ∧ gunner p ∈ selected
        ∧ (hi (anchor p) <= hi (gunner p))%Q
        ∧ pair_cvs p = (cvs_or_0 (anchor p) + cvs_or_0 (gunner p))%Q
        ∧ pair_can_play_home p
          = can_play_home (anchor p) && can_play_home (gunner p)
        ∧ (constraint p = "REQUIRED" ∨ constraint p = "AUTO").
Proof.
  intros Hne.
  destruct (run_well_formed Hne) as (out & Hgen & Hwf & _).
  exists out. split; [done|]. intros p (? & ? & ? & Hmk & ?)%Hwf.
  split_and!; try done; by rewrite Hmk.
Qed.

(** X20: the third script writes at most eight rows, numbered from 1 in
    the order of the final pairings; a row names the anchor and the gunner
    of its pairing, and exactly the rows 1 to 4 are HOME. *)
Theorem third_script_rows :
  selected ≠ [] →
  ∃ out, generate_pairings = Some out
    ∧ (length (rows out) ≤ 8)%nat
    ∧ length (rows out) = length (final_pairings out)
    ∧ ∀ i r, rows out !! i = Some r →
        ∃ p, final_pairings out !! i = Some p
          ∧ Pair r = S i
          ∧ Anchor r = name (anchor p) ∧ Gunner r = name (gunner p)
          ∧ (Location r = "HOME" ↔ (i < 4)%nat).
Proof.
  intros Hne.
  destruct (V3_facts.generate_pairings_outcome selected Hne)
    as (out & Hgen & _ & Hrows & _).
  exists out. split; [done|].
  destruct (V3_facts.at_most_eight_pairs selected out Hgen) as [Hlen Heq].
  split; [done|]. split; [done|].
  intros i r. rewrite Hrows, list_lookup_imap.
  destruct (final_pairings out !! i) as [p|]; [|done]. simpl.
  intros [= <-]. exists p. split; [done|]. simpl. split_and!; try done.
  rewrite location_home. lia.
Qed.

End More.

Lemma third_script_each_player_once_witness :
  ∃ out, generate_pairings without_hugo = Some out
    ∧ NoDup (names_of (final_pairings out)).
Proof.
  apply (third_script_each_player_once without_hugo).
  - apply (bool_decide_unpack _). vm_compute. exact I.
  - discriminate.
Defined.

Lemma third_script_pairs_well_formed_witness :
  ∃ out, generate_pairings without_hugo = Some out
    ∧ ∀ p, p ∈ final_pairings out →
        anchor p ∈ without_hugo ∧ gunner p ∈ without_hugo
        ∧ (hi (anchor p) <= hi (gunner p))%Q
        ∧ pair_cvs p = (cvs_or_0 (anchor p) + cvs_or_0 (gunner p))%Q
        ∧ pair_can_play_home p
          = can_play_home (anchor p) && can_play_home (gunner p)
        ∧ (constraint p = "REQUIRED" ∨ constraint p = "AUTO").
Proof.
  apply (third_script_pairs_well_formed without_hugo). discriminate.
Defined.

Lemma third_script_rows_witness :
  ∃ out, generate_pairings without_hugo = Some out
    ∧ (length (rows out) ≤ 8)%nat
    ∧ length (rows out) = length (final_pairings out)
    ∧ ∀ i r, rows out !! i = Some r →
        ∃ p, final_pairings out !! i = Some p
          ∧ Pair r = S i
          ∧ Anchor r = name (anchor p) ∧ Gunner r = name (gunner p)
          ∧ (Location r = "HOME" ↔ (i < 4)%nat).
Proof.
  apply (third_script_rows without_hugo). discriminate.
Defined.

End V3_more.

(** ** More on generate_pairings_v4.py *)
Module V4_more.
Import V4.

Lemma names_of_matched_app l k : names_of (l ++ k) = names_of l ++ names_of k.
Proof. unfold names_of. by rewrite fmap_app, pair_names_app. Qed.

Lemma names_of_matched_perm l k : l ≡ₚ k → names_of l ≡ₚ names_of k.
Proof. unfold names_of, pair_names. by intros ->. Qed.

Lemma names_of_matched_snoc l a q tag x :
  x ∈ names_of (l ++ [make_pairing a q tag]) ↔
  x ∈ names_of l ∨ x = name a ∨ x = name q.
Proof.
  rewrite names_of_matched_app, elem_of_app. unfold names_of at 2, pair_names.
  simpl. set_solver.
Qed.

Lemma first_unused_Some used candidates p :
  first_unused used candidates = Some p → p ∈ candidates ∧ name p ∉ used.
Proof.
  unfold first_unused. intros Hhd.
  apply head_Some_elem_of, list_elem_of_filter in Hhd. tauto.
Qed.

Lemma first_unused_None used candidates p :
  first_unused used candidates = None → p ∈ candidates → name p ∈ used.
Proof.
  unfold first_unused. intros Hhd Hp.
  destruct (filter _ candidates) as [|x xs] eqn:Hf; [|done].
  destruct (decide (name p ∈ used)) as [|Hn]; [done|].
  destruct (filter_nil_not_elem_of _ _ _ Hf Hn Hp).
Qed.

(** One turn of the pairing loops: the anchor is left out when nobody of
    high handicap is free, and otherwise gets a free partner, who is of the
    preferred kind unless all of that kind are taken. *)
Lemma pair_anchor_shape preferred all_high_hi tag st a :
  (∀ q, q ∈ preferred → q ∈ all_high_hi) →
  (pair_anchor preferred all_high_hi tag st a = st
   ∧ ∀ q, q ∈ all_high_hi → name q ∈ used_players st)
  ∨ ∃ q, q ∈ all_high_hi ∧ (name q ∉ used_players st)
      ∧ pair_anchor preferred all_high_hi tag st a
        = {| pairings := pairings st ++ [make_pairing a q tag];
             used_players := {[name q]} ∪ ({[name a]} ∪ used_players st) |}
      ∧ (q ∈ preferred ∨ ∀ w, w ∈ preferred → name w ∈ used_players st).
Proof.
  intros Hpref. unfold pair_anchor.
  destruct (first_unused (used_players st) preferred) as [q|] eqn:Hp.
  - right. apply first_unused_Some in Hp as [Hq Hu].
    exists q. split_and!; auto.
  - destruct (first_unused (used_players st) all_high_hi) as [q|] eqn:Ha.
    + right. apply first_unused_Some in Ha as [Hq Hu].
      exists q. split_and!; auto. right. intros w Hw.
      by apply (first_unused_None _ preferred).
    + left. split; [done|]. intros q Hq. by apply (first_unused_None _ all_high_hi).
Qed.

Lemma fold_pair_anchor_shape low high preferred all_high_hi tag anchors st :
  (∀ q, q ∈ preferred → q ∈ all_high_hi) →
  (∀ q, q ∈ all_high_hi → q ∈ high) →
  (∀ a, a ∈ anchors → a ∈ low) →
  matched low high st →
  let st' := foldl (pair_anchor preferred all_high_hi tag) st anchors in
  matched low high st'
  ∧ used_players st ⊆ used_players st'
  ∧ ∀ p, p ∈ pairings st' →
      p ∈ pairings st
      ∨ (pairing_type p = tag
         ∧ (gunner p ∈ preferred
            ∨ ∀ w, w ∈ preferred → name w ∈ used_players st')).
Proof.
  intros Hpref Hhigh. revert st.
  induction anchors as [|a anchors IH]; intros st Hlow Hm; simpl.
  { split; [done|]. split; [done|]. by left. }
  assert (Hlow' : ∀ a, a ∈ anchors → a ∈ low) by (intros; apply Hlow; by right).
  destruct (pair_anchor_shape preferred all_high_hi tag st a Hpref)
    as [[-> _]|(q & Hq & Hu & -> & Hkind)]; [by apply IH|].
  set (st1 := {| pairings := _; used_players := _ |}).
  assert (matched low high st1) as Hm1.
  { destruct Hm as [Hused Hwf]. split.
    - intros x Hx. apply names_of_matched_snoc. simpl in Hx.
      apply elem_of_union in Hx as [Hx|Hx]; [set_solver|].
      apply elem_of_union in Hx as [Hx|Hx]; [set_solver|]. left. by apply Hused.
    - apply Forall_app. split; [done|]. apply Forall_singleton. simpl.
      split_and!; [apply Hlow; by left|by apply Hhigh|done]. }
  destruct (IH st1 Hlow' Hm1) as (Hm' & Hsub & Hpairs).
  split; [done|]. split; [etrans; [|exact Hsub]; simpl; set_solver|].
  intros p [Hp|Hp]%Hpairs; [|by right].
  apply elem_of_app in Hp as [Hp | ->%list_elem_of_singleton]; [by left|].
  right. simpl. split; [done|]. destruct Hkind as [?|Hall]; [by left|].
  right. intros w Hw. apply Hsub. simpl. specialize (Hall w Hw). set_solver.
Qed.

Lemma partner_is_free low high (all_high_hi : list Player) st :
  (∀ q, q ∈ all_high_hi → q ∈ high) →
  (∀ a, a ∈ low → name a ∉ name <$> high) →
  NoDup (name <$> all_high_hi) →
  matched low high st →
  (length (pairings st) < length all_high_hi)%nat →
  ∃ q, q ∈ all_high_hi ∧ name q ∉ used_players st.
Proof.
  intros Hhigh Hdisj Hnd [Hused Hwf] Hlen.
  destruct (first_unused (used_players st) all_high_hi) as [q|] eqn:Hfree.
  { apply first_unused_Some in Hfree. by exists q. }
  exfalso.
  assert (name <$> all_high_hi ⊆+ (λ p, name (gunner p)) <$> pairings st) as Hsub.
  { apply NoDup_submseteq; [done|].
    intros x (q & -> & Hq)%list_elem_of_fmap.
    pose proof (first_unused_None _ _ q Hfree Hq) as Hx%Hused.
    unfold names_of in Hx. apply elem_of_pair_names in Hx.
    rewrite <-!list_fmap_compose in Hx.
    destruct Hx as [(p & Hx & Hp)%list_elem_of_fmap|Hx]; [|done].
    rewrite Forall_forall in Hwf. destruct (Hwf p Hp) as (Hlow & _).
    destruct (Hdisj _ Hlow). simpl in Hx. rewrite <-Hx.
    apply list_elem_of_fmap_2. by apply Hhigh. }
  apply submseteq_length in Hsub. rewrite !length_fmap in Hsub. lia.
Qed.

Lemma fold_pair_anchor_unique low high preferred all_high_hi tag anchors st :
  (∀ q, q ∈ preferred → q ∈ all_high_hi) →
  (∀ q, q ∈ all_high_hi → q ∈ high) →
  (∀ a, a ∈ low → name a ∉ name <$> high) →
  NoDup (name <$> all_high_hi) →
  NoDup (name <$> anchors) →
  (∀ a, a ∈ anchors → a ∈ low ∧ name a ∉ used_players st) →
  matched low high st →
  NoDup (names_of (pairings st)) →
  (∀ x, x ∈ names_of (pairings st) → x ∈ used_players st) →
  (length (pairings st) + length anchors ≤ length all_high_hi)%nat →
  let st' := foldl (pair_anchor preferred all_high_hi tag) st anchors in
  NoDup (names_of (pairings st'))
  ∧ (∀ x, x ∈ names_of (pairings st') → x ∈ used_players st')
  ∧ length (pairings st') = (length (pairings st) + length anchors)%nat
  ∧ ∀ a', a' ∈ low → name a' ∉ used_players st →
      name a' ∉ name <$> anchors → name a' ∉ used_players st'.
Proof.
  intros Hpref Hhigh Hdisj Hndh. revert st.
  induction anchors as [|a anchors IH];
    intros st Hnda Hanchors Hm Hnd Hnames Hlen; simpl.
  { split_and!; auto. }
  rewrite fmap_cons in Hnda. apply NoDup_cons in Hnda as [Ha Hnda].
  destruct (Hanchors a) as [Hal Hau]; [by left|].
  destruct (pair_anchor_shape preferred all_high_hi tag st a Hpref)
    as [[_ Hall]|(q & Hq & Hu & -> & Hkind)].
  { exfalso.
    destruct (partner_is_free low high all_high_hi st) as (q & Hq & Hfree);
      [done..|simpl in Hlen; lia|].
    by apply Hfree, Hall. }
  set (st1 := {| pairings := _; used_players := _ |}).
  assert (name a ≠ name q) as Hne.
  { intros Heq. apply (Hdisj a Hal). rewrite Heq.
    apply list_elem_of_fmap_2. by apply Hhigh. }
  assert (matched low high st1) as Hm1.
  { destruct Hm as [Hused Hwf]. split.
    - intros x Hx. apply names_of_matched_snoc. simpl in Hx.
      apply elem_of_union in Hx as [Hx|Hx]; [set_solver|].
      apply elem_of_union in Hx as [Hx|Hx]; [set_solver|]. left. by apply Hused.
    - apply Forall_app. split; [done|]. apply Forall_singleton. simpl.
      split_and!; [done|by apply Hhigh|done]. }
  destruct (IH st1) as (Hnd' & Hnames' & Hlen' & Hfresh); try done.
  - intros a' Ha'. destruct (Hanchors a') as [Hal' Hau']; [by right|].
    split; [done|]. simpl. intros Hin.
    apply elem_of_union in Hin as [Hin|Hin].
    + apply elem_of_singleton in Hin. apply (Hdisj a' Hal'). rewrite Hin.
      apply list_elem_of_fmap_2. by apply Hhigh.
    + apply elem_of_union in Hin as [Hin|Hin]; [|done].
      apply elem_of_singleton in Hin. apply Ha. rewrite <-Hin.
      by apply list_elem_of_fmap_2.
  - simpl. rewrite names_of_matched_app. apply NoDup_app. split; [done|]. split.
    + intros x Hx%Hnames. unfold names_of, pair_names. simpl. set_solver.
    + unfold names_of, pair_names. simpl.
      apply NoDup_cons. split; [set_solver|]. apply NoDup_singleton.
  - intros x Hx. simpl in *. apply names_of_matched_snoc in Hx as [Hx|[->| ->]];
      [apply Hnames in Hx|..]; set_solver.
  - simpl in *. rewrite length_app. simpl. lia.
  - split; [done|]. split; [done|]. split.
    + rewrite Hlen'. simpl. rewrite length_app. simpl. lia.
    + intros a' Hal' Hau' Hnotin. apply Hfresh; [done| |].
      * simpl. intros Hin.
        apply elem_of_union in Hin as [Hin|Hin].
        -- apply elem_of_singleton in Hin. apply (Hdisj a' Hal'). rewrite Hin.
           apply list_elem_of_fmap_2. by apply Hhigh.
        -- apply elem_of_union in Hin as [Hin|Hin]; [|done].
           apply elem_of_singleton in Hin. apply Hnotin. rewrite Hin.
           by left.
      * intros Hin. apply Hnotin. by right.
Qed.

Section Run.
Variable selected : list Player.

Abbreviation sorted := (sort_asc hi selected).
Abbreviation low := (take (length sorted / 2) sorted).
Abbreviation high_hi_players := (drop (length sorted / 2) sorted).
Abbreviation anchors := (sort_desc cvs_or_0 low).
Abbreviation gunners :=
  (sort_desc cvs_or_0 (filter (λ p, is_wildcard p ≠ true) high_hi_players)).
Abbreviation wildcards :=
  (sort_desc cvs_or_0 (filter (λ p, is_wildcard p = true) high_hi_players)).
Abbreviation all_high_hi := (sort_desc cvs_or_0 (gunners ++ wildcards)).
Abbreviation top_paired :=
  (foldl (pair_anchor wildcards all_high_hi "TOP+WILDCARD")
     {| pairings := []; used_players := ∅ |} (take 4 anchors)).
Abbreviation all_paired :=
  (foldl (pair_anchor gunners all_high_hi "MID+GUNNER") top_paired (drop 4 anchors)).

Lemma generate_pairings_unfold :
  generate_pairings selected
  = (home_first pair_can_play_home pair_cvs (pairings all_paired),
     imap (λ i pair, make_row (S i) pair)
       (home_first pair_can_play_home pair_cvs (pairings all_paired))).
Proof. reflexivity. Qed.

Lemma all_high_hi_perm : all_high_hi ≡ₚ high_hi_players.
Proof.
  rewrite !(sort_desc_perm cvs_or_0).
  rewrite (Permutation_app_comm (filter _ _)). apply filter_app_complement.
Qed.

Lemma elem_of_gunners q :
  q ∈ gunners ↔ is_wildcard q = false ∧ q ∈ high_hi_players.
Proof.
  rewrite (sort_desc_perm cvs_or_0), list_elem_of_filter.
  by destruct (is_wildcard q); intuition.
Qed.

Lemma elem_of_wildcards q :
  q ∈ wildcards ↔ is_wildcard q = true ∧ q ∈ high_hi_players.
Proof. by rewrite (sort_desc_perm cvs_or_0), list_elem_of_filter. Qed.

Lemma gunners_high q : q ∈ gunners → q ∈ all_high_hi.
Proof.
  intros Hq. rewrite (sort_desc_perm cvs_or_0 (gunners ++ wildcards)).
  apply elem_of_app. by left.
Qed.

Lemma wildcards_high q : q ∈ wildcards → q ∈ all_high_hi.
Proof.
  intros Hq. rewrite (sort_desc_perm cvs_or_0 (gunners ++ wildcards)).
  apply elem_of_app. by right.
Qed.

Lemma all_high_hi_high q : q ∈ all_high_hi → q ∈ high_hi_players.
Proof. by rewrite all_high_hi_perm. Qed.

Lemma anchors_low a : a ∈ anchors → a ∈ low.
Proof. by rewrite (sort_desc_perm cvs_or_0). Qed.

Lemma nobody_matched low' high' :
  matched low' high' {| pairings := []; used_players := ∅ |}.
Proof. split; [by intros ? ?%elem_of_empty|constructor]. Qed.

(** The two loops, one after the other. *)
Lemma loops_shape :
  matched low high_hi_players all_paired
  ∧ ∀ p, p ∈ pairings all_paired →
      (pairing_type p = "TOP+WILDCARD"
       ∧ (gunner p ∈ wildcards
          ∨ ∀ w, w ∈ wildcards → name w ∈ used_players all_paired))
      ∨ (pairing_type p = "MID+GUNNER"
         ∧ (gunner p ∈ gunners
            ∨ ∀ g, g ∈ gunners → name g ∈ used_players all_paired)).
Proof.
  destruct (fold_pair_anchor_shape low high_hi_players wildcards all_high_hi
              "TOP+WILDCARD" (take 4 anchors) {| pairings := []; used_players := ∅ |})
    as (Hm1 & _ & Hp1);
    [apply wildcards_high|apply all_high_hi_high
    |intros a Ha; apply anchors_low;
     exact (elem_of_sublist _ _ _ Ha (sublist_take _ _))
    |apply nobody_matched|].
  destruct (fold_pair_anchor_shape low high_hi_players gunners all_high_hi
              "MID+GUNNER" (drop 4 anchors) top_paired)
    as (Hm2 & Hsub & Hp2);
    [apply gunners_high|apply all_high_hi_high
    |intros a Ha; apply anchors_low;
     exact (elem_of_sublist _ _ _ Ha (sublist_drop _ _))
    |exact Hm1|].
  split; [exact Hm2|].
  intros p [Hp|Hp]%Hp2; [|by right].
  apply Hp1 in Hp as [Hp|[Htag Hkind]]; [by apply elem_of_nil in Hp|].
  left. split; [done|]. destruct Hkind as [?|Hall]; [by left|].
  right. intros w Hw. apply Hsub. by apply Hall.
Qed.

(** X21: every pair of the fourth script has its anchor from the first and
    its partner from the second half of the selection as sorted by handicap
    index; it is tagged TOP+WILDCARD or MID+GUNNER and carries the sum of the
    two value scores and the conjunction of the two home flags. *)
Theorem fourth_script_pairs_well_formed p :
  let by_handicap := sort_asc hi selected in
  let mid := (length by_handicap / 2)%nat in
  p ∈ (generate_pairings selected).1 →
  anchor p ∈ take mid by_handicap ∧ gunner p ∈ drop mid by_handicap
  ∧ anchor p ∈ selected ∧ gunner p ∈ selected
  ∧ pair_cvs p = (cvs_or_0 (anchor p) + cvs_or_0 (gunner p))%Q
  ∧ pair_can_play_home p = can_play_home (anchor p) && can_play_home (gunner p)
  ∧ (pairing_type p = "TOP+WILDCARD" ∨ pairing_type p = "MID+GUNNER").
Proof.
  intros by_handicap mid. unfold by_handicap, mid.
  rewrite generate_pairings_unfold. cbn [fst].
  rewrite (home_first_perm pair_cvs). intros Hp.
  destruct loops_shape as [[_ Hwf] Htags].
  rewrite Forall_forall in Hwf. destruct (Hwf p Hp) as (Ha & Hg & Hmk).
  pose proof (elem_of_sublist _ _ _ Ha (sublist_take _ _)) as Ha'.
  pose proof (elem_of_sublist _ _ _ Hg (sublist_drop _ _)) as Hg'.
  rewrite (sort_asc_perm hi) in Ha', Hg'.
  split_and!; [done..|by rewrite Hmk|by rewrite Hmk|].
  destruct (Htags p Hp) as [[? _]|[? _]]; auto.
Qed.

(** X22: the best anchors get the wildcards as long as there are any: a
    TOP+WILDCARD pair has a partner who is no wildcard only if every wildcard
    of the upper half is paired, and a MID+GUNNER pair has a wildcard as
    partner only if every steady player of the upper half is paired. *)
Theorem preferred_partners_first p :
  let final := (generate_pairings selected).1 in
  let high_hi_players :=
    drop (length (sort_asc hi selected) / 2) (sort_asc hi selected) in
  p ∈ final →
  (pairing_type p = "TOP+WILDCARD" → is_wildcard (gunner p) = false →
   ∀ w, w ∈ high_hi_players → is_wildcard w = true → name w ∈ names_of final)
  ∧ (pairing_type p = "MID+GUNNER" → is_wildcard (gunner p) = true →
     ∀ g, g ∈ high_hi_players → is_wildcard g = false → name g ∈ names_of final).
Proof.
  intros final high. unfold final. rewrite generate_pairings_unfold. cbn [fst].
  assert (Hnames : ∀ x, x ∈ names_of (pairings all_paired) →
            x ∈ names_of (home_first pair_can_play_home pair_cvs (pairings all_paired))).
  { intros x. by rewrite (names_of_matched_perm _ _ (home_first_perm pair_cvs _ _)). }
  rewrite (home_first_perm pair_cvs). intros Hp.
  destruct loops_shape as [[Hused _] Htags].
  destruct (Htags p Hp) as [[Htag Hkind]|[Htag Hkind]]; split.
  - intros _ Hnw w Hw Hwc. apply Hnames, Hused.
    destruct Hkind as [Hin%elem_of_wildcards|Hall]; [destruct Hin; congruence|].
    apply Hall. by apply elem_of_wildcards.
  - intros Htag'. congruence.
  - intros Htag'. congruence.
  - intros _ Hwc g Hg Hnw. apply Hnames, Hused.
    destruct Hkind as [Hin%elem_of_gunners|Hall]; [destruct Hin; congruence|].
    apply Hall. by apply elem_of_gunners.
Qed.

Lemma loops_unique :
  NoDup (name <$> selected) →
  NoDup (names_of (pairings all_paired))
  ∧ length (pairings all_paired) = (length selected / 2)%nat.
Proof.
  intros Hnd.
  assert (Hn : length sorted = length selected)
    by apply Permutation_length, sort_asc_perm.
  assert (Hsorted : NoDup (name <$> sorted)) by (by rewrite (sort_asc_perm hi)).
  rewrite <-(take_drop (length sorted / 2) sorted), fmap_app in Hsorted.
  apply NoDup_app in Hsorted as (Hndl & Hdisj' & Hndh).
  assert (Hdisj : ∀ a, a ∈ low → name a ∉ name <$> high_hi_players).
  { intros a Ha. apply Hdisj'. by apply list_elem_of_fmap_2. }
  assert (Hndall : NoDup (name <$> all_high_hi)) by (by rewrite all_high_hi_perm).
  assert (Hnda : NoDup (name <$> anchors)) by (by rewrite (sort_desc_perm cvs_or_0)).
  rewrite <-(take_drop 4 anchors), fmap_app in Hnda.
  apply NoDup_app in Hnda as (Hndt & Hdisja & Hndm).
  assert (Hlow : length low = (length selected / 2)%nat).
  { rewrite length_take, Hn. apply Nat.min_l, Nat.Div0.div_le_upper_bound. lia. }
  assert (Hanch : length anchors = (length selected / 2)%nat).
  { by rewrite (Permutation_length (sort_desc_perm cvs_or_0 low)). }
  assert (Hall : length all_high_hi = (length selected - length selected / 2)%nat).
  { by rewrite (Permutation_length all_high_hi_perm), length_drop, Hn. }
  assert (Hhalf : (length selected / 2 ≤ length selected - length selected / 2)%nat).
  { pose proof (Nat.div_mod_eq (length selected) 2). lia. }
  assert (Hsplit : (length (take 4 anchors) + length (drop 4 anchors))%nat
                   = (length selected / 2)%nat).
  { by rewrite <-length_app, take_drop. }
  destruct (fold_pair_anchor_shape low high_hi_players wildcards all_high_hi
              "TOP+WILDCARD" (take 4 anchors) {| pairings := []; used_players := ∅ |})
    as (Hm1 & _ & _);
    [apply wildcards_high|apply all_high_hi_high
    |intros a Ha; apply anchors_low;
     exact (elem_of_sublist _ _ _ Ha (sublist_take _ _))
    |apply nobody_matched|].
  destruct (fold_pair_anchor_unique low high_hi_players wildcards all_high_hi
              "TOP+WILDCARD" (take 4 anchors) {| pairings := []; used_players := ∅ |})
    as (Hnd1 & Hnames1 & Hlen1 & Hfresh1);
    [apply wildcards_high|apply all_high_hi_high|done|done|done
    | |apply nobody_matched|apply NoDup_nil_2|by intros ? ?%elem_of_nil
    |cbn [pairings length]; lia|].
  { intros a Ha. split; [|by intros ?%elem_of_empty].
    apply anchors_low. exact (elem_of_sublist _ _ _ Ha (sublist_take _ _)). }
  destruct (fold_pair_anchor_unique low high_hi_players gunners all_high_hi
              "MID+GUNNER" (drop 4 anchors) top_paired)
    as (Hnd2 & _ & Hlen2 & _);
    [apply gunners_high|apply all_high_hi_high|done|done|done
    | |exact Hm1|exact Hnd1|exact Hnames1| |].
  - intros a Ha.
    assert (a ∈ low) as Hal.
    { apply anchors_low. exact (elem_of_sublist _ _ _ Ha (sublist_drop _ _)). }
    split; [done|]. apply Hfresh1; [done|by intros ?%elem_of_empty|].
    intros Hin. apply (Hdisja _ Hin). by apply list_elem_of_fmap_2.
  - rewrite Hlen1. cbn [pairings length]. lia.
  - split; [done|]. rewrite Hlen2, Hlen1. cbn [pairings length]. lia.
Qed.

(** X23: with pairwise different names in the selection, no player is in
    two pairs of the fourth script's output. *)
Theorem fourth_script_each_player_once :
  NoDup (name <$> selected) →
  NoDup (names_of (generate_pairings selected).1).
Proof.
  intros Hnd. rewrite generate_pairings_unfold. cbn [fst].
  rewrite (names_of_matched_perm _ _ (home_first_perm pair_cvs _ _)).
  by apply loops_unique.
Qed.

(** X24: with pairwise different names, every anchor of the fourth script
    finds a partner: a selection of [n] players gives [n / 2] pairs and as
    many rows, however large [n] is. *)
Theorem fourth_script_pairs_every_anchor :
  NoDup (name <$> selected) →
  length (generate_pairings selected).1 = (length selected / 2)%nat
  ∧ length (generate_pairings selected).2 = (length selected / 2)%nat.
Proof.
  intros Hnd. rewrite generate_pairings_unfold. cbn [fst snd].
  rewrite length_imap, (Permutation_length (home_first_perm pair_cvs _ _)).
  destruct (loops_unique Hnd) as [_ Hlen]. done.
Qed.

End Run.

Lemma fourth_script_pairs_well_formed_witness :
  let p := make_pairing (player "A1" 16 1 true false) (player "W1" 8 9 true true)
             "TOP+WILDCARD" in
  let by_handicap := sort_asc hi few_home_pairs in
  let mid := (length by_handicap / 2)%nat in
  p ∈ (generate_pairings few_home_pairs).1
  ∧ (anchor p ∈ take mid by_handicap ∧ gunner p ∈ drop mid by_handicap
     ∧ anchor p ∈ few_home_pairs ∧ gunner p ∈ few_home_pairs
     ∧ pair_cvs p = (cvs_or_0 (anchor p) + cvs_or_0 (gunner p))%Q
     ∧ pair_can_play_home p = can_play_home (anchor p) && can_play_home (gunner p)
     ∧ (pairing_type p = "TOP+WILDCARD" ∨ pairing_type p = "MID+GUNNER")).
Proof.
  intros p by_handicap mid.
  split; [vm_compute; apply list_elem_of_here|].
  apply (fourth_script_pairs_well_formed few_home_pairs p).
  vm_compute. apply list_elem_of_here.
Defined.

Lemma preferred_partners_first_witness :
  let final := (generate_pairings two_wildcards).1 in
  let high_hi_players :=
    drop (length (sort_asc hi two_wildcards) / 2) (sort_asc hi two_wildcards) in
  let p := make_pairing (player "A3" 14 3 true false) (player "G3" 6 11 true false)
             "TOP+WILDCARD" in
  (p ∈ final ∧ pairing_type p = "TOP+WILDCARD" ∧ is_wildcard (gunner p) = false)
  ∧ (∀ w, w ∈ high_hi_players → is_wildcard w = true → name w ∈ names_of final).
Proof.
  intros final high_hi_players p.
  assert (Hp : p ∈ final).
  { vm_compute. do 2 apply list_elem_of_further. apply list_elem_of_here. }
  split; [by split_and!|].
  by apply (preferred_partners_first two_wildcards p).
Defined.

Lemma fourth_script_each_player_once_witness :
  NoDup (names_of (generate_pairings few_home_pairs).1).
Proof.
  apply (fourth_script_each_player_once few_home_pairs).
  apply (bool_decide_unpack _). vm_compute. exact I.
Defined.

Lemma fourth_script_pairs_every_anchor_witness :
  length (generate_pairings eighteen_committed).1 = (length eighteen_committed / 2)%nat
  ∧ length (generate_pairings eighteen_committed).2
    = (length eighteen_committed / 2)%nat.
Proof.
  apply (fourth_script_pairs_every_anchor eighteen_committed).
  apply (bool_decide_unpack _). vm_compute. exact I.
Defined.

End V4_more.

(** ** The roster of the third and the fourth script *)
Lemma NoDup_fmap_eq {A B} (f : A → B) (l : list A) x y :
  NoDup (f <$> l) → x ∈ l → y ∈ l → f x = f y → x = y.
Proof.
  induction l as [|z l IH]; [by intros _ ?%elem_of_nil|].
  rewrite fmap_cons. intros [Hz Hnd]%NoDup_cons Hx Hy Heq.
  apply elem_of_cons in Hx as [->|Hx]; apply elem_of_cons in Hy as [->|Hy]; auto.
  - destruct Hz. rewrite Heq. by apply list_elem_of_fmap_2.
  - destruct Hz. rewrite <-Heq. by apply list_elem_of_fmap_2.
Qed.

Section Selection.
Context {A : Type} (name commitment : A → string) (bench : list string).

Lemma fill_selection_take (selected pool : list A) :
  fill_selection selected pool = selected ++ take (16 - length selected) pool.
Proof.
  unfold fill_selection.
  destruct (Z.ltb_spec 0 (16 - Z.of_nat (length selected))) as [Hlt|Hge].
  - f_equal. f_equal. lia.
  - replace (16 - length selected)%nat with 0%nat by lia.
    by rewrite take_0, app_nil_r.
Qed.

Lemma select_sixteen_tiers (all_players : list A) :
  let tier c := filter (λ p, commitment p = c ∧ name p ∉ bench) all_players in
  ∃ n m,
    select_sixteen name commitment bench all_players
    = tier "Full" ++ take n (tier "Month-2-month") ++ take m (tier "TBC")
    ∧ n = (16 - length (tier "Full"))%nat
    ∧ m = (16 - length (tier "Full" ++ take n (tier "Month-2-month")))%nat.
Proof.
  intros tier. eexists _, _. split; [|done].
  unfold select_sixteen. fold tier. by rewrite !fill_selection_take, <-(assoc (++)).
Qed.

(** X25: the selection takes every committed player who is not on the
    bench, however many there are; it goes beyond sixteen players only when
    the committed players alone do, and then it holds nobody else. *)
Theorem selection_keeps_every_committed_player (all_players : list A) :
  let committed :=
    filter (λ p, commitment p = "Full" ∧ name p ∉ bench) all_players in
  let selected := select_sixteen name commitment bench all_players in
  (∀ p, p ∈ all_players → commitment p = "Full" → name p ∉ bench → p ∈ selected)
  ∧ committed `prefix_of` selected
  ∧ (length selected ≤ 16 `max` length committed)%nat
  ∧ ((16 ≤ length committed)%nat → selected = committed).
Proof.
  intros committed selected.
  destruct (select_sixteen_tiers all_players) as (n & m & Hsel & Hn & Hm).
  fold committed in Hsel, Hn, Hm. fold selected in Hsel.
  split_and!.
  - intros p Hp Hfull Hbench. rewrite Hsel. apply elem_of_app. left.
    by apply list_elem_of_filter.
  - rewrite Hsel. by eexists.
  - rewrite Hsel, !length_app, !length_take. rewrite length_app, length_take in Hm.
    lia.
  - intros Hlen. rewrite Hsel.
    replace n with 0%nat by lia. rewrite take_0.
    replace m with 0%nat by (rewrite length_app in Hm; lia).
    by rewrite take_0, !app_nil_r.
Qed.

(** X26: whoever is selected belongs to one of the three tiers and is not
    on the bench, and a lower tier is drawn on only when the tiers above it
    are used up: a month-to-month player is selected only with fewer than
    sixteen committed players, and a TBC player only when every
    month-to-month player off the bench is selected as well. *)
Theorem selection_respects_tiers (all_players : list A) :
  let selected := select_sixteen name commitment bench all_players in
  ∀ p, p ∈ selected →
    p ∈ all_players ∧ (name p ∉ bench)
    ∧ (commitment p = "Full"
       ∨ (commitment p = "Month-2-month"
          ∧ (length (filter (λ p, commitment p = "Full" ∧ name p ∉ bench) all_players)
             < 16)%nat)
       ∨ (commitment p = "TBC"
          ∧ (length (filter (λ p, commitment p ≠ "TBC") selected) < 16)%nat
          ∧ ∀ q, q ∈ all_players → commitment q = "Month-2-month" →
              name q ∉ bench → q ∈ selected)).
Proof.
  intros selected p.
  destruct (select_sixteen_tiers all_players) as (n & m & Hsel & Hn & Hm).
  fold selected in Hsel.
  set (committed := filter (λ p, commitment p = "Full" ∧ name p ∉ bench) all_players)
    in *.
  set (monthly := filter (λ p, commitment p = "Month-2-month" ∧ name p ∉ bench)
                    all_players) in *.
  set (tbc := filter (λ p, commitment p = "TBC" ∧ name p ∉ bench) all_players) in *.
  rewrite Hsel at 1. rewrite !elem_of_app.
  intros [Hp|[Hp|Hp]].
  - apply list_elem_of_filter in Hp as [[? ?] ?]. auto.
  - assert (n ≠ 0)%nat as Hn0 by (intros ->; by rewrite take_0 in Hp; apply elem_of_nil in Hp).
    pose proof (elem_of_sublist _ _ _ Hp (sublist_take _ _)) as Hp'.
    apply list_elem_of_filter in Hp' as [[? ?] ?].
    split; [done|]. split; [done|]. right; left. split; [done|]. lia.
  - assert (m ≠ 0)%nat as Hm0 by (intros ->; by rewrite take_0 in Hp; apply elem_of_nil in Hp).
    pose proof (elem_of_sublist _ _ _ Hp (sublist_take _ _)) as Hp'.
    apply list_elem_of_filter in Hp' as [[? ?] ?].
    split; [done|]. split; [done|]. right; right. split; [done|].
    rewrite length_app, length_take in Hm.
    assert (filter (λ p, commitment p ≠ "TBC") selected = committed ++ take n monthly)
      as Hnon.
    { rewrite Hsel, !filter_app.
      assert (∀ l : list A, Forall (λ p, commitment p ≠ "TBC") l →
                filter (λ p, commitment p ≠ "TBC") l = l) as Hall.
      { intros l Hl. induction Hl as [|x l Hx Hl IH]; [done|].
        rewrite filter_cons_True by done. by rewrite IH. }
      assert (∀ l : list A, Forall (λ p, commitment p = "TBC") l →
                filter (λ p, commitment p ≠ "TBC") l = []) as Hnone.
      { intros l Hl. induction Hl as [|x l Hx Hl IH]; [done|].
        rewrite filter_cons_False by (intros Hne; by apply Hne). done. }
      rewrite (Hall committed), (Hall (take n monthly)), (Hnone (take m tbc)).
      - by rewrite app_nil_r.
      - apply Forall_forall. intros x Hx.
        pose proof (elem_of_sublist _ _ _ Hx (sublist_take _ _)) as Hx'.
        by apply list_elem_of_filter in Hx' as [[? ?] ?].
      - apply Forall_forall. intros x Hx.
        pose proof (elem_of_sublist _ _ _ Hx (sublist_take _ _)) as Hx'.
        apply list_elem_of_filter in Hx' as [[Hc ?] ?]. rewrite Hc. done.
      - apply Forall_forall. intros x Hx.
        apply list_elem_of_filter in Hx as [[Hc ?] ?]. rewrite Hc. done. }
    split.
    + rewrite Hnon, length_app, length_take. lia.
    + intros q Hq Hc Hb. rewrite Hsel, !elem_of_app. right; left.
      rewrite take_ge by lia. by apply list_elem_of_filter.
Qed.

Lemma select_sixteen_elem (all_players : list A) p :
  p ∈ select_sixteen name commitment bench all_players →
  p ∈ all_players ∧ name p ∉ bench.
Proof.
  destruct (select_sixteen_tiers all_players) as (n & m & -> & _).
  rewrite !elem_of_app. intros [Hp|[Hp|Hp]].
  - by apply list_elem_of_filter in Hp as [[_ ?] ?].
  - pose proof (elem_of_sublist _ _ _ Hp (sublist_take _ _)) as Hp'.
    by apply list_elem_of_filter in Hp' as [[_ ?] ?].
  - pose proof (elem_of_sublist _ _ _ Hp (sublist_take _ _)) as Hp'.
    by apply list_elem_of_filter in Hp' as [[_ ?] ?].
Qed.

Lemma select_sixteen_NoDup (all_players : list A) :
  NoDup (name <$> all_players) →
  NoDup (name <$> select_sixteen name commitment bench all_players).
Proof.
  intros Hnd.
  destruct (select_sixteen_tiers all_players) as (n & m & -> & _).
  assert (Htier : ∀ c l,
            l `sublist_of` filter (λ p, commitment p = c ∧ name p ∉ bench) all_players →
            name <$> l `sublist_of` name <$> all_players).
  { intros c l Hl. apply fmap_sublist. etrans; [exact Hl|apply sublist_filter]. }
  assert (Hin : ∀ c l x,
            l `sublist_of` filter (λ p, commitment p = c ∧ name p ∉ bench) all_players →
            x ∈ name <$> l →
            ∃ p, p ∈ all_players ∧ name p = x ∧ commitment p = c).
  { intros c l x Hl (p & -> & Hp)%list_elem_of_fmap.
    pose proof (elem_of_sublist _ _ _ Hp Hl) as Hp'.
    apply list_elem_of_filter in Hp' as [[? ?] ?]. by exists p. }
  assert (Hdiff : ∀ c c' l l' x, c ≠ c' →
            l `sublist_of` filter (λ p, commitment p = c ∧ name p ∉ bench) all_players →
            l' `sublist_of` filter (λ p, commitment p = c' ∧ name p ∉ bench) all_players →
            x ∈ name <$> l → x ∉ name <$> l').
  { intros c c' l l' x Hne Hl Hl' Hx Hx'.
    destruct (Hin c l x Hl Hx) as (p & Hp & Hpx & Hc).
    destruct (Hin c' l' x Hl' Hx') as (q & Hq & Hqx & Hc').
    apply Hne. rewrite <-Hc, <-Hc'. f_equal.
    apply (NoDup_fmap_eq name all_players); [done..|congruence]. }
  rewrite !fmap_app. apply NoDup_app.
  split; [exact (sublist_NoDup _ _ Hnd (Htier "Full" _ (reflexivity _)))|].
  split.
  - intros x Hx [Hx'|Hx']%elem_of_app.
    + eapply (Hdiff "Full" "Month-2-month");
        [done|reflexivity|apply sublist_take|exact Hx|exact Hx'].
    + eapply (Hdiff "Full" "TBC");
        [done|reflexivity|apply sublist_take|exact Hx|exact Hx'].
  - apply NoDup_app.
    split; [exact (sublist_NoDup _ _ Hnd (Htier "Month-2-month" _ (sublist_take _ _)))|].
    split; [|exact (sublist_NoDup _ _ Hnd (Htier "TBC" _ (sublist_take _ _)))].
    intros x Hx Hx'. eapply (Hdiff "Month-2-month" "TBC");
      [done|apply sublist_take|apply sublist_take|exact Hx|exact Hx'].
Qed.

End Selection.

Lemma selection_respects_tiers_witness :
  let all_players := V3.crowded_list in
  let bench := V3.BENCH_PLAYERS in
  let selected := select_sixteen V3.name V3.commitment bench all_players in
  let p := V3.listed "M1" 3.5 20 "Month-2-month" in
  p ∈ all_players ∧ (V3.name p ∉ bench)
  ∧ (V3.commitment p = "Full"
     ∨ (V3.commitment p = "Month-2-month"
        ∧ (length (filter (λ p, V3.commitment p = "Full" ∧ V3.name p ∉ bench)
                     all_players)
           < 16)%nat)
     ∨ (V3.commitment p = "TBC"
        ∧ (length (filter (λ p, V3.commitment p ≠ "TBC") selected) < 16)%nat
        ∧ ∀ q, q ∈ all_players → V3.commitment q = "Month-2-month" →
            V3.name q ∉ bench → q ∈ selected)).
Proof.
  intros all_players bench selected p.
  apply (selection_respects_tiers V3.name V3.commitment bench all_players p).
  vm_compute. do 15 apply list_elem_of_further. apply list_elem_of_here.
Defined.

Module V3_roster.
Import V3.

Lemma select_players_elem (all_players : list Player) p :
  p ∈ select_players all_players →
  p ∈ all_players ∧ name p ∉ BENCH_PLAYERS.
Proof.
  unfold select_players. intros [Hp Hb]%select_sixteen_elem.
  by rewrite (sort_desc_perm cvs_or_0) in Hp.
Qed.

Lemma select_players_NoDup (all_players : list Player) :
  NoDup (name <$> all_players) → NoDup (name <$> select_players all_players).
Proof.
  intros Hnd. apply select_sixteen_NoDup.
  by rewrite (sort_desc_perm cvs_or_0).
Qed.

(** X27: from the players list to the pairs of the third script: when the
    selection is not empty the run yields its output, whoever is in a pair
    is a listed player and is not on the bench, and if the names of the list
    are pairwise different nobody is in two pairs. *)
Theorem third_script_from_players_list (all_players : list Player) :
  select_players all_players ≠ [] →
  ∃ out, generate_pairings (select_players all_players) = Some out
    ∧ (∀ x, x ∈ names_of (final_pairings out) →
         (x ∉ BENCH_PLAYERS) ∧ ∃ p, p ∈ all_players ∧ name p = x)
    ∧ (NoDup (name <$> all_players) → NoDup (names_of (final_pairings out))).
Proof.
  intros Hne.
  destruct (V3_more.run_well_formed (select_players all_players) Hne)
    as (out & Hgen & Hwf & Hunique).
  exists out. split; [done|]. split.
  - intros x Hx. unfold names_of in Hx. apply elem_of_pair_names in Hx.
    rewrite <-!list_fmap_compose in Hx.
    destruct Hx as [(p & -> & Hp)%list_elem_of_fmap|(p & -> & Hp)%list_elem_of_fmap];
      destruct (Hwf p Hp) as (Ha & Hg & _); simpl.
    + apply select_players_elem in Ha as (? & ?). eauto.
    + apply select_players_elem in Hg as (? & ?). eauto.
  - intros Hnd. by apply Hunique, select_players_NoDup.
Qed.

Lemma third_script_from_players_list_witness :
  select_players crowded_list ≠ []
  ∧ ∃ out, generate_pairings (select_players crowded_list) = Some out
    ∧ (∀ x, x ∈ names_of (final_pairings out) →
         (x ∉ BENCH_PLAYERS) ∧ ∃ p, p ∈ crowded_list ∧ name p = x)
    ∧ (NoDup (name <$> crowded_list) → NoDup (names_of (final_pairings out))).
Proof.
  split; [vm_compute; discriminate|].
  apply (third_script_from_players_list crowded_list).
  vm_compute. discriminate.
Defined.

End V3_roster.

Module V4_roster.
Import V4.

Lemma chosen_players_elem (all_players : list Player) p :
  p ∈ select_players all_players →
  p ∈ all_players ∧ name p ∉ BENCH_PLAYERS.
Proof.
  unfold select_players. intros [Hp Hb]%select_sixteen_elem.
  by rewrite (sort_desc_perm cvs_or_0) in Hp.
Qed.

Lemma chosen_players_NoDup (all_players : list Player) :
  NoDup (name <$> all_players) → NoDup (name <$> select_players all_players).
Proof.
  intros Hnd. apply select_sixteen_NoDup.
  by rewrite (sort_desc_perm cvs_or_0).
Qed.

(** X28: from the players list to the pairs of the fourth script: whoever
    is in a pair is a listed player and is not on the bench; if the names of
    the list are pairwise different, nobody is in two pairs and the selected
    players are paired up to one who is left over when their number is
    odd. *)
Theorem fourth_script_from_players_list (all_players : list Player) :
  let selected := select_players all_players in
  let final := (generate_pairings selected).1 in
  (∀ x, x ∈ names_of final →
     (x ∉ BENCH_PLAYERS) ∧ ∃ p, p ∈ all_players ∧ name p = x)
  ∧ (NoDup (name <$> all_players) →
     NoDup (names_of final) ∧ length final = (length selected / 2)%nat).
Proof.
  intros selected final. split.
  - intros x Hx. unfold names_of in Hx. apply elem_of_pair_names in Hx.
    rewrite <-!list_fmap_compose in Hx.
    destruct (V4_more.loops_shape selected) as [[_ Hwf] _].
    rewrite Forall_forall in Hwf.
    unfold final in Hx. rewrite V4_more.generate_pairings_unfold in Hx. cbn [fst] in Hx.
    destruct Hx as [(p & -> & Hp)%list_elem_of_fmap|(p & -> & Hp)%list_elem_of_fmap];
      rewrite (home_first_perm pair_cvs) in Hp;
      destruct (Hwf p Hp) as (Ha & Hg & _); simpl.
    + pose proof (elem_of_sublist _ _ _ Ha (sublist_take _ _)) as Ha'.
      rewrite (sort_asc_perm hi) in Ha'.
      apply chosen_players_elem in Ha' as (? & ?). eauto.
    + pose proof (elem_of_sublist _ _ _ Hg (sublist_drop _ _)) as Hg'.
      rewrite (sort_asc_perm hi) in Hg'.
      apply chosen_players_elem in Hg' as (? & ?). eauto.
  - intros Hnd%chosen_players_NoDup.
    destruct (V4_more.loops_unique selected Hnd) as [Hu Hlen].
    unfold final. rewrite V4_more.generate_pairings_unfold. cbn [fst].
    rewrite (V4_more.names_of_matched_perm _ _ (home_first_perm pair_cvs _ _)).
    by rewrite (Permutation_length (home_first_perm pair_cvs _ _)).
Qed.

End V4_roster.
